(** * Sisepai: a shallow embedding of [sisepai.py] and [game.py]

    The development follows the two source files: cards, decks and sets,
    the hand evaluator, the player, and the turn orchestrator.

    Python objects are shared and mutable.  A [Card] object is represented
    by its identity [cid] together with the attributes that are assigned
    once in [Card.__init__] and never written again ([colour], [suit],
    [rank]); its two mutable flags [active] and [locked] live in the
    [World], keyed by identity, so that a flag set through one reference is
    seen through every other reference to the same card.  Lists are passed
    by value, and a function that mutates a list argument in place returns
    its new contents.  The outcomes of [numpy.random] are read from an
    oracle carried by the [World]. *)

From stdpp Require Import gmap strings list sorting pretty.

Open Scope Z_scope.

(** ** Results and the state monad *)

Inductive exn : Set :=
  IndexError | ValueError | AttributeError | TypeError | ZeroDivisionError
  | OverflowError.

(** [Raise] is an uncaught Python exception; [Starved] is a run that was
    cut short: it asks the oracle for more random outcomes than it was
    given, or a [while] loop is left with iterations to do when its fuel
    ends. *)
Inductive res (A : Type) : Type :=
  | Ok (a : A)
  | Raise (e : exn)
  | Starved.
Arguments Ok {A} a.
Arguments Raise {A} e.
Arguments Starved {A}.

Record World := mkWorld {
  next_id : nat;          (* identity of the next object to be created *)
  active : gset nat;      (* cards whose [active] flag is True *)
  locked : gset nat;      (* cards whose [locked] flag is True *)
  rand : list nat         (* outcomes still to be drawn from numpy.random *)
}.

Definition M (A : Type) : Type := World → res (A * World).

Global Instance M_ret : MRet M := λ A a w, Ok (a, w).
Global Instance M_bind : MBind M := λ A B f m w,
  match m w with
  | Ok (a, w') => f a w'
  | Raise e => Raise e
  | Starved => Starved
  end.

Definition raise {A} (e : exn) : M A := λ _, Raise e.
Definition get_world : M World := λ w, Ok (w, w).
Definition put_world (w : World) : M unit := λ _, Ok (tt, w).

(** [for x in l: body], threading the loop-carried variables [s]. *)
Fixpoint for_in {X S : Type} (l : list X) (body : X → S → M S) (s : S) : M S :=
  match l with
  | [] => mret s
  | x :: l' => s' ← body x s; for_in l' body s'
  end.

(** [range(n)] for a Python integer [n]. *)
Definition range (n : Z) : list nat := seq 0 (Z.to_nat n).

(** [random_interval(n)]: a random integer in [0, n], as drawn by numpy. *)
Definition random_interval (n : nat) : M nat := λ w,
  match rand w with
  | [] => Starved
  | r :: rs =>
      Ok ((r mod (S n))%nat,
          {| next_id := next_id w; active := active w; locked := locked w; rand := rs |})
  end.

(** [np.random.choice(l, 1)[0]]: one element of [l], uniformly at random. *)
Definition random_choice {A} (l : list A) : M A :=
  match l with
  | [] => raise ValueError
  | a :: _ => i ← random_interval (length l - 1); mret (nth i l a)
  end.

(** [x[i], x[j] = x[j], x[i]] *)
Definition swap {A} (i j : nat) (x : list A) : list A :=
  match x !! i, x !! j with
  | Some a, Some b => <[j := a]> (<[i := b]> x)
  | _, _ => x
  end.

(** [np.random.shuffle(x)]: numpy shuffles in place, for [i] from
    [len(x)-1] down to [1] exchanging [x[i]] with [x[j]] for a random
    [j] in [0, i]. *)
Fixpoint shuffle_from {A} (i : nat) (x : list A) : M (list A) :=
  match i with
  | O => mret x
  | S i' => j ← random_interval i; shuffle_from i' (swap i j x)
  end.

Definition random_shuffle {A} (x : list A) : M (list A) :=
  shuffle_from (length x - 1) x.

(** ** Cards *)

Record Card := mkCard {
  cid : nat;
  colour : string;
  suit : string;
  rank : Z
}.

Global Instance Card_eq_dec : EqDecision Card.
Proof. solve_decision. Defined.

Definition validSuits : list string :=
  ["kuin"; "tse"; "xiong"; "kee"; "mah"; "pau"; "chut"]%string.
Definition validColours : list string :=
  ["red"; "yellow"; "white"; "green"]%string.

(** [l.index(x)] (raises ValueError when [x] is absent). *)
Fixpoint index_of (x : string) (l : list string) : option nat :=
  match l with
  | [] => None
  | y :: l' => if bool_decide (y = x) then Some O else S <$> index_of x l'
  end.

Definition calculate_rank (colour suit : string) : res Z :=
  match index_of suit validSuits, index_of colour validColours with
  | Some si, Some ci =>
      Ok (4 * Z.of_nat si + 4 - (Z.of_nat (length validColours) - Z.of_nat ci))
  | _, _ => Raise ValueError
  end.

(** [x in l] for an argument that may be [None]. *)
Definition py_in (x : option string) (l : list string) : bool :=
  match x with
  | Some s => bool_decide (s ∈ l)
  | None => false
  end.

Definition set_flag (b : bool) (i : nat) (X : gset nat) : gset nat :=
  if b then {[i]} ∪ X else X ∖ {[i]}.

(** [Card(colour, suit, active)] *)
Definition Card_init (colour suit : option string) (act : bool) : M Card := λ w,
  let i := next_id w in
  let w' := {| next_id := S i; active := set_flag act i (active w);
               locked := set_flag false i (locked w); rand := rand w |} in
  match colour, suit with
  | Some c, Some s =>
      if py_in colour validColours && py_in suit validSuits then
        match calculate_rank c s with
        | Ok r => Ok ({| cid := i; colour := c; suit := s; rank := r |}, w')
        | Raise e => Raise e
        | Starved => Starved
        end
      else Ok ({| cid := i; colour := "invalid"; suit := "invalid"; rank := 100 |}, w')
  | _, _ => Ok ({| cid := i; colour := "invalid"; suit := "invalid"; rank := 100 |}, w')
  end.

Definition is_active (w : World) (c : Card) : bool := bool_decide (cid c ∈ active w).
Definition is_locked (w : World) (c : Card) : bool := bool_decide (cid c ∈ locked w).

Definition set_active (c : Card) : M unit := λ w,
  Ok (tt, {| next_id := next_id w; active := {[cid c]} ∪ active w;
             locked := locked w; rand := rand w |}).
Definition lock (c : Card) : M unit := λ w,
  Ok (tt, {| next_id := next_id w; active := active w;
             locked := {[cid c]} ∪ locked w; rand := rand w |}).
Definition unlock (c : Card) : M unit := λ w,
  Ok (tt, {| next_id := next_id w; active := active w;
             locked := locked w ∖ {[cid c]}; rand := rand w |}).

(** ** Decks *)

Record Deck := mkDeck {
  ndecks : Z;
  cards : list Card
}.

Definition populate_deck (ndecks : Z) : M (list Card) :=
  c ← Card_init None None false;
  for_in validSuits (λ i cards,
    for_in validColours (λ j cards,
      for_in (range (4 * ndecks)) (λ k cards,
        c' ← Card_init (Some j) (Some i) false;
        mret (cards ++ [c'])) cards) cards) [].

Definition shuffle_deck (d : Deck) : M Deck :=
  cs ← random_shuffle (cards d);
  mret {| ndecks := ndecks d; cards := cs |}.

(** [Deck(ndecks, shuffle)] *)
Definition Deck_init (ndecks : Z) (shuffle : bool) : M Deck :=
  cs ← populate_deck ndecks;
  let d := {| ndecks := ndecks; cards := cs |} in
  if shuffle then shuffle_deck d else mret d.

(** [l.pop()]: remove and return the last item. *)
Definition pop {A} (l : list A) : res (A * list A) :=
  match last l with
  | Some a => Ok (a, removelast l)
  | None => Raise IndexError
  end.

Definition lift {A} (r : res A) : M A := λ w,
  match r with
  | Ok a => Ok (a, w)
  | Raise e => Raise e
  | Starved => Starved
  end.

Definition draw_active_card (d : Deck) (shuffle : bool) : M (option Card * Deck) :=
  d ← (if shuffle then shuffle_deck d else mret d);
  if bool_decide (Z.of_nat (length (cards d)) < 1) then mret (None, d)
  else
    '(c, cs) ← lift (pop (cards d));
    _ ← set_active c;
    mret (Some c, {| ndecks := ndecks d; cards := cs |}).

Definition draw_cards (d : Deck) (ncards : Z) (shuffle : bool)
  : M (option (list Card) * Deck) :=
  d ← (if shuffle then shuffle_deck d else mret d);
  if bool_decide (Z.of_nat (length (cards d)) - ncards < 1) then mret (None, d)
  else
    '(dcards, cs) ← for_in (range ncards) (λ i '(dcards, cs),
        '(c, cs') ← lift (pop cs);
        mret (dcards ++ [c], cs')) ([], cards d);
    mret (Some dcards, {| ndecks := ndecks d; cards := cs |}).

Definition reshuffle_deck (d : Deck) : M Deck :=
  cs ← populate_deck (ndecks d);
  shuffle_deck {| ndecks := ndecks d; cards := cs |}.

(** A finite Python float, the double [mant × 2 ^ expo]; the mantissa of
    a double has at most 53 bits. *)
Record float := mkFloat { mant : Z; expo : Z }.

(** [a / 2] for a Python int [a].  True division of ints gives the double
    nearest to the exact quotient, a tie going to the even mantissa, and
    raises OverflowError when that double would be beyond the largest
    one.  An [a] of at most 53 bits is a mantissa as it stands; of a
    longer [a] the leading 53 bits are kept and rounded by the bits that
    are dropped. *)
Definition int_truediv_2 (a : Z) : res float :=
  let bits := Z.log2 (Z.abs a) + 1 in
  if bool_decide (bits ≤ 53) then Ok (mkFloat a (-1))
  else
    let dropped := bits - 53 in
    let m := Z.shiftr (Z.abs a) dropped in
    let rest := Z.land (Z.abs a) (Z.ones dropped) in
    let half := Z.shiftl 1 (dropped - 1) in
    let m := if bool_decide (half < rest)
                || (bool_decide (rest = half) && Z.odd m)
             then m + 1 else m in
    if bool_decide (1024 < Z.log2 m + 1 + (dropped - 1))
    then Raise OverflowError
    else Ok (mkFloat (Z.sgn a * m) (dropped - 1)).

(** [math.floor(x)]: the greatest int that is not above [x], exactly. *)
Definition math_floor (x : float) : Z := Z.shiftl (mant x) (expo x).

(** [game.construct_deck(nplayers)]. *)
Definition construct_deck (nplayers : Z) : M Deck :=
  if bool_decide (nplayers < 2) then Deck_init 1 true
  else if bool_decide (nplayers ≤ 4) then Deck_init 2 true
  else
    half ← lift (int_truediv_2 (nplayers + 1));
    Deck_init (math_floor half) true.

(** ** General functions on lists of cards *)

(** Python compares objects of a class without [__eq__] by identity. *)
Definition same_object (a b : Card) : bool := bool_decide (cid a = cid b).

(** [cards[0]] *)
Definition first_card (cards : list Card) : res Card :=
  match cards with
  | [] => Raise IndexError
  | c :: _ => Ok c
  end.

Global Instance res_ret : MRet res := λ A a, Ok a.
Global Instance res_bind : MBind res := λ A B f m,
  match m with
  | Ok a => f a
  | Raise e => Raise e
  | Starved => Starved
  end.

Definition cards_same_colour (cards : list Card) : res bool :=
  c0 ← first_card cards;
  let test_colour := colour c0 in
  mret (forallb (λ i, bool_decide (colour i = test_colour)) cards).

Definition cards_same_suit (cards : list Card) : res bool :=
  c0 ← first_card cards;
  let test_suit := suit c0 in
  mret (forallb (λ i, bool_decide (suit i = test_suit)) cards).

Definition cards_unique_colours (cards : list Card) : bool :=
  forallb (λ i,
    let test_colour := colour i in
    forallb (λ j, same_object i j || negb (bool_decide (colour j = test_colour))) cards)
    cards.

Definition cards_all_suit (cards : list Card) (s : string) : bool :=
  forallb (λ i, bool_decide (suit i = s)) cards.

Definition cards_not_in (cards card_list : list Card) : bool :=
  forallb (λ i, negb (existsb (same_object i) card_list)) cards.

Definition cards_not_locked (w : World) (cards : list Card) : bool :=
  forallb (λ i, negb (is_locked w i)) cards.

Definition contains_active_card (w : World) (cards : list Card) : bool :=
  existsb (is_active w) cards.

Definition hand_contains_suit (hand : list Card) (s : string) : bool :=
  existsb (λ c, bool_decide (suit c = s)) hand.

(** [list.sort] and [sorted] are stable; [insert_sorted] places an item
    before the first item that is not below it. *)
Fixpoint insert_sorted {A} (le : A → A → bool) (x : A) (l : list A) : list A :=
  match l with
  | [] => [x]
  | y :: l' => if le x y then x :: l else y :: insert_sorted le x l'
  end.

Definition py_sort {A} (le : A → A → bool) (l : list A) : list A :=
  foldr (insert_sorted le) [] l.

Definition rank_le (a b : Card) : bool := bool_decide (rank a ≤ rank b).

(** [Deck.sort_deck()] *)
Definition sort_deck (d : Deck) : Deck :=
  {| ndecks := ndecks d; cards := py_sort rank_le (cards d) |}.

(** [sort_cards(cards, by)]: the list is sorted in place by rank; the
    first component is the argument after the call, the second the list
    returned. *)
Definition sort_cards (cards : list Card) (by_ : string) : res (list Card * list Card) :=
  let cards := py_sort rank_le cards in
  if bool_decide (by_ = "colour") then
    _ ← first_card cards;
    mret (cards,
          foldl (λ sorted_cards i,
                   foldl (λ sorted_cards j,
                            if bool_decide (colour j = i) then sorted_cards ++ [j]
                            else sorted_cards) sorted_cards cards)
                [] validColours)
  else mret (cards, cards).

(** ** Sets of cards *)

Record CardSet := mkCardSet {
  set_cards : list Card;
  melded : bool;
  invalid : bool;
  same_colour : bool;
  same_suit : bool;
  unique_colours : bool;
  score : Z
}.

Global Instance CardSet_eq_dec : EqDecision CardSet.
Proof. solve_decision. Defined.

Definition or_else {A} (x y : option A) : option A :=
  match x with Some _ => x | None => y end.

Definition sorted_suits (suits : list string) : list string := py_sort String.leb suits.

(** [Set.evaluate_score]: the score, and the value of [self.invalid]
    after the call. *)
Definition evaluate_score (cards : list Card)
    (melded same_colour same_suit unique_colours : bool) : res (Z * bool) :=
  c0 ← first_card cards;
  let len := length cards in
  let identical_or_chut :=
    if same_suit && negb (bool_decide (suit c0 = "kuin")) then
      or_else
        (if same_colour then
           if bool_decide (len = 4%nat) then Some (if melded then 6 else 8)
           else if bool_decide (len = 3%nat) then Some (if melded then 1 else 3)
           else if bool_decide (len = 2%nat) then Some 0
           else None
         else None)
        (if unique_colours && bool_decide (suit c0 = "chut") then
           if bool_decide (len = 4%nat) then Some 4
           else if bool_decide (len = 3%nat) then Some 1
           else None
         else None)
    else None in
  let consecutive :=
    if same_colour then
      let suits := sorted_suits (suit <$> cards) in
      if bool_decide (suits = sorted_suits ["kuin"; "tse"; "xiong"]%string) then Some 2
      else if bool_decide (suits = sorted_suits ["kee"; "mah"; "pau"]%string) then Some 1
      else None
    else None in
  let lone_kuin :=
    if bool_decide (suit c0 = "kuin") && bool_decide (len = 1%nat) then Some 1 else None in
  match or_else identical_or_chut (or_else consecutive lone_kuin) with
  | Some v => mret (v, false)
  | None => mret (-1, true)
  end.

(** [Set(cards)] *)
Definition Set_init (w : World) (cards : list Card) : res CardSet :=
  let melded := contains_active_card w cards in
  sc ← cards_same_colour cards;
  ss ← cards_same_suit cards;
  let uc := cards_unique_colours cards in
  '(v, inv) ← evaluate_score cards melded sc ss uc;
  mret {| set_cards := cards; melded := melded; invalid := inv; same_colour := sc;
          same_suit := ss; unique_colours := uc; score := v |}.

Definition is_identical_set (s : CardSet) : res bool :=
  ss ← cards_same_suit (set_cards s);
  if (ss : bool) then cards_same_colour (set_cards s) else mret false.

Definition is_four_colour_set (s : CardSet) : res bool :=
  ss ← cards_same_suit (set_cards s);
  if (ss : bool) && cards_unique_colours (set_cards s)
        && bool_decide (length (set_cards s) = 4%nat) then
    c0 ← first_card (set_cards s);
    mret (bool_decide (suit c0 = "chut"))
  else mret false.

Definition exists_nks (hand_sets : list CardSet) : bool :=
  existsb (λ s, bool_decide (1 < length (set_cards s))%nat) hand_sets.

(** [exists_identical_set(sets, size, suit, colour)]; the colour ['all']
    asks for any one colour. *)
Fixpoint exists_identical_set (sets : list CardSet) (size : Z) (suit_ colour_ : string)
  : res bool :=
  match sets with
  | [] => Ok false
  | s :: sets' =>
      if negb (bool_decide (Z.of_nat (length (set_cards s)) = size)) then
        exists_identical_set sets' size suit_ colour_
      else
        c0 ← first_card (set_cards s);
        let test_colour := colour c0 in
        let set_found :=
          foldl (λ (set_found : bool) c,
                   if bool_decide (colour_ = "all") then
                     if negb (bool_decide (suit c = suit_))
                        || negb (bool_decide (colour c = test_colour))
                     then false else set_found
                   else if negb (bool_decide (suit c = suit_))
                           || negb (bool_decide (colour c = colour_))
                   then false else set_found)
                true (set_cards s) in
        if set_found then Ok true
        else exists_identical_set sets' size suit_ colour_
  end.

(** ** The hand evaluator *)

(** [l[i:j]] *)
Definition slice {A} (l : list A) (i j : nat) : list A := take (j - i) (drop i l).

Definition new_Set (cards : list Card) : M CardSet := λ w, lift (Set_init w cards) w.

(** [found_sets.append(test_set)] followed by [for c in test_cards: c.lock()] *)
Definition commit (test_set : CardSet) (test_cards : list Card)
    (found_sets : list CardSet) : M (list CardSet) :=
  _ ← for_in test_cards (λ c _, lock c) tt;
  mret (found_sets ++ [test_set]).

Definition unlocked (test_cards : list Card) : M bool :=
  w ← get_world; mret (cards_not_locked w test_cards).

(** First tier: 4-card identical sets, by a window sliding over the sorted
    cards.  [fuel] bounds the iterations of the [while] loop. *)
Fixpoint find_four_identical (fuel : nat) (cards : list Card) (i : nat)
    (found_sets : list CardSet) : M (list CardSet) :=
  if bool_decide (Z.of_nat i ≤ Z.of_nat (length cards) - 4) then
    match fuel with
    | O => λ _, Starved
    | S fuel =>
        let valid_scores := [8; 6] in
        let test_cards := slice cards i (i + 4) in
        test_set ← new_Set test_cards;
        free ← unlocked test_cards;
        if bool_decide (score test_set ∈ valid_scores) && (free : bool) then
          found_sets ← commit test_set test_cards found_sets;
          find_four_identical fuel cards (i + 3 + 1) found_sets
        else find_four_identical fuel cards (i + 1) found_sets
    end
  else mret found_sets.

(** [for i in range(k, len(cards))]: the body receives [cards[i]] and the
    cards at the later indices, over which a nested loop
    [for j in range(i+1, len(cards))] runs in turn. *)
Fixpoint for_from {S : Type} (cards : list Card)
    (body : Card → list Card → S → M S) (s : S) : M S :=
  match cards with
  | [] => mret s
  | c :: later => s' ← body c later s; for_from later body s'
  end.

Definition valid_multicolour_suits : list string := ["chut"]%string.

(** Second tier: 4-card multicolour sets. *)
Definition find_four_colour (cards : list Card) (found_sets : list CardSet)
  : M (list CardSet) :=
  for_from cards (λ ci after_i found_sets,
    if negb (bool_decide (suit ci ∈ valid_multicolour_suits)) then mret found_sets
    else
      for_from after_i (λ cj after_j found_sets,
        for_from after_j (λ ck after_k found_sets,
          for_from after_k (λ cl _ found_sets,
            let test_cards := [ci; cj; ck; cl] in
            test_set ← new_Set test_cards;
            free ← unlocked test_cards;
            if bool_decide (score test_set = 4) && (free : bool) then
              commit test_set test_cards found_sets
            else mret found_sets) found_sets) found_sets) found_sets) found_sets.

(** Third tier: 3-card identical sets. *)
Fixpoint find_three_identical (fuel : nat) (cards : list Card) (i : nat)
    (found_sets : list CardSet) : M (list CardSet) :=
  if bool_decide (Z.of_nat i ≤ Z.of_nat (length cards) - 3) then
    match fuel with
    | O => λ _, Starved
    | S fuel =>
        let valid_scores := [3; 1] in
        let test_cards := slice cards i (i + 3) in
        ss ← lift (cards_same_suit test_cards);
        sc ← (if (ss : bool) then lift (cards_same_colour test_cards) else mret false);
        if (sc : bool) then
          test_set ← new_Set test_cards;
          free ← unlocked test_cards;
          if bool_decide (score test_set ∈ valid_scores) && (free : bool) then
            found_sets ← commit test_set test_cards found_sets;
            find_three_identical fuel cards (i + 2 + 1) found_sets
          else find_three_identical fuel cards (i + 1) found_sets
        else find_three_identical fuel cards (i + 1) found_sets
    end
  else mret found_sets.

(** Fourth tier: 3-card consecutive and other multicolour sets. *)
Definition find_three_other (cards : list Card) (found_sets : list CardSet)
  : M (list CardSet) :=
  for_from cards (λ ci after_i found_sets,
    for_from after_i (λ cj after_j found_sets,
      for_from after_j (λ ck _ found_sets,
        let valid_scores := [2; 1] in
        let test_cards := [ci; cj; ck] in
        test_set ← new_Set test_cards;
        free ← unlocked test_cards;
        if bool_decide (score test_set ∈ valid_scores) && (free : bool) then
          commit test_set test_cards found_sets
        else mret found_sets) found_sets) found_sets) found_sets.

(** Fifth tier: standalone kuin. *)
Definition find_kuin (cards : list Card) (found_sets : list CardSet)
  : M (list CardSet) :=
  for_in cards (λ i found_sets,
    free ← unlocked [i];
    if bool_decide (suit i = "kuin") && (free : bool) then
      s ← new_Set [i];
      _ ← lock i;
      mret (found_sets ++ [s])
    else mret found_sets) found_sets.

(** Sixth tier: pairs. *)
Fixpoint find_pairs (fuel : nat) (cards : list Card) (i : nat)
    (found_sets : list CardSet) : M (list CardSet) :=
  if bool_decide (Z.of_nat i ≤ Z.of_nat (length cards) - 2) then
    match fuel with
    | O => λ _, Starved
    | S fuel =>
        let test_cards := slice cards i (i + 2) in
        test_set ← new_Set test_cards;
        free ← unlocked test_cards;
        if bool_decide (score test_set = 0) && (free : bool) then
          found_sets ← commit test_set test_cards found_sets;
          find_pairs fuel cards (i + 1) found_sets
        else find_pairs fuel cards (i + 1) found_sets
    end
  else mret found_sets.

(** The result of [evaluate_hand(hand_cards, return_sets)].  [ev_cards] is
    the argument list after the call (it was sorted in place); with
    [return_sets] false the caller receives [ev_score] and [ev_loose]
    only. *)
Record Evaluation := mkEvaluation {
  ev_cards : list Card;
  ev_sets : list CardSet;
  ev_score : Z;
  ev_loose : list Card
}.

Definition evaluate_hand (hand_cards : list Card) : M Evaluation :=
  '(hand_cards, cards) ← lift (sort_cards hand_cards "suit");
  let hand_score := 0 in
  let found_sets := [] in
  let lang_pai := [] in
  let fuel := length cards in
  found_sets ← find_four_identical fuel cards 0 found_sets;
  found_sets ← find_four_colour cards found_sets;
  found_sets ← find_three_identical fuel cards 0 found_sets;
  found_sets ← find_three_other cards found_sets;
  found_sets ← find_kuin cards found_sets;
  found_sets ← find_pairs fuel cards 0 found_sets;
  let hand_score := foldl (λ hand_score s, hand_score + score s) hand_score found_sets in
  w ← get_world;
  let lang_pai := foldl (λ lang_pai c, if negb (is_locked w c) then lang_pai ++ [c]
                                       else lang_pai) lang_pai cards in
  _ ← for_in cards (λ c _, unlock c) tt;
  mret {| ev_cards := hand_cards; ev_sets := found_sets;
          ev_score := hand_score; ev_loose := lang_pai |}.

(** ** Players *)

Record Player := mkPlayer {
  name : string;
  field_discards : list Card;
  field_melded_sets : list CardSet;
  total_score : Z;
  hand : list Card;
  hand_sets : list CardSet;
  hand_score : Z;
  facedown_sets : list CardSet;
  facedown_score : Z;
  melded_sets : list CardSet;
  melded_score : Z;
  lang_pai : list Card;
  collection : list Card
}.

(** [Player(name)] *)
Definition Player_init (name : string) : Player :=
  {| name := name; field_discards := []; field_melded_sets := []; total_score := 0;
     hand := []; hand_sets := []; hand_score := 0; facedown_sets := [];
     facedown_score := 0; melded_sets := []; melded_score := 0; lang_pai := [];
     collection := [] |}.

(** [l.remove(x)]: delete the first item equal to [x]; ValueError when
    there is none. *)
Fixpoint list_remove {A} (eqb : A → A → bool) (x : A) (l : list A) : res (list A) :=
  match l with
  | [] => Raise ValueError
  | y :: l' => if eqb y x then Ok l' else l'' ← list_remove eqb x l'; mret (y :: l'')
  end.

(** [for c in cs: l.remove(c)] *)
Fixpoint remove_cards (cs l : list Card) : res (list Card) :=
  match cs with
  | [] => Ok l
  | c :: cs' => l' ← list_remove same_object c l; remove_cards cs' l'
  end.

(** A Set object is identified by its contents: Python compares Set
    objects by identity, and two Set objects never hold the same cards
    as long as no card lies in two sets. *)
Definition same_set (a b : CardSet) : bool := bool_decide (a = b).

Definition with_hand (p : Player) (h : list Card) : Player :=
  {| name := name p; field_discards := field_discards p;
     field_melded_sets := field_melded_sets p; total_score := total_score p;
     hand := h; hand_sets := hand_sets p; hand_score := hand_score p;
     facedown_sets := facedown_sets p; facedown_score := facedown_score p;
     melded_sets := melded_sets p; melded_score := melded_score p;
     lang_pai := lang_pai p; collection := collection p |}.

Definition with_facedown (p : Player) (fs : list CardSet) (sc : Z) : Player :=
  {| name := name p; field_discards := field_discards p;
     field_melded_sets := field_melded_sets p; total_score := total_score p;
     hand := hand p; hand_sets := hand_sets p; hand_score := hand_score p;
     facedown_sets := fs; facedown_score := sc;
     melded_sets := melded_sets p; melded_score := melded_score p;
     lang_pai := lang_pai p; collection := collection p |}.

Definition with_melded (p : Player) (ms : list CardSet) (sc : Z) : Player :=
  {| name := name p; field_discards := field_discards p;
     field_melded_sets := field_melded_sets p; total_score := total_score p;
     hand := hand p; hand_sets := hand_sets p; hand_score := hand_score p;
     facedown_sets := facedown_sets p; facedown_score := facedown_score p;
     melded_sets := ms; melded_score := sc;
     lang_pai := lang_pai p; collection := collection p |}.

Definition update_collection (p : Player) : M Player :=
  let collection := [] in
  collection ← for_in (hand p) (λ c collection,
      _ ← unlock c; mret (collection ++ [c])) collection;
  let collection := foldl (λ collection s,
      foldl (λ collection c, collection ++ [c]) collection (set_cards s))
      collection (facedown_sets p) in
  let collection := foldl (λ collection s,
      foldl (λ collection c, collection ++ [c]) collection (set_cards s))
      collection (melded_sets p) in
  '(_, collection) ← lift (sort_cards collection "suit");
  mret {| name := name p; field_discards := field_discards p;
          field_melded_sets := field_melded_sets p; total_score := total_score p;
          hand := hand p; hand_sets := hand_sets p; hand_score := hand_score p;
          facedown_sets := facedown_sets p; facedown_score := facedown_score p;
          melded_sets := melded_sets p; melded_score := melded_score p;
          lang_pai := lang_pai p; collection := collection |}.

Definition evaluate_player_hand (p : Player) : M Player :=
  e ← evaluate_hand (hand p);
  let '(fs, hs, lp) := (ev_sets e, ev_score e, ev_loose e) in
  update_collection
    {| name := name p; field_discards := field_discards p;
       field_melded_sets := field_melded_sets p;
       total_score := hs + facedown_score p + melded_score p;
       hand := ev_cards e; hand_sets := fs; hand_score := hs;
       facedown_sets := facedown_sets p; facedown_score := facedown_score p;
       melded_sets := melded_sets p; melded_score := melded_score p;
       lang_pai := lp; collection := collection p |}.

(** [update_scores()]: the hand is evaluated for its score alone; the
    sets of the hand and the loose cards are not refreshed. *)
Definition update_scores (p : Player) : M Player :=
  e ← evaluate_hand (hand p);
  let hs := ev_score e in
  let facedown_score := foldl (λ t s, t + score s) 0 (facedown_sets p) in
  let melded_score := foldl (λ t s, t + score s) 0 (melded_sets p) in
  mret {| name := name p; field_discards := field_discards p;
          field_melded_sets := field_melded_sets p;
          total_score := hs + facedown_score + melded_score;
          hand := ev_cards e; hand_sets := hand_sets p; hand_score := hs;
          facedown_sets := facedown_sets p; facedown_score := facedown_score;
          melded_sets := melded_sets p; melded_score := melded_score;
          lang_pai := lang_pai p; collection := collection p |}.

(** The two places of [separate_facedown_sets] that put a set face down. *)
Definition place_facedown (p : Player) (s : CardSet) : res Player :=
  let p := with_facedown p (facedown_sets p ++ [s]) (facedown_score p) in
  h ← remove_cards (set_cards s) (hand p);
  let p := with_hand p h in
  mret (with_facedown p (facedown_sets p) (facedown_score p + score s)).

Definition separate_facedown_sets (p : Player) : M Player :=
  e ← evaluate_hand (hand p);
  let p := with_hand p (ev_cards e) in
  for_in (ev_sets e) (λ s p,
    same_suit ← (if bool_decide (length (set_cards s) = 4%nat)
                 then lift (cards_same_suit (set_cards s)) else mret false);
    if (same_suit : bool) then
      if cards_unique_colours (set_cards s) then
        let th := hand p in
        th ← lift (remove_cards (set_cards s) th);
        if negb (hand_contains_suit th "chut") then lift (place_facedown p s)
        else mret p
      else
        same_colour ← lift (cards_same_colour (set_cards s));
        if (same_colour : bool) then lift (place_facedown p s) else mret p
    else mret p) p.

(** [give_cards(cards)]; [cards] is [None] when [draw_cards] gave nothing. *)
Definition give_cards (p : Player) (cards : option (list Card)) : M Player :=
  match cards with
  | None => raise TypeError
  | Some cards =>
      let h := foldl (λ h i, h ++ [i]) (hand p) cards in
      '(_, h) ← lift (sort_cards h "suit");
      p ← separate_facedown_sets (with_hand p h);
      evaluate_player_hand p
  end.

Definition can_win (p : Player) : bool :=
  bool_decide (length (lang_pai p) = 0%nat) && bool_decide (9 ≤ total_score p).

Definition can_tok (p : Player) (hs : Z) (lp : list Card) : bool :=
  bool_decide (hs = hand_score p)
  && bool_decide (length lp < length (lang_pai p))%nat
  && bool_decide (0 < length (lang_pai p))%nat
  && bool_decide (9 ≤ total_score p).

(** [rs = choice(hand_sets); while len(rs.cards) == 1 or rs.score != ms:
    rs = choice(hand_sets)] *)
Fixpoint choose_lowest (fuel : nat) (hand_sets : list CardSet) (ms : Z) (rs : CardSet)
  : M CardSet :=
  if bool_decide (length (set_cards rs) = 1%nat) || negb (bool_decide (score rs = ms)) then
    match fuel with
    | O => λ _, Starved
    | S fuel => rs ← random_choice hand_sets; choose_lowest fuel hand_sets ms rs
    end
  else mret rs.

(** The three lines that end every successful branch of [discard_card]. *)
Definition discard_from (p : Player) (choices : list Card) : M (option Card * Player) :=
  dc ← random_choice choices;
  h ← lift (list_remove same_object dc (hand p));
  p ← evaluate_player_hand (with_hand p h);
  mret (Some dc, p).

Definition discard_card (p : Player) : M (option Card * Player) :=
  if bool_decide (0 < length (lang_pai p))%nat then discard_from p (lang_pai p)
  else if negb (can_win p) then
    let nks := exists_nks (hand_sets p) in
    if negb nks then mret (None, p)
    else
      match List.find (λ s, bool_decide (length (set_cards s) = 2%nat)) (hand_sets p) with
      | Some s => discard_from p (set_cards s)
      | None =>
        match List.find (λ s, bool_decide (length (set_cards s) = 3%nat)
                              && cards_all_suit (set_cards s) "chut") (hand_sets p) with
        | Some s => discard_from p (set_cards s)
        | None =>
            let ms := foldl (λ ms s,
                if bool_decide (1 < length (set_cards s))%nat && bool_decide (score s < ms)
                then score s else ms) 10 (hand_sets p) in
            rs ← random_choice (hand_sets p);
            w ← get_world;
            rs ← choose_lowest (length (rand w)) (hand_sets p) ms rs;
            discard_from p (set_cards rs)
        end
      end
  else mret (None, p).

(** What [play_turn] hands back besides the melded set: the winning call,
    a request for another card, or the card given up. *)
Inductive move := Kaeu | Draw | Discard (c : Card).

(** The loop of [play_turn] over the found sets, moving every set that
    holds an active card to the melded sets. *)
Definition meld_sets (fs : list CardSet) (p : Player) (h : list Card)
  : res (Player * list Card * option CardSet) :=
  foldl (λ acc s,
    '(p, h, ms) ← acc;
    if melded s then
      let p := with_melded p (melded_sets p ++ [s]) (melded_score p + score s) in
      h ← remove_cards (set_cards s) h;
      mret (p, h, Some s)
    else mret (p, h, ms)) (Ok (p, h, None)) fs.

(** [play_turn(active_card, drawn, return_set)].  The second component is
    the set handed back when [return_set] is true; with [return_set] false
    the caller receives the move alone. *)
Definition play_turn (p : Player) (active_card : option Card) (drawn : bool)
  : M (Player * option CardSet * move) :=
  let old_hand := hand p in
  let h := hand p in
  match active_card with
  | None => raise AttributeError
  | Some active_card =>
    let h := h ++ [active_card] in
    e ← evaluate_hand h;
    let '(h, fs, hs, lp) := (ev_cards e, ev_sets e, ev_score e, ev_loose e) in
    if bool_decide (hand_score p < hs) || can_tok p hs lp then
      '(p, h, ms) ← lift (meld_sets fs p h);
      p ← evaluate_player_hand (with_hand p h);
      if can_win p then mret (p, ms, Kaeu)
      else
        '(dc, p) ← discard_card p;
        match dc with
        | None =>
            match ms with
            | None => raise ValueError
            | Some s =>
                ml ← lift (list_remove same_set s (melded_sets p));
                let p := with_melded p ml (melded_score p - score s) in
                p ← evaluate_player_hand (with_hand p old_hand);
                if drawn then mret (p, None, Discard active_card)
                else mret (p, None, Draw)
            end
        | Some dc =>
            _ ← set_active dc;
            mret (p, ms, Discard dc)
        end
    else if drawn then mret (p, None, Discard active_card)
    else mret (p, None, Draw)
  end.

Definition check_meld (p : Player) (active_card : option Card) : M (option CardSet) :=
  match active_card with
  | None => raise AttributeError
  | Some active_card =>
    let h := hand p ++ [active_card] in
    e ← evaluate_hand h;
    let '(fs, hs, lp) := (ev_sets e, ev_score e, ev_loose e) in
    match List.find melded fs with
    | None => mret None
    | Some ms =>
        fs ← lift (list_remove same_set ms fs);
        if (bool_decide (0 < length lp)%nat || exists_nks fs)
           && bool_decide (hand_score p < hs)
        then mret (Some ms) else mret None
    end
  end.

Definition update_field_info (p : Player) (dcards : list Card) (msets : list CardSet)
  : Player :=
  {| name := name p; field_discards := dcards; field_melded_sets := msets;
     total_score := total_score p; hand := hand p; hand_sets := hand_sets p;
     hand_score := hand_score p; facedown_sets := facedown_sets p;
     facedown_score := facedown_score p; melded_sets := melded_sets p;
     melded_score := melded_score p; lang_pai := lang_pai p;
     collection := collection p |}.

(** ** The game *)

(** The module-level variables of [game.py]. *)
Record Game := mkGame {
  deck : Deck;
  players : list Player;
  current_player : nat;
  active_card : option Card;
  discards : list Card;
  faceup_sets : list CardSet;
  turn_count : Z;
  enable_oot : bool;
  verbose : bool
}.

(** [l[i]] *)
Definition item {A} (l : list A) (i : nat) : res A :=
  match l !! i with
  | Some a => Ok a
  | None => Raise IndexError
  end.

(** [a % n] for non-negative [a] *)
Definition py_mod (a n : nat) : res nat :=
  if bool_decide (n = 0%nat) then Raise ZeroDivisionError else Ok (a mod n)%nat.

(** [setup_game(agents)]; [enable_oot] and [verbose] are the values
    [play_game] has assigned before the call. *)
Definition setup_game (enable_oot verbose : bool) (agents : list Player) : M Game :=
  let active_card := None in
  let turn_count := 0 in
  let discards := [] in
  let faceup_sets := [] in
  let players := agents in
  deck ← construct_deck (Z.of_nat (length players));
  fp ← random_choice (seq 0 (length players));
  let current_player := fp in
  '(deck, players) ← for_in (seq 0 (length players)) (λ i '(deck, players),
      p ← lift (item players i);
      '(cs, deck) ← draw_cards deck 20 false;
      p ← give_cards p cs;
      mret (deck, <[i := p]> players)) (deck, players);
  p ← lift (item players fp);
  '(cs, deck) ← draw_cards deck 1 false;
  p ← give_cards p cs;
  let players := <[fp := p]> players in
  mret {| deck := deck; players := players; current_player := current_player;
          active_card := active_card; discards := discards;
          faceup_sets := faceup_sets; turn_count := turn_count;
          enable_oot := enable_oot; verbose := verbose |}.

Inductive oot_result := Meld | OutOfTurn.

(** One of the two scanning loops of [check_oot], for identical sets of
    [size] cards.  [inl (r, current_player)] when the loop returns [r];
    [inr cp] when it runs to its end. *)
Fixpoint scan_identical (iterations size : nat) (oot_sets : list (option CardSet))
    (nplayers current_player cp : nat) : res (oot_result * nat + nat) :=
  match iterations with
  | O => Ok (inr cp)
  | S iterations =>
      s ← item oot_sets cp;
      hit ← match s with
            | None => Ok false
            | Some s =>
                b ← is_identical_set s;
                mret ((b : bool) && bool_decide (length (set_cards s) = size))
            end;
      if (hit : bool) then
        next ← py_mod (current_player + 1) nplayers;
        if bool_decide (cp = next) then mret (inl (Meld, current_player))
        else mret (inl (OutOfTurn, cp))
      else
        cp ← py_mod (cp + 1) nplayers;
        scan_identical iterations size oot_sets nplayers current_player cp
  end.

(** [check_oot] once the melds of all players are known. *)
Definition resolve_oot (oot_sets : list (option CardSet)) (nplayers current_player : nat)
  : res (oot_result * nat) :=
  let cp := current_player in
  r ← scan_identical nplayers 4 oot_sets nplayers current_player cp;
  match r with
  | inl x => mret x
  | inr cp =>
      s ← item oot_sets cp;
      four_colour ← match s with
                    | None => Ok false
                    | Some s => is_four_colour_set s
                    end;
      if (four_colour : bool) then mret (Meld, current_player)
      else
        r ← scan_identical nplayers 3 oot_sets nplayers current_player cp;
        match r with
        | inl x => mret x
        | inr _ => mret (Meld, current_player)
        end
  end.

Definition with_current_player (g : Game) (cp : nat) : Game :=
  {| deck := deck g; players := players g; current_player := cp;
     active_card := active_card g; discards := discards g;
     faceup_sets := faceup_sets g; turn_count := turn_count g;
     enable_oot := enable_oot g; verbose := verbose g |}.

Definition with_players (g : Game) (ps : list Player) : Game :=
  {| deck := deck g; players := ps; current_player := current_player g;
     active_card := active_card g; discards := discards g;
     faceup_sets := faceup_sets g; turn_count := turn_count g;
     enable_oot := enable_oot g; verbose := verbose g |}.

Definition with_deck (g : Game) (d : Deck) : Game :=
  {| deck := d; players := players g; current_player := current_player g;
     active_card := active_card g; discards := discards g;
     faceup_sets := faceup_sets g; turn_count := turn_count g;
     enable_oot := enable_oot g; verbose := verbose g |}.

Definition with_active_card (g : Game) (c : option Card) : Game :=
  {| deck := deck g; players := players g; current_player := current_player g;
     active_card := c; discards := discards g;
     faceup_sets := faceup_sets g; turn_count := turn_count g;
     enable_oot := enable_oot g; verbose := verbose g |}.

Definition with_discards (g : Game) (ds : list Card) : Game :=
  {| deck := deck g; players := players g; current_player := current_player g;
     active_card := active_card g; discards := ds;
     faceup_sets := faceup_sets g; turn_count := turn_count g;
     enable_oot := enable_oot g; verbose := verbose g |}.

Definition with_faceup_sets (g : Game) (fs : list CardSet) : Game :=
  {| deck := deck g; players := players g; current_player := current_player g;
     active_card := active_card g; discards := discards g;
     faceup_sets := fs; turn_count := turn_count g;
     enable_oot := enable_oot g; verbose := verbose g |}.

Definition with_turn_count (g : Game) (n : Z) : Game :=
  {| deck := deck g; players := players g; current_player := current_player g;
     active_card := active_card g; discards := discards g;
     faceup_sets := faceup_sets g; turn_count := n;
     enable_oot := enable_oot g; verbose := verbose g |}.

(** [check_oot(drawn)] *)
Definition check_oot (g : Game) (drawn : bool) : M (oot_result * Game) :=
  oot_sets ← for_in (players g) (λ p oot_sets,
      s ← check_meld p (active_card g); mret (oot_sets ++ [s])) [];
  '(r, cp) ← lift (resolve_oot oot_sets (length (players g)) (current_player g));
  mret (r, with_current_player g cp).

Inductive outcome := Next | Exit | Oot | Win.

(** The part of [conduct_turn] that turns the discards into the new deck;
    [None] when the step ends with ['exit']. *)
Definition replenish_deck (g : Game) : M (option Game) :=
  if bool_decide (length (cards (deck g)) = 0%nat) then
    if bool_decide (length (discards g) = 0%nat) then mret None
    else
      let d := {| ndecks := ndecks (deck g);
                  cards := foldl (λ cs c, cs ++ [c]) (cards (deck g)) (discards g) |} in
      d ← shuffle_deck d;
      mret (Some (with_deck g d))
  else mret (Some g).

(** [players[current_player].play_turn(active_card, drawn, return_set=True)];
    the player object is updated in place. *)
Definition current_plays (g : Game) (drawn : bool) : M (Game * option CardSet * move) :=
  p ← lift (item (players g) (current_player g));
  '(p, ms, x) ← play_turn p (active_card g) drawn;
  mret (with_players g (<[current_player g := p]> (players g)), ms, x).

(** [active_card = deck.draw_active_card()] *)
Definition draw_active (g : Game) : M Game :=
  '(c, d) ← draw_active_card (deck g) false;
  mret (with_active_card (with_deck g d) c).

(** The out-of-turn check that follows a new active card. *)
Definition oot_check (g : Game) (oot_turn drawn : bool) : M (oot_result * Game) :=
  if negb oot_turn && enable_oot g then check_oot g drawn else mret (Meld, g).

(** The end of [conduct_turn], from the point where the player has given
    up the card [x]. *)
Definition finish_turn (g : Game) (oot_turn : bool) (ms : option CardSet) (x : move)
  : M (outcome * Game) :=
  let g := match ms with
           | Some s => with_faceup_sets g (faceup_sets g ++ [s])
           | None => g
           end in
  match x with
  | Discard x =>
      let g := with_active_card g (Some x) in
      let g := with_turn_count g (turn_count g + 1) in
      '(oot, g) ← oot_check g oot_turn false;
      match oot with
      | OutOfTurn => mret (Oot, g)
      | Meld =>
          next ← lift (py_mod (current_player g + 1) (length (players g)));
          mret (Next, with_current_player g next)
      end
  | _ => raise AttributeError
  end.

(** [conduct_turn(oot_turn)] *)
Definition conduct_turn (g : Game) (oot_turn : bool) : M (outcome * Game) :=
  let g := with_players g
             ((λ p, update_field_info p (discards g) (faceup_sets g)) <$> players g) in
  p ← lift (item (players g) (current_player g));
  if bool_decide (length (collection p) = 21%nat)
     && bool_decide (active_card g = None) then
    '(dc, p) ← discard_card p;
    let g := with_players g (<[current_player g := p]> (players g)) in
    match dc with
    | None => raise AttributeError
    | Some c =>
        let g := with_active_card g (Some c) in
        _ ← set_active c;
        next ← lift (py_mod (current_player g + 1) (length (players g)));
        mret (Next, with_current_player g next)
    end
  else
    r ← replenish_deck g;
    match r with
    | None => mret (Exit, g)
    | Some g =>
        g ← (if bool_decide (active_card g = None) then draw_active g else mret g);
        '(g, ms, x) ← current_plays g (if oot_turn then true else false);
        match x with
        | Draw =>
            let g := match active_card g with
                     | Some c => with_discards g (discards g ++ [c])
                     | None => g
                     end in
            g ← draw_active g;
            '(oot, g) ← oot_check g oot_turn true;
            match oot with
            | OutOfTurn => mret (Oot, g)
            | Meld =>
                '(g, ms, x) ← current_plays g true;
                match x with
                | Kaeu => mret (Win, g)
                | _ => finish_turn g oot_turn ms x
                end
            end
        | Kaeu => mret (Win, g)
        | Discard _ => finish_turn g oot_turn ms x
        end
    end.

(** The body shared by the two loops of [play_game]: one call of
    [conduct_turn]; [None] when the loop is left by [break]. *)
Definition game_step (g : Game) (oot : bool) : M (Game * option bool) :=
  '(result, g) ← conduct_turn g (if oot then true else false);
  match result with
  | Win | Exit => mret (g, None)
  | Oot => mret (g, Some true)
  | Next => mret (g, Some false)
  end.

(** [for i in range(nturns)] of [play_game] *)
Fixpoint game_turns (nturns : nat) (g : Game) (oot : bool) : M Game :=
  match nturns with
  | O => mret g
  | S nturns =>
      '(g, continue) ← game_step g oot;
      match continue with
      | None => mret g
      | Some oot => game_turns nturns g oot
      end
  end.

(** [while True] of [play_game] *)
Fixpoint game_loop (fuel : nat) (g : Game) (oot : bool) : M Game :=
  match fuel with
  | O => λ _, Starved
  | S fuel =>
      '(g, continue) ← game_step g oot;
      match continue with
      | None => mret g
      | Some oot => game_loop fuel g oot
      end
  end.

(** [play_game(nplayers, agents, nturns, is_verbose, with_oot)]; the
    result is the module state at the end. *)
Definition play_game (fuel : nat) (nplayers : Z) (agents : list Player) (nturns : Z)
    (is_verbose with_oot : bool) : M Game :=
  let enable_oot := if bool_decide (2 < nplayers) then with_oot else false in
  let verbose := is_verbose in
  g ← (if bool_decide (0 < length agents)%nat then setup_game enable_oot verbose agents
       else setup_game enable_oot verbose
              ((λ i, Player_init ("Player " +:+ pretty i)) <$> range nplayers));
  let oot := false in
  if bool_decide (nturns < 1) then game_loop fuel g oot
  else game_turns (Z.to_nat nturns) g oot.

(** ** The statements of the specification *)




(** The conditions of the scoring table. *)
Definition all_equal (l : list string) : bool :=
  match l with
  | [] => true
  | x :: l' => forallb (λ y, bool_decide (y = x)) l'
  end.

Definition identical (cs : list Card) : bool :=
  all_equal (suit <$> cs) && all_equal (colour <$> cs).

Definition suit_is (s : string) (cs : list Card) : bool :=
  forallb (λ c, bool_decide (suit c = s)) cs.

Definition non_kuin (cs : list Card) : bool :=
  forallb (λ c, negb (bool_decide (suit c = "kuin"))) cs.

Definition colours_unique (cs : list Card) : bool :=
  bool_decide (NoDup (colour <$> cs)).

Definition one_colour (cs : list Card) : bool := all_equal (colour <$> cs).

Definition suits_are (suits : list string) (cs : list Card) : bool :=
  bool_decide (suit <$> cs ≡ₚ suits).

(** The scoring table of the specification: size, condition, and score
    (which may depend on whether the set is melded). *)
Definition score_table : list (nat * (list Card → bool) * (bool → Z)) :=
  [ (4%nat, λ cs, identical cs && non_kuin cs, λ melded : bool, if melded then 6 else 8);
    (3%nat, λ cs, identical cs && non_kuin cs, λ melded : bool, if melded then 1 else 3);
    (2%nat, λ cs, identical cs && non_kuin cs, λ _, 0);
    (4%nat, λ cs, suit_is "chut" cs && colours_unique cs, λ _, 4);
    (3%nat, λ cs, suit_is "chut" cs && colours_unique cs, λ _, 1);
    (3%nat, λ cs, one_colour cs && suits_are ["kuin"; "tse"; "xiong"]%string cs, λ _, 2);
    (3%nat, λ cs, one_colour cs && suits_are ["kee"; "mah"; "pau"]%string cs, λ _, 1);
    (1%nat, λ cs, suit_is "kuin" cs, λ _, 1) ].

(** First matching row wins; [-1] when no row matches. *)
Definition table_score (cs : list Card) (melded : bool) : Z :=
  match List.find (λ '(size, condition, _),
                     bool_decide (length cs = size) && condition cs) score_table with
  | Some (_, _, points) => points melded
  | None => -1
  end.

Global Arguments identical : simpl never.
Global Arguments non_kuin : simpl never.
Global Arguments suit_is : simpl never.
Global Arguments colours_unique : simpl never.
Global Arguments one_colour : simpl never.
Global Arguments suits_are : simpl never.

(** ** Invariants of the hand evaluator *)

(** The cards held by a list of sets, and their identities. *)
Definition cards_of (fs : list CardSet) : list Card := concat (set_cards <$> fs).
Definition set_ids (fs : list CardSet) : list nat := cid <$> cards_of fs.

(** Two worlds that differ in their locked cards only. *)
Definition same_but_locked (w0 w : World) : Prop :=
  next_id w = next_id w0 ∧ active w = active w0 ∧ rand w = rand w0.

(** [committed w0 cards fs]: the sets [fs] were committed one after the
    other, each one a set built from cards of [cards] that were all still
    unlocked: neither locked in [w0] nor part of a set committed before. *)
Inductive committed (w0 : World) (cards : list Card) : list CardSet → Prop :=
  | committed_nil : committed w0 cards []
  | committed_snoc fs s :
      committed w0 cards fs →
      sublist (set_cards s) cards →
      Set_init w0 (set_cards s) = Ok s →
      score s ≠ -1 →
      (∀ c, c ∈ set_cards s → (cid c ∉ locked w0) ∧ (cid c ∉ set_ids fs)) →
      committed w0 cards (fs ++ [s]).

(** The state of an evaluation of [cards] started in [w0]: the locked
    cards are those locked in [w0] and those of the sets found so far. *)
Record eval_inv (w0 : World) (cards : list Card) (found : list CardSet) (w : World)
  : Prop := mk_eval_inv {
  inv_world : same_but_locked w0 w;
  inv_locked : locked w = list_to_set (set_ids found) ∪ locked w0;
  inv_committed : committed w0 cards found
}.

(** The sets a tier may add: what the tier asks of a set before it
    commits it. *)
Definition four_identical (s : CardSet) : Prop :=
  length (set_cards s) = 4%nat ∧ score s ∈ [8; 6].
Definition four_colour (s : CardSet) : Prop :=
  length (set_cards s) = 4%nat ∧ score s = 4.
Definition three_identical (s : CardSet) : Prop :=
  length (set_cards s) = 3%nat ∧ score s ∈ [3; 1]
  ∧ same_suit s = true ∧ same_colour s = true.
Definition three_other (s : CardSet) : Prop :=
  length (set_cards s) = 3%nat ∧ score s ∈ [2; 1].
Definition lone_kuin (s : CardSet) : Prop :=
  ∃ c, set_cards s = [c] ∧ suit c = "kuin"%string ∧ score s = 1.
Definition pair (s : CardSet) : Prop :=
  length (set_cards s) = 2%nat ∧ score s = 0.

(** The invariant of one tier, started with the sets [found0]: the sets
    added since satisfy [P]. *)
Definition tier_inv (P : CardSet → Prop) (w0 : World) (cards : list Card)
    (found0 found : list CardSet) (w : World) : Prop :=
  eval_inv w0 cards found w ∧ ∃ new, found = found0 ++ new ∧ Forall P new.

(** The found sets come tier by tier, in the order of priority. *)
Definition in_tiers (fs : list CardSet) : Prop :=
  ∃ f1 f2 f3 f4 f5 f6,
    fs = f1 ++ f2 ++ f3 ++ f4 ++ f5 ++ f6
    ∧ Forall four_identical f1 ∧ Forall four_colour f2
    ∧ Forall three_identical f3 ∧ Forall three_other f4
    ∧ Forall lone_kuin f5 ∧ Forall pair f6.

(** A card is unused when it is neither locked nor part of a set. *)
Definition unused (w0 : World) (fs : list CardSet) (c : Card) : bool :=
  negb (bool_decide (cid c ∈ locked w0)) && negb (bool_decide (cid c ∈ set_ids fs)).

(** The window of four cards at index [j] cannot be committed by the
    first tier in [w]: it is no set of four identical cards, or one of
    its cards is locked. *)
Definition blocked (w0 w : World) (cards : list Card) (j : nat) : Prop :=
  ∀ s, Set_init w0 (slice cards j (j + 4)) = Ok s → score s ∈ [8; 6] →
       cards_not_locked w (slice cards j (j + 4)) = false.

(** ** Well-formed players *)

(** The fields of a player that [evaluate_player_hand] derives from the
    others are up to date, the hand is sorted and its cards are unlocked:
    evaluating the hand once more changes nothing.  Every method that
    changes the hand ends with [evaluate_player_hand], so a player is in
    this state between calls. *)
Definition in_sync (p : Player) (w : World) : Prop :=
  evaluate_player_hand p w = Ok (p, w).

(** Two players that agree on all fields [evaluate_player_hand] reads. *)
Definition same_base (p q : Player) : Prop :=
  name p = name q ∧ field_discards p = field_discards q
  ∧ field_melded_sets p = field_melded_sets q
  ∧ hand p = hand q
  ∧ facedown_sets p = facedown_sets q ∧ facedown_score p = facedown_score q
  ∧ melded_sets p = melded_sets q ∧ melded_score p = melded_score q.

(** ** The out-of-turn priority of the specification *)

(** The players in turn order, starting from the current player. *)
Definition scan_order (nplayers current : nat) : list nat :=
  (λ k, (current + k) mod nplayers)%nat <$> seq 0 nplayers.

(** The meld a player can claim is a set of [size] identical cards. *)
Definition claims_identical (size : nat) (meld : option CardSet) : bool :=
  match meld with
  | Some s => identical (set_cards s) && bool_decide (length (set_cards s) = size)
  | None => false
  end.

(** The meld a player can claim is a chut in four colours. *)
Definition claims_four_colour (meld : option CardSet) : bool :=
  match meld with
  | Some s => bool_decide (length (set_cards s) = 4%nat)
              && suit_is "chut" (set_cards s) && colours_unique (set_cards s)
  | None => false
  end.

(** The first player in turn order, from the current player on, whose
    meld is a set of [size] identical cards. *)
Definition first_claimant (size : nat) (melds : list (option CardSet))
    (nplayers current : nat) : option nat :=
  List.find (λ i, claims_identical size (melds !!! i)) (scan_order nplayers current).

(** Priority goes to the first claimant unless that is the next player
    in sequence. *)
Definition give_priority (nplayers current claimant : nat) : oot_result * nat :=
  if bool_decide (claimant = (current + 1) mod nplayers)%nat then (Meld, current)
  else (OutOfTurn, claimant).

(** The outcome of the out-of-turn check and the player whose turn it is
    afterwards: four identical cards first, then a four-colour chut of
    the current player, then three identical cards. *)
Definition oot_priority (melds : list (option CardSet)) (nplayers current : nat)
  : oot_result * nat :=
  match first_claimant 4 melds nplayers current with
  | Some q => give_priority nplayers current q
  | None =>
      if claims_four_colour (melds !!! current) then (Meld, current)
      else
        match first_claimant 3 melds nplayers current with
        | Some q => give_priority nplayers current q
        | None => (Meld, current)
        end
  end.

(** The sets [check_meld] proposes for the players, who are asked one
    after the other about the active card [ac]. *)
Fixpoint melds_of (players : list Player) (ac : Card) : M (list (option CardSet)) :=
  match players with
  | [] => mret []
  | p :: players' =>
      meld ← check_meld p (Some ac);
      melds ← melds_of players' ac;
      mret (meld :: melds)
  end.

(** ** Card conservation *)

(** The cards a player holds: hand, face-down sets and melded sets. *)
Definition player_cards (p : Player) : list Card :=
  hand p ++ cards_of (facedown_sets p) ++ cards_of (melded_sets p).

(** All the cards of a game state: the deck, the discard pile, the cards
    of every player, and the active card on the table. *)
Definition all_cards (g : Game) : list Card :=
  cards (deck g) ++ discards g ++ concat (player_cards <$> players g)
  ++ match active_card g with Some c => [c] | None => [] end.

(** ** A game that exhausts its deck

    One player; the shuffle that reverses the new deck deals all sixteen
    kuin, four red tse and a yellow tse.  The red tse go face down, the
    yellow tse is given up to start the game, and from then on no card
    drawn can be melded with sixteen kuin: every turn moves one card from
    the deck to the discard pile. *)
Definition reversing_shuffle : list nat :=
  (λ i, if bool_decide (56 ≤ i)%nat then (111 - i)%nat else i) <$> reverse (seq 1 111).

Definition exhausting_world : World :=
  {| next_id := 0; active := ∅; locked := ∅;
     rand := reversing_shuffle ++ [0; 0]%nat ++ repeat 0%nat 90 |}.

(** What a run says about its cards: how many cards the state holds in
    all, in the deck and in the discard pile, and whether they are all
    distinct. *)
Definition card_report (r : res (Game * World)) : option (nat * nat * nat * bool) :=
  match r with
  | Ok (g, _) => Some (length (all_cards g), length (cards (deck g)),
                       length (discards g), bool_decide (NoDup (cid <$> all_cards g)))
  | _ => None
  end.

(** The same after [turns] steps from the state [r0] that the deal
    produced. *)
Definition turns_report (r0 : res (Game * World)) (turns : nat)
    : option (nat * nat * nat * bool) :=
  match r0 with
  | Ok (g0, w0) => card_report (game_turns turns g0 false w0)
  | _ => None
  end.

(** The step taken after [turns] steps from [r0]: the sizes of the deck
    and of the discard pile before the step, its outcome, the sizes after
    the step, and whether the discard pile still starts with all the
    cards it held before. *)
Definition replenishment_report (r0 : res (Game * World)) (turns : nat)
    : option (nat * nat * outcome * nat * nat * bool) :=
  match r0 with
  | Ok (g0, w0) =>
      match game_turns turns g0 false w0 with
      | Ok (g, w) =>
          match conduct_turn g false w with
          | Ok ((r, g'), _) =>
              Some (length (cards (deck g)), length (discards g), r,
                    length (cards (deck g')), length (discards g'),
                    bool_decide (take (length (discards g)) (discards g') = discards g))
          | _ => None
          end
      | _ => None
      end
  | _ => None
  end.

(** ** Fresh decks *)

(** The kind of a card, and the 28 kinds in the order in which
    [populate_deck] builds them. *)
Definition kind (c : Card) : string * string := (suit c, colour c).

Definition kinds : list (string * string) :=
  s ← validSuits; c ← validColours; [(s, c)].

Definition kind_rank (k : string * string) : Z :=
  match calculate_rank k.2 k.1 with Ok r => r | _ => 100 end.

(** [freshly_built w ks cs w']: since [w], a throw-away card and then the
    cards [cs], of the kinds [ks], were built one after the other, which
    led to [w']. *)
Definition freshly_built (w : World) (ks : list (string * string)) (cs : list Card)
    (w' : World) : Prop :=
  kind <$> cs = ks
  ∧ Forall (λ c, rank c = kind_rank (kind c)) cs
  ∧ cid <$> cs = seq (S (next_id w)) (length ks)
  ∧ next_id w' = (S (next_id w) + length ks)%nat
  ∧ rand w' = rand w
  ∧ (∀ i, i ∈ active w' ↔ i ∈ active w ∧ (i < next_id w ∨ next_id w' ≤ i)%nat)
  ∧ (∀ i, i ∈ locked w' ↔ i ∈ locked w ∧ (i < next_id w ∨ next_id w' ≤ i)%nat).

(** ** Dealing *)

(** The body of the loop of [separate_facedown_sets], for one set. *)
Definition facedown_step (s : CardSet) (p : Player) : M Player :=
  same_suit ← (if bool_decide (length (set_cards s) = 4%nat)
               then lift (cards_same_suit (set_cards s)) else mret false);
  if (same_suit : bool) then
    if cards_unique_colours (set_cards s) then
      let th := hand p in
      th ← lift (remove_cards (set_cards s) th);
      if negb (hand_contains_suit th "chut") then lift (place_facedown p s)
      else mret p
    else
      same_colour ← lift (cards_same_colour (set_cards s));
      if (same_colour : bool) then lift (place_facedown p s) else mret p
  else mret p.

(** ** Steps of the game *)

(** What no part of a turn changes but its very end: the number of
    players, the two switches, the count of turns and the player whose
    turn it is. *)
Definition same_table (g g' : Game) : Prop :=
  length (players g') = length (players g)
  ∧ enable_oot g' = enable_oot g ∧ verbose g' = verbose g
  ∧ turn_count g' = turn_count g ∧ current_player g' = current_player g.

(** ** Sample cards, players and games

    Concrete objects at which the general statements are instantiated. *)
Definition tse (i : nat) : Card :=
  {| cid := i; colour := "red"; suit := "tse"; rank := 4 |}.

Definition kee (i : nat) : Card :=
  {| cid := i; colour := "yellow"; suit := "kee"; rank := 13 |}.

(** A player holding a pair of red tse, about to be offered a third. *)
Definition rollback_world : World :=
  {| next_id := 4; active := {[ 3%nat ]}; locked := ∅; rand := [] |}.

Definition rollback_pair : CardSet :=
  {| set_cards := [tse 1; tse 2]; melded := false; invalid := false;
     same_colour := true; same_suit := true; unique_colours := false; score := 0 |}.

Definition rollback_player : Player :=
  {| name := "Player 0"; field_discards := []; field_melded_sets := []; total_score := 0;
     hand := [tse 1; tse 2]; hand_sets := [rollback_pair]; hand_score := 0;
     facedown_sets := []; facedown_score := 0; melded_sets := []; melded_score := 0;
     lang_pai := []; collection := [tse 1; tse 2] |}.

(** Three players; it is the turn of the first, and the third holds three
    red tse and a loose card when a fourth red tse becomes active. *)
Definition oot_world : World :=
  {| next_id := 6; active := {[ 4%nat ]}; locked := ∅; rand := [] |}.

Definition oot_game : Game :=
  {| deck := {| ndecks := 1; cards := [] |};
     players := [Player_init "Player 0"; Player_init "Player 1";
                 with_hand (Player_init "Player 2") [tse 1; tse 2; tse 3; kee 5]];
     current_player := 0; active_card := Some (tse 4); discards := [];
     faceup_sets := []; turn_count := 0; enable_oot := true; verbose := false |}.

(** * Proofs *)

(** ** The monad *)

Lemma bind_ok {A B} (m : M A) (k : A → M B) w a w' :
  m w = Ok (a, w') → (m ≫= k) w = k a w'.
Proof. intros H. unfold mbind, M_bind. by rewrite H. Qed.

Lemma bind_inv {A B} (m : M A) (k : A → M B) w b w' :
  (m ≫= k) w = Ok (b, w') → ∃ a w1, m w = Ok (a, w1) ∧ k a w1 = Ok (b, w').
Proof.
  unfold mbind, M_bind. destruct (m w) as [[a w1]| |]; [|done..].
  intros H. by exists a, w1.
Qed.

Lemma mret_inv {A} (a b : A) (w w' : World) :
  (mret a : M A) w = Ok (b, w') → a = b ∧ w = w'.
Proof. unfold mret, M_ret. by intros [= -> ->]. Qed.

Lemma lift_inv {A} (r : res A) w a w' : lift r w = Ok (a, w') → r = Ok a ∧ w' = w.
Proof. destruct r; simpl; intros; by simplify_eq. Qed.

Lemma res_bind_inv {A B} (m : res A) (k : A → res B) b :
  m ≫= k = Ok b → ∃ a, m = Ok a ∧ k a = Ok b.
Proof. destruct m; simpl; [|done..]. intros. by eexists. Qed.

(** A loop invariant for [for_in]: [I k s w] holds before the iteration
    on the item of index [k]. *)
Lemma for_in_inv {X S} (I : nat → S → World → Prop) (l : list X) body s w :
  I 0%nat s w →
  (∀ k x s w, l !! k = Some x → I k s w →
     ∃ s' w', body x s w = Ok (s', w') ∧ I (Datatypes.S k) s' w') →
  ∃ s' w', for_in l body s w = Ok (s', w') ∧ I (length l) s' w'.
Proof.
  revert I s w. induction l as [|x l IH]; intros I s w H0 Hstep.
  - by exists s, w.
  - destruct (Hstep 0%nat x s w eq_refl H0) as (s1 & w1 & Hb & H1).
    destruct (IH (λ k, I (Datatypes.S k)) s1 w1 H1) as (s2 & w2 & Hl & H2).
    { intros k y s' w' Hk. by apply Hstep. }
    exists s2, w2. split; [|done]. simpl. by rewrite (bind_ok _ _ _ _ _ Hb).
Qed.

(** The same invariant, for a loop known to have ended. *)
Lemma for_in_inv_ok {X S} (I : nat → S → World → Prop) (l : list X) body s w s' w' :
  for_in l body s w = Ok (s', w') →
  I 0%nat s w →
  (∀ k x s w s' w', l !! k = Some x → I k s w → body x s w = Ok (s', w') →
     I (Datatypes.S k) s' w') →
  I (length l) s' w'.
Proof.
  revert I s w. induction l as [|x l IH]; intros I s w Hrun H0 Hstep.
  - simpl in Hrun. unfold mret, M_ret in Hrun. by simplify_eq.
  - simpl in Hrun. apply bind_inv in Hrun as (s1 & w1 & Hb & Hl).
    apply (IH (λ k, I (Datatypes.S k)) s1 w1 Hl).
    + by apply (Hstep 0%nat x s w).
    + intros k y s2 w2 s3 w3 Hk. by apply Hstep.
Qed.

(** ** Cards and decks *)


Lemma Card_init_invalid colour suit act w :
  py_in colour validColours && py_in suit validSuits = false →
  Card_init colour suit act w =
    Ok ({| cid := next_id w; colour := "invalid"; suit := "invalid"; rank := 100 |},
        {| next_id := S (next_id w); active := set_flag act (next_id w) (active w);
           locked := set_flag false (next_id w) (locked w); rand := rand w |}).
Proof.
  intros H. unfold Card_init. destruct colour as [c|], suit as [s|]; try done.
  by rewrite H.
Qed.

(** C9, as the specification states it, fails: a card asked for in a colour
    that does not exist is built without any error. *)
Lemma Card_init_invalid_no_error :
  ¬ (∀ colour suit act w,
       py_in colour validColours && py_in suit validSuits = false →
       ∃ e, Card_init colour suit act w = Raise e).
Proof.
  intros H.
  destruct (H (Some "blue"%string) (Some "kuin"%string) false
              {| next_id := 0; active := ∅; locked := ∅; rand := [] |} eq_refl)
    as [e He].
  discriminate He.
Qed.

(** C9 (amended): constructing a Card with a colour outside the four valid
    colours or a suit outside the seven valid suits raises no error; it
    yields a new card whose colour and suit are ['invalid'] and whose rank
    is 100, with the requested [active] flag and [locked] false. *)
Theorem Card_init_sentinel (colour_ suit_ : option string) act w :
  py_in colour_ validColours && py_in suit_ validSuits = false →
  ∃ c w', Card_init colour_ suit_ act w = Ok (c, w')
    ∧ colour c = "invalid"%string ∧ suit c = "invalid"%string
    ∧ rank c = 100
    ∧ is_active w' c = act ∧ is_locked w' c = false.
Proof.
  intros H. rewrite (Card_init_invalid _ _ _ _ H).
  eexists _, _. split; [done|]. repeat split; simpl.
  - unfold is_active, set_flag; simpl. destruct act.
    + apply bool_decide_eq_true_2. set_solver.
    + apply bool_decide_eq_false_2. set_solver.
  - unfold is_locked, set_flag; simpl. apply bool_decide_eq_false_2. set_solver.
Qed.

Lemma Card_init_sentinel_witness :
  ∃ c w', Card_init (Some "red"%string) (Some "joker"%string) true
            {| next_id := 7; active := ∅; locked := ∅; rand := [] |} = Ok (c, w')
    ∧ colour c = "invalid"%string ∧ suit c = "invalid"%string ∧ rank c = 100
    ∧ is_active w' c = true ∧ is_locked w' c = false.
Proof. apply Card_init_sentinel. reflexivity. Defined.

Lemma pop_snoc {A} (l : list A) a : pop (l ++ [a]) = Ok (a, l).
Proof. unfold pop. by rewrite last_snoc, removelast_last. Qed.

(** The loop of [draw_cards] moves the last [length l] cards of the deck,
    topmost first. *)
Lemma pop_loop {X} (l : list X) (dcards cs : list Card) w :
  (length l ≤ length cs)%nat →
  for_in l (λ _ '(dcards, cs), '(c, cs') ← lift (pop cs); mret (dcards ++ [c], cs'))
    (dcards, cs) w
  = Ok ((dcards ++ reverse (drop (length cs - length l) cs),
         take (length cs - length l) cs), w).
Proof.
  revert dcards cs. induction l as [|x l IH]; intros dcards cs Hlen; simpl in *.
  - rewrite Nat.sub_0_r, drop_all, take_ge by lia. by rewrite app_nil_r.
  - destruct cs as [|c0 cs0] using rev_ind; [simpl in Hlen; lia|]. clear IHcs0.
    rewrite length_app in *. simpl in *.
    erewrite bind_ok; last first.
    { unfold mbind, M_bind, lift. rewrite pop_snoc. reflexivity. }
    rewrite IH by lia.
    replace (length cs0 + 1 - S (length l))%nat with (length cs0 - length l)%nat by lia.
    rewrite drop_app_le, take_app_le by lia.
    rewrite reverse_app. simpl. by rewrite <- app_assoc.
Qed.

(** C10: with [ncards ≥ 1] and no shuffling, [draw_cards] gives [None] and
    leaves the deck as it is whenever the deck holds [ncards] cards or
    fewer (so also when it holds exactly [ncards]); otherwise it gives the
    last [ncards] cards of the deck, topmost first, and the deck keeps the
    others. *)
Theorem draw_cards_spec (d : Deck) (ncards : Z) (w : World) :
  1 ≤ ncards →
  (Z.of_nat (length (cards d)) ≤ ncards →
     draw_cards d ncards false w = Ok ((None, d), w))
  ∧ (ncards < Z.of_nat (length (cards d)) →
     let rest := (length (cards d) - Z.to_nat ncards)%nat in
     draw_cards d ncards false w
     = Ok ((Some (reverse (drop rest (cards d))),
            {| ndecks := ndecks d; cards := take rest (cards d) |}), w)
     ∧ length (drop rest (cards d)) = Z.to_nat ncards).
Proof.
  intros Hn. split; intros Hlen; unfold draw_cards.
  - erewrite bind_ok; [|reflexivity].
    by rewrite bool_decide_eq_true_2 by lia.
  - simpl. erewrite bind_ok; [|reflexivity].
    rewrite bool_decide_eq_false_2 by lia.
    split; [|rewrite length_drop; lia].
    erewrite bind_ok; last first.
    { unfold range. rewrite pop_loop by (rewrite length_seq; lia).
      rewrite length_seq. reflexivity. }
    done.
Qed.

Lemma draw_cards_spec_witness :
  let c i := {| cid := i; colour := "red"; suit := "tse"; rank := 4 |} in
  let d := {| ndecks := 1; cards := [c 1; c 2; c 3]%nat |} in
  let w := {| next_id := 4; active := ∅; locked := ∅; rand := [] |} in
  (Z.of_nat (length (cards d)) ≤ 3 → draw_cards d 3 false w = Ok ((None, d), w))
  ∧ (3 < Z.of_nat (length (cards d)) →
     let rest := (length (cards d) - Z.to_nat 3)%nat in
     draw_cards d 3 false w
     = Ok ((Some (reverse (drop rest (cards d))),
            {| ndecks := ndecks d; cards := take rest (cards d) |}), w)
     ∧ length (drop rest (cards d)) = Z.to_nat 3).
Proof. intros c d w. apply (draw_cards_spec d 3 w). lia. Defined.

(** *** Shuffling *)

Lemma random_interval_ok n w r rs :
  rand w = r :: rs →
  random_interval n w
  = Ok ((r mod S n)%nat,
        {| next_id := next_id w; active := active w; locked := locked w; rand := rs |}).
Proof. intros H. unfold random_interval. by rewrite H. Qed.

Lemma delete_insert_same {A} (l : list A) i x : delete i (<[i:=x]> l) = delete i l.
Proof.
  revert i. induction l as [|y l IH]; intros [|i]; simpl; try done.
  by rewrite IH.
Qed.

Lemma swap_length {A} i j (x : list A) : length (swap i j x) = length x.
Proof.
  unfold swap. destruct (x !! i), (x !! j); try done.
  by rewrite !length_insert.
Qed.

Lemma swap_Permutation {A} i j (x : list A) : swap i j x ≡ₚ x.
Proof.
  unfold swap. destruct (x !! i) as [a|] eqn:Hi, (x !! j) as [b|] eqn:Hj; try done.
  destruct (decide (i = j)) as [->|Hne].
  { simplify_eq. by rewrite !list_insert_id by (try rewrite list_insert_id; done). }
  assert (Hyj : <[i:=b]> x !! j = Some b) by (by rewrite list_lookup_insert_ne).
  assert (Hyi : <[i:=b]> x !! i = Some b).
  { apply list_lookup_insert_eq. by eapply lookup_lt_Some. }
  assert (Hzj : <[j:=a]> (<[i:=b]> x) !! j = Some a).
  { apply list_lookup_insert_eq. by eapply lookup_lt_Some. }
  pose proof (delete_Permutation _ _ _ Hi) as Hx.
  pose proof (delete_Permutation _ _ _ Hyi) as Hy1. rewrite delete_insert_same in Hy1.
  pose proof (delete_Permutation _ _ _ Hyj) as Hy2.
  pose proof (delete_Permutation _ _ _ Hzj) as Hz. rewrite delete_insert_same in Hz.
  assert (delete i x ≡ₚ delete j (<[i:=b]> x)) as Hd.
  { apply (Permutation_cons_inv (a:=b)). etrans; [symmetry; exact Hy1 | exact Hy2]. }
  etrans; [exact Hz|]. etrans; [|symmetry; exact Hx]. by rewrite Hd.
Qed.

(** Shuffling draws [i] outcomes, permutes the list and touches nothing
    else. *)
Lemma shuffle_from_ok {A} (i : nat) (x : list A) w :
  (i ≤ length (rand w))%nat →
  ∃ x', shuffle_from i x w
        = Ok (x', {| next_id := next_id w; active := active w; locked := locked w;
                     rand := drop i (rand w) |})
        ∧ x' ≡ₚ x.
Proof.
  revert x w. induction i as [|i IH]; intros x w Hlen.
  - exists x. split; [|done]. simpl. by destruct w.
  - destruct (rand w) as [|r rs] eqn:Hr; [simpl in Hlen; lia|].
    simpl. erewrite bind_ok; [|by apply random_interval_ok].
    edestruct (IH (swap (S i) (r mod S (S i)) x)) as (x' & -> & Hp).
    { simpl in *. lia. }
    exists x'. split; [done|]. by rewrite Hp, swap_Permutation.
Qed.

Lemma random_shuffle_ok {A} (x : list A) w :
  (length x - 1 ≤ length (rand w))%nat →
  ∃ x', random_shuffle x w
        = Ok (x', {| next_id := next_id w; active := active w; locked := locked w;
                     rand := drop (length x - 1) (rand w) |})
        ∧ x' ≡ₚ x.
Proof. apply shuffle_from_ok. Qed.

(** *** The size of a deck *)




(** The first player count at which the rounding shows: [(2 ^ 53 + 3) / 2]
    lies half way between two doubles and goes to the even one, one above
    the floor of the exact quotient. *)
Lemma int_truediv_2_rounds_up :
  ∃ x, int_truediv_2 (2 ^ 53 + 3) = Ok x
    ∧ math_floor x = 2 ^ 52 + 2
    ∧ (2 ^ 53 + 3) `div` 2 = 2 ^ 52 + 1.
Proof. eexists. repeat split; vm_compute; reflexivity. Qed.





(** ** Set scoring *)

Lemma insert_sorted_Permutation {A} (le : A → A → bool) x l :
  insert_sorted le x l ≡ₚ x :: l.
Proof.
  induction l as [|y l IH]; simpl; [done|].
  destruct (le x y); [done|]. rewrite IH. apply Permutation_swap.
Qed.

Lemma py_sort_Permutation {A} (le : A → A → bool) l : py_sort le l ≡ₚ l.
Proof.
  induction l as [|x l IH]; simpl; [done|].
  by rewrite insert_sorted_Permutation, IH.
Qed.

Lemma NoDup_fmap_inj_on {A B} (f : A → B) (l : list A) x y :
  NoDup (f <$> l) → x ∈ l → y ∈ l → f x = f y → x = y.
Proof.
  induction l as [|a l IH]; simpl; intros Hnd Hx Hy Hf.
  - by apply elem_of_nil in Hx.
  - apply NoDup_cons in Hnd as [Hnot Hnd].
    apply elem_of_cons in Hx as [->|Hx]; apply elem_of_cons in Hy as [->|Hy]; try done.
    + exfalso. apply Hnot. rewrite Hf. by apply list_elem_of_fmap_2.
    + exfalso. apply Hnot. rewrite <- Hf. by apply list_elem_of_fmap_2.
    + by apply IH.
Qed.

(** The source's test for unique colours skips a card compared with
    itself; on distinct cards it says that no colour occurs twice. *)
Lemma cards_unique_colours_NoDup (cs : list Card) :
  NoDup (cid <$> cs) → cards_unique_colours cs = colours_unique cs.
Proof.
  intros Hid. unfold cards_unique_colours, colours_unique, same_object.
  apply NoDup_fmap_1 in Hid as Hnd.
  destruct (bool_decide (NoDup (colour <$> cs))) eqn:Hc.
  - apply bool_decide_eq_true in Hc.
    apply Is_true_true_1, forallb_True, Forall_forall. intros i Hi.
    apply forallb_True, Forall_forall. intros j Hj.
    destruct (decide (cid i = cid j)) as [Heq|Hne].
    + by rewrite bool_decide_eq_true_2.
    + rewrite (bool_decide_eq_false_2 (cid i = cid j)) by done. simpl.
      apply negb_True. intros Hcol%bool_decide_unpack.
      apply Hne. f_equal. symmetry. by eapply (NoDup_fmap_inj_on colour).
  - apply bool_decide_eq_false in Hc.
    apply not_true_is_false. intros Hall. apply Hc.
    apply NoDup_fmap_2_strong; [|done].
    intros x y Hx Hy Hcol.
    apply Is_true_true_2, forallb_True in Hall.
    rewrite Forall_forall in Hall. specialize (Hall x Hx).
    apply forallb_True in Hall. rewrite Forall_forall in Hall. specialize (Hall y Hy).
    apply orb_True in Hall as [Hsame|Hdiff].
    + apply bool_decide_unpack in Hsame. by eapply (NoDup_fmap_inj_on cid).
    + apply negb_True in Hdiff. exfalso. apply Hdiff. by apply bool_decide_pack.
Qed.

(** A list of suits that sorts to a given triple of distinct suits is a
    rearrangement of the triple. *)
Lemma sorted_suits_triple (a b c : string) (l : list string) :
  NoDup [a; b; c] →
  (∀ x y z, [x; y; z] ≡ₚ [a; b; c] → sorted_suits [x; y; z] = sorted_suits [a; b; c]) →
  bool_decide (sorted_suits l = sorted_suits [a; b; c]) = bool_decide (l ≡ₚ [a; b; c]).
Proof.
  intros Hnd Hsix. apply bool_decide_ext. split.
  - intros Hs. rewrite <- (py_sort_Permutation String.leb l).
    unfold sorted_suits in Hs. rewrite Hs. apply py_sort_Permutation.
  - intros Hp. pose proof (Permutation_length Hp) as Hlen.
    destruct l as [|x [|y [|z [|]]]]; try done. by apply Hsix.
Qed.

Lemma Permutation_triple {A} (a b c x y z : A) :
  [x; y; z] ≡ₚ [a; b; c] →
  (x = a ∧ y = b ∧ z = c) ∨ (x = a ∧ y = c ∧ z = b) ∨ (x = b ∧ y = a ∧ z = c)
  ∨ (x = b ∧ y = c ∧ z = a) ∨ (x = c ∧ y = a ∧ z = b) ∨ (x = c ∧ y = b ∧ z = a).
Proof.
  intros Hp.
  assert (x ∈ [a; b; c]) as Hx by (rewrite <- Hp; set_solver).
  apply elem_of_cons in Hx as [->|Hx]; [|apply elem_of_cons in Hx as [->|Hx];
    [|apply elem_of_cons in Hx as [->|Hx]; [|by apply elem_of_nil in Hx]]].
  - apply Permutation_cons_inv in Hp.
    assert (y ∈ [b; c]) as Hy by (rewrite <- Hp; set_solver).
    apply elem_of_cons in Hy as [->|Hy].
    + apply Permutation_cons_inv, Permutation_singleton_l in Hp. naive_solver.
    + apply list_elem_of_singleton in Hy as ->.
      rewrite <- (Permutation_swap b c []) in Hp.
      apply Permutation_cons_inv, Permutation_singleton_l in Hp. naive_solver.
  - rewrite <- (Permutation_swap a b [c]) in Hp. apply Permutation_cons_inv in Hp.
    assert (y ∈ [a; c]) as Hy by (rewrite <- Hp; set_solver).
    apply elem_of_cons in Hy as [->|Hy].
    + apply Permutation_cons_inv, Permutation_singleton_l in Hp. naive_solver.
    + apply list_elem_of_singleton in Hy as ->.
      rewrite <- (Permutation_swap a c []) in Hp.
      apply Permutation_cons_inv, Permutation_singleton_l in Hp. naive_solver.
  - assert ([a; b; c] ≡ₚ [c; a; b]) as Hrot.
    { apply (Permutation_app_comm [a; b] [c]). }
    rewrite Hrot in Hp. apply Permutation_cons_inv in Hp.
    assert (y ∈ [a; b]) as Hy by (rewrite <- Hp; set_solver).
    apply elem_of_cons in Hy as [->|Hy].
    + apply Permutation_cons_inv, Permutation_singleton_l in Hp. naive_solver.
    + apply list_elem_of_singleton in Hy as ->.
      rewrite <- (Permutation_swap a b []) in Hp.
      apply Permutation_cons_inv, Permutation_singleton_l in Hp. naive_solver.
Qed.

Lemma sorted_suits_kuin_tse_xiong (l : list string) :
  bool_decide (sorted_suits l = sorted_suits ["kuin"; "tse"; "xiong"]%string)
  = bool_decide (l ≡ₚ ["kuin"; "tse"; "xiong"]%string).
Proof.
  apply sorted_suits_triple; [apply (bool_decide_unpack _); by vm_compute|].
  intros x y z Hp.
  apply Permutation_triple in Hp as [H|[H|[H|[H|[H|H]]]]];
    destruct H as (-> & -> & ->); reflexivity.
Qed.

Lemma sorted_suits_kee_mah_pau (l : list string) :
  bool_decide (sorted_suits l = sorted_suits ["kee"; "mah"; "pau"]%string)
  = bool_decide (l ≡ₚ ["kee"; "mah"; "pau"]%string).
Proof.
  apply sorted_suits_triple; [apply (bool_decide_unpack _); by vm_compute|].
  intros x y z Hp.
  apply Permutation_triple in Hp as [H|[H|[H|[H|[H|H]]]]];
    destruct H as (-> & -> & ->); reflexivity.
Qed.

Lemma forallb_fmap {A B} (f : B → bool) (g : A → B) l :
  forallb f (g <$> l) = forallb (λ x, f (g x)) l.
Proof. induction l as [|x l IH]; csimpl; [done|]. by rewrite IH. Qed.

Lemma same_suit_all_equal c0 rest :
  forallb (λ i, bool_decide (suit i = suit c0)) (c0 :: rest)
  = all_equal (suit <$> c0 :: rest).
Proof.
  rewrite fmap_cons. cbn [all_equal forallb].
  rewrite bool_decide_eq_true_2 by done. by rewrite forallb_fmap.
Qed.

Lemma same_colour_all_equal c0 rest :
  forallb (λ i, bool_decide (colour i = colour c0)) (c0 :: rest)
  = all_equal (colour <$> c0 :: rest).
Proof.
  rewrite fmap_cons. cbn [all_equal forallb].
  rewrite bool_decide_eq_true_2 by done. by rewrite forallb_fmap.
Qed.

Lemma suit_is_same_suit s c0 rest :
  suit_is s (c0 :: rest)
  = all_equal (suit <$> c0 :: rest) && bool_decide (suit c0 = s).
Proof.
  unfold suit_is. rewrite fmap_cons. cbn [all_equal forallb]. rewrite forallb_fmap.
  case_bool_decide as H0; simpl; [|by rewrite andb_false_r].
  rewrite andb_true_r. induction rest as [|c rest IH]; simpl; [done|].
  by rewrite IH, H0.
Qed.

Lemma non_kuin_same_suit c0 rest :
  all_equal (suit <$> c0 :: rest) && non_kuin (c0 :: rest)
  = all_equal (suit <$> c0 :: rest) && negb (bool_decide (suit c0 = "kuin")).
Proof.
  unfold non_kuin. rewrite fmap_cons. cbn [all_equal forallb]. rewrite forallb_fmap.
  destruct (decide (suit c0 = "kuin")) as [Hk|Hk].
  { rewrite (bool_decide_eq_true_2 _ Hk). cbn [negb andb]. by rewrite !andb_false_r. }
  rewrite (bool_decide_eq_false_2 _ Hk). cbn [negb andb]. rewrite andb_true_r.
  induction rest as [|c rest IH]; cbn [forallb]; [done|].
  destruct (decide (suit c = suit c0)) as [Hc|Hc].
  - rewrite (bool_decide_eq_true_2 _ Hc). cbn [andb].
    rewrite (bool_decide_eq_false_2 (suit c = "kuin")) by congruence. done.
  - by rewrite (bool_decide_eq_false_2 _ Hc).
Qed.

Lemma suits_are_length suits cs :
  suits_are suits cs = true → length cs = length suits.
Proof.
  intros H. apply bool_decide_eq_true in H. apply Permutation_length in H.
  by rewrite length_fmap in H.
Qed.

Lemma table_score_rows cs m :
  table_score cs m =
    if bool_decide (length cs = 4%nat) && (identical cs && non_kuin cs)
    then (if m then 6 else 8)
    else if bool_decide (length cs = 3%nat) && (identical cs && non_kuin cs)
    then (if m then 1 else 3)
    else if bool_decide (length cs = 2%nat) && (identical cs && non_kuin cs) then 0
    else if bool_decide (length cs = 4%nat) && (suit_is "chut" cs && colours_unique cs)
    then 4
    else if bool_decide (length cs = 3%nat) && (suit_is "chut" cs && colours_unique cs)
    then 1
    else if bool_decide (length cs = 3%nat)
            && (one_colour cs && suits_are ["kuin"; "tse"; "xiong"]%string cs) then 2
    else if bool_decide (length cs = 3%nat)
            && (one_colour cs && suits_are ["kee"; "mah"; "pau"]%string cs) then 1
    else if bool_decide (length cs = 1%nat) && suit_is "kuin" cs then 1
    else -1.
Proof.
  unfold table_score, score_table. cbn [List.find].
  repeat (destruct (_ && _); [reflexivity|]). reflexivity.
Qed.

Lemma all_equal_singleton (l : list string) : length l = 1%nat → all_equal l = true.
Proof. by destruct l as [|x [|]]. Qed.

Lemma evaluate_score_table (cs : list Card) (m : bool) c0 rest :
  cs = c0 :: rest → NoDup (cid <$> cs) →
  evaluate_score cs m
    (forallb (λ i, bool_decide (colour i = colour c0)) cs)
    (forallb (λ i, bool_decide (suit i = suit c0)) cs)
    (cards_unique_colours cs)
  = Ok (table_score cs m, bool_decide (table_score cs m = -1)).
Proof.
  intros -> Hid.
  unfold evaluate_score.
  cbn [first_card mbind res_bind mret res_ret].
  rewrite same_suit_all_equal, same_colour_all_equal.
  rewrite cards_unique_colours_NoDup by done.
  rewrite sorted_suits_kuin_tse_xiong, sorted_suits_kee_mah_pau.
  fold (suits_are ["kuin"; "tse"; "xiong"]%string (c0 :: rest)).
  fold (suits_are ["kee"; "mah"; "pau"]%string (c0 :: rest)).
  rewrite table_score_rows. unfold identical, one_colour.
  rewrite <- !(andb_assoc (all_equal (suit <$> c0 :: rest)) _ (non_kuin _)).
  rewrite !(andb_comm (all_equal (colour <$> c0 :: rest)) (non_kuin _)).
  rewrite !(andb_assoc (all_equal (suit <$> c0 :: rest)) (non_kuin _)).
  rewrite non_kuin_same_suit, !suit_is_same_suit.
  pose proof (suits_are_length ["kuin"; "tse"; "xiong"]%string (c0 :: rest)) as HE.
  pose proof (suits_are_length ["kee"; "mah"; "pau"]%string (c0 :: rest)) as HF.
  pose proof (all_equal_singleton (suit <$> c0 :: rest)) as HA.
  rewrite length_fmap in HA.
  assert (bool_decide (suit c0 = "chut") = true → bool_decide (suit c0 = "kuin") = false)
    as HD.
  { intros H%bool_decide_eq_true. apply bool_decide_eq_false. by rewrite H. }
  revert HE HF HA HD.
  generalize (suits_are ["kuin"; "tse"; "xiong"]%string (c0 :: rest)).
  generalize (suits_are ["kee"; "mah"; "pau"]%string (c0 :: rest)).
  generalize (colours_unique (c0 :: rest)).
  generalize (all_equal (suit <$> c0 :: rest)).
  generalize (all_equal (colour <$> c0 :: rest)).
  generalize (bool_decide (suit c0 = "chut")).
  generalize (bool_decide (suit c0 = "kuin")).
  generalize (length (c0 :: rest)).
  intros n K D C A U F E HE HF HA HD.
  destruct n as [|[|[|[|[|n]]]]]; destruct m, K, D, C, A, U, F, E;
    try (by specialize (HE eq_refl)); try (by specialize (HF eq_refl));
    try (by specialize (HA eq_refl)); try (by specialize (HD eq_refl));
    reflexivity.
Qed.

Lemma Set_init_score (w : World) (cs : list Card) :
  cs ≠ [] → NoDup (cid <$> cs) →
  ∃ s, Set_init w cs = Ok s
     ∧ set_cards s = cs
     ∧ melded s = contains_active_card w cs
     ∧ score s = table_score cs (melded s)
     ∧ invalid s = bool_decide (score s = -1).
Proof.
  intros Hne Hid. destruct cs as [|c0 rest]; [done|].
  unfold Set_init, cards_same_colour, cards_same_suit.
  cbn [first_card mbind res_bind mret res_ret].
  rewrite (evaluate_score_table (c0 :: rest) _ c0 rest eq_refl Hid).
  cbn [mbind res_bind mret res_ret]. eexists. split; [reflexivity|]. done.
Qed.

(** C3: for every non-empty list of distinct cards (of 1 to 4 cards, and
    of any greater length as well), [Set(cards)] is built without error
    and its score is the score of the first matching row of the scoring
    table, which is consulted with "melded" meaning that one of the cards
    is marked active; the score is -1, and the set is then marked invalid,
    exactly when no row matches. *)
Theorem Set_score_table_exact (w : World) (cs : list Card) :
  (1 ≤ length cs)%nat → NoDup (cid <$> cs) →
  ∃ s, Set_init w cs = Ok s
     ∧ melded s = contains_active_card w cs
     ∧ score s = table_score cs (melded s)
     ∧ (invalid s = true ↔ score s = -1)
     ∧ (score s = -1 ↔
        List.find (λ '(size, condition, _),
                     bool_decide (length cs = size) && condition cs) score_table = None).
Proof.
  intros Hlen Hid.
  destruct (Set_init_score w cs) as (s & Hs & _ & Hm & Hsc & Hinv); [|done|].
  { intros ->. simpl in Hlen. lia. }
  exists s. repeat split; try done.
  - rewrite Hinv. apply bool_decide_eq_true.
  - rewrite Hinv. apply bool_decide_eq_true.
  - rewrite Hsc. unfold table_score.
    destruct (List.find _ score_table) as [[[size cond] pts]|] eqn:Hf; [|done].
    intros Hp. exfalso. apply find_some in Hf as [Hin _].
    unfold score_table in Hin. simpl in Hin.
    destruct (melded s);
      repeat (destruct Hin as [Hin|Hin]; [simplify_eq; discriminate Hp|]); done.
  - intros Hf. rewrite Hsc. unfold table_score. by rewrite Hf.
Qed.


Lemma Set_score_table_exact_witness :
  let cs := [tse 1; tse 2; tse 3] in
  ∃ s, Set_init rollback_world cs = Ok s
     ∧ melded s = contains_active_card rollback_world cs
     ∧ score s = table_score cs (melded s)
     ∧ (invalid s = true ↔ score s = -1)
     ∧ (score s = -1 ↔
        List.find (λ '(size, condition, _),
                     bool_decide (length cs = size) && condition cs) score_table = None).
Proof.
  intros cs. apply (Set_score_table_exact rollback_world cs).
  - simpl. lia.
  - apply (bool_decide_unpack _). vm_compute. exact I.
Defined.

(** ** The hand evaluator: single steps *)

Lemma cards_of_app fs1 fs2 : cards_of (fs1 ++ fs2) = cards_of fs1 ++ cards_of fs2.
Proof. unfold cards_of. by rewrite fmap_app, concat_app. Qed.

Lemma cards_of_singleton s : cards_of [s] = set_cards s.
Proof. unfold cards_of. simpl. by rewrite app_nil_r. Qed.

Lemma set_ids_app fs1 fs2 : set_ids (fs1 ++ fs2) = set_ids fs1 ++ set_ids fs2.
Proof. unfold set_ids. by rewrite cards_of_app, fmap_app. Qed.

Lemma set_ids_singleton s : set_ids [s] = cid <$> set_cards s.
Proof. unfold set_ids. by rewrite cards_of_singleton. Qed.

(** [Set(cards)] succeeds on every non-empty list, and nothing but an
    invalid set scores -1. *)
Lemma Set_init_total w cs :
  cs ≠ [] →
  ∃ s, Set_init w cs = Ok s ∧ set_cards s = cs
       ∧ melded s = contains_active_card w cs.
Proof.
  intros Hne. destruct cs as [|c0 rest]; [done|].
  unfold Set_init, cards_same_colour, cards_same_suit, evaluate_score.
  cbn [first_card mbind res_bind mret res_ret].
  destruct (or_else _ _); eexists; (split; [reflexivity|done]).
Qed.

Lemma Set_init_active w w' cs : active w' = active w → Set_init w' cs = Set_init w cs.
Proof.
  intros H. unfold Set_init, contains_active_card, is_active. by rewrite H.
Qed.

Lemma new_Set_ok w cs s : Set_init w cs = Ok s → new_Set cs w = Ok (s, w).
Proof. intros H. unfold new_Set. by rewrite H. Qed.

Lemma unlocked_ok w cs : unlocked cs w = Ok (cards_not_locked w cs, w).
Proof. done. Qed.

Lemma cards_not_locked_spec w cs :
  cards_not_locked w cs = true ↔ ∀ c, c ∈ cs → cid c ∉ locked w.
Proof.
  unfold cards_not_locked, is_locked. rewrite <- Is_true_true, forallb_True, Forall_forall.
  apply forall_proper; intros c. apply forall_proper; intros _.
  by rewrite negb_True, bool_decide_spec.
Qed.

(** Locking the cards of a list one by one. *)
Lemma lock_loop_ok cs w :
  ∃ w', for_in cs (λ c _, lock c) tt w = Ok (tt, w')
        ∧ same_but_locked w w'
        ∧ locked w' = list_to_set (cid <$> cs) ∪ locked w.
Proof.
  revert w. induction cs as [|c cs IH]; intros w.
  - exists w. split; [done|]. split; [done|]. set_solver.
  - simpl. erewrite bind_ok; [|reflexivity].
    edestruct IH as (w' & -> & (Hn & Ha & Hr) & Hl).
    exists w'. split; [done|]. split; [done|].
    rewrite Hl. simpl. set_solver.
Qed.

Lemma commit_ok s cs found w :
  ∃ w', commit s cs found w = Ok (found ++ [s], w')
        ∧ same_but_locked w w'
        ∧ locked w' = list_to_set (cid <$> cs) ∪ locked w.
Proof.
  unfold commit. destruct (lock_loop_ok cs w) as (w' & Hl & Hw & Hlocked).
  exists w'. split; [|done]. by erewrite bind_ok.
Qed.

Lemma same_but_locked_trans w0 w1 w2 :
  same_but_locked w0 w1 → same_but_locked w1 w2 → same_but_locked w0 w2.
Proof. unfold same_but_locked. naive_solver congruence. Qed.

(** Committing a set of unlocked cards keeps the invariant. *)
Lemma eval_inv_commit w0 cards found w s w' :
  eval_inv w0 cards found w →
  sublist (set_cards s) cards →
  Set_init w (set_cards s) = Ok s →
  score s ≠ -1 →
  cards_not_locked w (set_cards s) = true →
  same_but_locked w w' →
  locked w' = list_to_set (cid <$> set_cards s) ∪ locked w →
  eval_inv w0 cards (found ++ [s]) w'.
Proof.
  intros [Hw Hl Hc] Hsub Hs Hsc Hfree Hw' Hl'. split.
  - by eapply same_but_locked_trans.
  - rewrite Hl', Hl, set_ids_app, set_ids_singleton, list_to_set_app_L. set_solver.
  - constructor; try done.
    + rewrite <- Hs. symmetry. apply Set_init_active. apply Hw.
    + intros c Hc'. apply cards_not_locked_spec with (c := c) in Hfree; [|done].
      rewrite Hl in Hfree. set_solver.
Qed.

(** ** The hand evaluator: the six tiers *)

Lemma tier_inv_start P w0 cards found w :
  eval_inv w0 cards found w → tier_inv P w0 cards found found w.
Proof. intros H. split; [done|]. exists []. by rewrite app_nil_r. Qed.

Lemma tier_inv_commit P w0 cards found0 found w s w' :
  tier_inv P w0 cards found0 found w →
  sublist (set_cards s) cards →
  Set_init w (set_cards s) = Ok s →
  score s ≠ -1 → P s →
  cards_not_locked w (set_cards s) = true →
  same_but_locked w w' →
  locked w' = list_to_set (cid <$> set_cards s) ∪ locked w →
  tier_inv P w0 cards found0 (found ++ [s]) w'.
Proof.
  intros [Hinv (new & -> & HP)] Hsub Hs Hsc Hp Hfree Hw' Hl'. split.
  - by eapply eval_inv_commit.
  - exists (new ++ [s]). rewrite app_assoc. split; [done|].
    apply Forall_app. split; [done|]. by apply Forall_singleton.
Qed.

Lemma slice_sublist {A} (l : list A) i j : sublist (slice l i j) l.
Proof. unfold slice. etrans; [apply sublist_take|apply sublist_drop]. Qed.

Lemma slice_length {A} (l : list A) i n :
  (i + n ≤ length l)%nat → length (slice l i (i + n)) = n.
Proof. intros H. unfold slice. rewrite length_take, length_drop. lia. Qed.

Lemma slice_nonempty {A} (l : list A) i n :
  (i + S n ≤ length l)%nat → slice l i (i + S n) ≠ [].
Proof.
  intros H Hnil. pose proof (slice_length l i (S n) H) as Hl.
  rewrite Hnil in Hl. done.
Qed.

Ltac step := erewrite bind_ok; [|first [eassumption|reflexivity]].

(** First tier. *)
Lemma find_four_identical_inv w0 cards found0 fuel i found w :
  tier_inv four_identical w0 cards found0 found w →
  (length cards ≤ fuel + i)%nat →
  ∃ found' w', find_four_identical fuel cards i found w = Ok (found', w')
    ∧ tier_inv four_identical w0 cards found0 found' w'.
Proof.
  revert i found w. induction fuel as [|fuel IH]; intros i found w Hinv Hfuel.
  - exists found, w. simpl. rewrite bool_decide_eq_false_2 by lia. done.
  - simpl. case_bool_decide as Hi; [|by exists found, w].
    set (test_cards := slice cards i (i + 4)).
    destruct (Set_init_total w test_cards) as (s & Hs & Hcs & _).
    { apply slice_nonempty. lia. }
    erewrite bind_ok; [|by apply new_Set_ok].
    erewrite bind_ok; [|apply unlocked_ok].
    destruct (bool_decide (score s ∈ [8; 6]) && cards_not_locked w test_cards) eqn:Hc.
    + apply andb_true_iff in Hc as [Hv%bool_decide_eq_true Hfree].
      destruct (commit_ok s test_cards found w) as (w' & Hcommit & Hw' & Hl').
      erewrite bind_ok; [|exact Hcommit].
      apply IH; [|lia]. rewrite <- Hcs in *.
      eapply tier_inv_commit; try done.
      * rewrite Hcs. apply slice_sublist.
      * intros Heq. rewrite Heq in Hv. set_solver.
      * split; [|done]. rewrite Hcs. apply slice_length. lia.
    + apply IH; [done|lia].
Qed.

(** Third tier. *)
Lemma find_three_identical_inv w0 cards found0 fuel i found w :
  tier_inv three_identical w0 cards found0 found w →
  (length cards ≤ fuel + i)%nat →
  ∃ found' w', find_three_identical fuel cards i found w = Ok (found', w')
    ∧ tier_inv three_identical w0 cards found0 found' w'.
Proof.
  revert i found w. induction fuel as [|fuel IH]; intros i found w Hinv Hfuel.
  - exists found, w. simpl. rewrite bool_decide_eq_false_2 by lia. done.
  - simpl. case_bool_decide as Hi; [|by exists found, w].
    set (test_cards := slice cards i (i + 3)).
    assert (test_cards ≠ []) as Hne by (apply slice_nonempty; lia).
    destruct (Set_init_total w test_cards) as (s & Hs & Hcs & _); [done|].
    destruct test_cards as [|c0 rest] eqn:Htc; [done|].
    unfold cards_same_suit, cards_same_colour.
    cbn [first_card mbind res_bind mret res_ret lift].
    erewrite bind_ok; [|reflexivity].
    destruct (forallb (λ i0, bool_decide (suit i0 = suit c0)) (c0 :: rest)) eqn:Hss.
    2:{ erewrite bind_ok; [|reflexivity]. apply IH; [done|lia]. }
    erewrite bind_ok; [|reflexivity].
    destruct (forallb (λ i0, bool_decide (colour i0 = colour c0)) (c0 :: rest)) eqn:Hsc.
    2:{ apply IH; [done|lia]. }
    erewrite bind_ok; [|by apply new_Set_ok].
    erewrite bind_ok; [|apply unlocked_ok].
    destruct (bool_decide (score s ∈ [3; 1]) && cards_not_locked w (c0 :: rest)) eqn:Hc.
    + apply andb_true_iff in Hc as [Hv%bool_decide_eq_true Hfree].
      destruct (commit_ok s (c0 :: rest) found w) as (w' & Hcommit & Hw' & Hl').
      erewrite bind_ok; [|exact Hcommit].
      apply IH; [|lia]. rewrite <- Hcs in *.
      eapply tier_inv_commit; try done.
      * rewrite <- Htc. apply slice_sublist.
      * intros Heq. rewrite Heq in Hv. set_solver.
      * split; [|split; [done|]].
        { rewrite <- Htc. apply slice_length. lia. }
        revert Hs. unfold Set_init, cards_same_colour, cards_same_suit.
        rewrite Hcs in Hss, Hsc |- *. cbn [first_card mbind res_bind mret res_ret].
        rewrite Hss, Hsc. destruct (evaluate_score _ _ _ _ _) as [[v inv]| |]; [|done..].
        cbn [mbind res_bind mret res_ret]. intros [= <-]. done.
    + apply IH; [done|lia].
Qed.

(** Sixth tier. *)
Lemma find_pairs_inv w0 cards found0 fuel i found w :
  tier_inv pair w0 cards found0 found w →
  (length cards ≤ fuel + i)%nat →
  ∃ found' w', find_pairs fuel cards i found w = Ok (found', w')
    ∧ tier_inv pair w0 cards found0 found' w'.
Proof.
  revert i found w. induction fuel as [|fuel IH]; intros i found w Hinv Hfuel.
  - exists found, w. simpl. rewrite bool_decide_eq_false_2 by lia. done.
  - simpl. case_bool_decide as Hi; [|by exists found, w].
    set (test_cards := slice cards i (i + 2)).
    destruct (Set_init_total w test_cards) as (s & Hs & Hcs & _).
    { apply slice_nonempty. lia. }
    erewrite bind_ok; [|by apply new_Set_ok].
    erewrite bind_ok; [|apply unlocked_ok].
    destruct (bool_decide (score s = 0) && cards_not_locked w test_cards) eqn:Hc.
    + apply andb_true_iff in Hc as [Hv%bool_decide_eq_true Hfree].
      destruct (commit_ok s test_cards found w) as (w' & Hcommit & Hw' & Hl').
      erewrite bind_ok; [|exact Hcommit].
      apply IH; [|lia]. rewrite <- Hcs in *.
      eapply tier_inv_commit; try done.
      * rewrite Hcs. apply slice_sublist.
      * lia.
      * split; [|done]. rewrite Hcs. apply slice_length. lia.
    + apply IH; [done|lia].
Qed.

(** A loop invariant for [for_from]: the body is run on every card of
    the list together with the cards after it. *)
Lemma for_from_inv {S} (I : S → World → Prop) (all cs : list Card) body (s : S) w :
  suffix cs all → I s w →
  (∀ c later s w, suffix (c :: later) all → I s w →
     ∃ s' w', body c later s w = Ok (s', w') ∧ I s' w') →
  ∃ s' w', for_from cs body s w = Ok (s', w') ∧ I s' w'.
Proof.
  intros Hsuf H0 Hbody. revert s w Hsuf H0.
  induction cs as [|c cs IH]; intros s w Hsuf H0.
  - by exists s, w.
  - destruct (Hbody c cs s w Hsuf H0) as (s1 & w1 & Hb & H1).
    destruct (IH s1 w1) as (s2 & w2 & Hl & H2); [|done|].
    { by eapply suffix_cons_l. }
    exists s2, w2. split; [|done]. simpl. by erewrite bind_ok.
Qed.

Lemma sublist_cons_suffix {A} (c : A) sub later l :
  sublist sub later → suffix (c :: later) l → sublist (c :: sub) l.
Proof.
  intros Hsub [k ->]. apply sublist_inserts_l. by apply sublist_skip.
Qed.

Lemma sublist_singleton {A} (x : A) l : x ∈ l → sublist [x] l.
Proof.
  intros (l1 & l2 & ->)%list_elem_of_split.
  apply sublist_inserts_l, sublist_skip, sublist_nil_l.
Qed.

(** Second tier. *)
Lemma find_four_colour_inv w0 cards found0 found w :
  tier_inv four_colour w0 cards found0 found w →
  ∃ found' w', find_four_colour cards found w = Ok (found', w')
    ∧ tier_inv four_colour w0 cards found0 found' w'.
Proof.
  intros Hinv. unfold find_four_colour.
  apply (for_from_inv (tier_inv four_colour w0 cards found0) cards); [done..|].
  clear found w Hinv. intros ci after_i found w Hi Hinv.
  destruct (negb _); [by exists found, w|].
  apply (for_from_inv (tier_inv four_colour w0 cards found0) after_i); [done..|].
  clear found w Hinv. intros cj after_j found w Hj Hinv.
  apply (for_from_inv (tier_inv four_colour w0 cards found0) after_j); [done..|].
  clear found w Hinv. intros ck after_k found w Hk Hinv.
  apply (for_from_inv (tier_inv four_colour w0 cards found0) after_k); [done..|].
  clear found w Hinv. intros cl after_l found w Hl Hinv.
  assert (sublist [ci; cj; ck; cl] cards) as Hsub.
  { eapply sublist_cons_suffix; [|exact Hi].
    eapply sublist_cons_suffix; [|exact Hj].
    eapply sublist_cons_suffix; [|exact Hk].
    eapply sublist_cons_suffix; [|exact Hl]. apply sublist_nil_l. }
  destruct (Set_init_total w [ci; cj; ck; cl]) as (s & Hs & Hcs & _); [done|].
  erewrite bind_ok; [|by apply new_Set_ok].
  erewrite bind_ok; [|apply unlocked_ok].
  destruct (bool_decide (score s = 4) && cards_not_locked w [ci; cj; ck; cl]) eqn:Hc;
    [|by exists found, w].
  apply andb_true_iff in Hc as [Hv%bool_decide_eq_true Hfree].
  destruct (commit_ok s [ci; cj; ck; cl] found w) as (w' & Hcommit & Hw' & Hl').
  eexists _, _. split; [exact Hcommit|]. rewrite <- Hcs in *.
  eapply tier_inv_commit; try done; [lia|]. split; [by rewrite Hcs|done].
Qed.

(** Fourth tier. *)
Lemma find_three_other_inv w0 cards found0 found w :
  tier_inv three_other w0 cards found0 found w →
  ∃ found' w', find_three_other cards found w = Ok (found', w')
    ∧ tier_inv three_other w0 cards found0 found' w'.
Proof.
  intros Hinv. unfold find_three_other.
  apply (for_from_inv (tier_inv three_other w0 cards found0) cards); [done..|].
  clear found w Hinv. intros ci after_i found w Hi Hinv.
  apply (for_from_inv (tier_inv three_other w0 cards found0) after_i); [done..|].
  clear found w Hinv. intros cj after_j found w Hj Hinv.
  apply (for_from_inv (tier_inv three_other w0 cards found0) after_j); [done..|].
  clear found w Hinv. intros ck after_k found w Hk Hinv.
  assert (sublist [ci; cj; ck] cards) as Hsub.
  { eapply sublist_cons_suffix; [|exact Hi].
    eapply sublist_cons_suffix; [|exact Hj].
    eapply sublist_cons_suffix; [|exact Hk]. apply sublist_nil_l. }
  destruct (Set_init_total w [ci; cj; ck]) as (s & Hs & Hcs & _); [done|].
  erewrite bind_ok; [|by apply new_Set_ok].
  erewrite bind_ok; [|apply unlocked_ok].
  destruct (bool_decide (score s ∈ [2; 1]) && cards_not_locked w [ci; cj; ck]) eqn:Hc;
    [|by exists found, w].
  apply andb_true_iff in Hc as [Hv%bool_decide_eq_true Hfree].
  destruct (commit_ok s [ci; cj; ck] found w) as (w' & Hcommit & Hw' & Hl').
  eexists _, _. split; [exact Hcommit|]. rewrite <- Hcs in *.
  eapply tier_inv_commit; try done.
  - intros Heq. rewrite Heq in Hv. set_solver.
  - split; [by rewrite Hcs|done].
Qed.

(** A kuin on its own makes a set worth one point. *)
Lemma Set_init_lone_kuin w c s :
  suit c = "kuin"%string → Set_init w [c] = Ok s → score s = 1.
Proof.
  intros Hk. unfold Set_init, cards_same_colour, cards_same_suit, evaluate_score.
  cbn [first_card mbind res_bind mret res_ret forallb fmap list_fmap length].
  rewrite Hk. rewrite !bool_decide_eq_true_2 by done.
  cbn. intros [= <-]. done.
Qed.

(** Fifth tier. *)
Lemma find_kuin_inv w0 cards found0 found w :
  tier_inv lone_kuin w0 cards found0 found w →
  ∃ found' w', find_kuin cards found w = Ok (found', w')
    ∧ tier_inv lone_kuin w0 cards found0 found' w'.
Proof.
  intros Hinv. unfold find_kuin.
  apply (for_in_inv (λ _, tier_inv lone_kuin w0 cards found0) cards); [exact Hinv|].
  clear found w Hinv. intros k i found w Hk Hinv.
  erewrite bind_ok; [|apply unlocked_ok].
  destruct (bool_decide (suit i = "kuin") && cards_not_locked w [i]) eqn:Hc;
    [|by exists found, w].
  apply andb_true_iff in Hc as [Hv%bool_decide_eq_true Hfree].
  destruct (Set_init_total w [i]) as (s & Hs & Hcs & _); [done|].
  erewrite bind_ok; [|by apply new_Set_ok].
  erewrite bind_ok; [|reflexivity].
  eexists _, _. split; [reflexivity|].
  pose proof (Set_init_lone_kuin _ _ _ Hv Hs) as Hscore.
  rewrite <- Hcs in Hs, Hfree.
  eapply tier_inv_commit; try done.
  - rewrite Hcs. apply sublist_singleton. by eapply list_elem_of_lookup_2.
  - lia.
  - by exists i.
  - simpl. rewrite Hcs. simpl. set_solver.
Qed.

(** ** The first tier leaves no four identical cards behind *)

Lemma cards_not_locked_false w cs c :
  c ∈ cs → cid c ∈ locked w → cards_not_locked w cs = false.
Proof.
  intros Hc Hl. apply not_true_is_false. intros H.
  by apply (proj1 (cards_not_locked_spec w cs) H c).
Qed.

Lemma cards_not_locked_mono w w' cs :
  locked w ⊆ locked w' → cards_not_locked w cs = false → cards_not_locked w' cs = false.
Proof.
  intros Hsub H. apply not_true_is_false. intros H'.
  apply not_true_iff_false in H. apply H. apply cards_not_locked_spec.
  intros c Hc Hl. apply (proj1 (cards_not_locked_spec w' cs) H' c Hc). set_solver.
Qed.

Lemma elem_of_slice {A} (l : list A) i j k x :
  l !! k = Some x → (i ≤ k < j)%nat → x ∈ slice l i j.
Proof.
  intros Hk Hij. unfold slice. apply list_elem_of_lookup. exists (k - i)%nat.
  rewrite lookup_take_lt by lia. rewrite lookup_drop.
  by replace (i + (k - i))%nat with k by lia.
Qed.

Lemma find_four_identical_covers w0 cards fuel i found w found' w' :
  same_but_locked w0 w →
  find_four_identical fuel cards i found w = Ok (found', w') →
  (∀ j, (j < i)%nat → (j + 4 ≤ length cards)%nat → blocked w0 w cards j) →
  locked w ⊆ locked w'
  ∧ ∀ j, (j + 4 ≤ length cards)%nat → blocked w0 w' cards j.
Proof.
  revert i found w. induction fuel as [|fuel IH]; intros i found w Hw Hrun Hcov.
  - simpl in Hrun. case_bool_decide as Hi; [done|].
    unfold mret, M_ret in Hrun. simplify_eq. split; [done|].
    intros j Hj. apply Hcov; lia.
  - simpl in Hrun. case_bool_decide as Hi.
    2:{ unfold mret, M_ret in Hrun. simplify_eq. split; [done|].
        intros j Hj. apply Hcov; lia. }
    set (test_cards := slice cards i (i + 4)) in *.
    destruct (Set_init_total w test_cards) as (s & Hs & Hcs & _).
    { apply slice_nonempty. lia. }
    erewrite bind_ok in Hrun; [|by apply new_Set_ok].
    erewrite bind_ok in Hrun; [|apply unlocked_ok].
    destruct (bool_decide (score s ∈ [8; 6]) && cards_not_locked w test_cards) eqn:Hc.
    + destruct (commit_ok s test_cards found w) as (w1 & Hcommit & Hw1 & Hl1).
      erewrite bind_ok in Hrun; [|exact Hcommit].
      apply IH in Hrun as [Hsub Hall].
      * split; [|done]. rewrite Hl1 in Hsub. set_solver.
      * by eapply same_but_locked_trans.
      * intros j Hj Hlen. destruct (decide (j < i)%nat) as [Hlt|Hge].
        { intros s' Hs' Hv. eapply cards_not_locked_mono; [|by eapply Hcov].
          rewrite Hl1. set_solver. }
        intros s' _ _.
        destruct (lookup_lt_is_Some_2 cards (i + 3)%nat) as [c Hc3]; [lia|].
        apply (cards_not_locked_false _ _ c).
        { eapply elem_of_slice; [done|lia]. }
        rewrite Hl1. apply elem_of_union. left. apply elem_of_list_to_set.
        apply list_elem_of_fmap_2. eapply elem_of_slice; [done|lia].
    + apply IH in Hrun as [Hsub Hall]; [done..|].
      intros j Hj Hlen. destruct (decide (j = i)) as [->|Hne]; [|apply Hcov; lia].
      intros s' Hs' Hv.
      rewrite (Set_init_active w0 w) in Hs by apply Hw.
      fold test_cards in Hs'. rewrite Hs in Hs'. simplify_eq.
      apply andb_false_iff in Hc as [Hc|Hc]; [|done].
      by apply bool_decide_eq_false in Hc.
Qed.

Lemma cards_not_locked_false_inv w cs :
  cards_not_locked w cs = false → ∃ c, c ∈ cs ∧ cid c ∈ locked w.
Proof.
  unfold cards_not_locked. induction cs as [|c cs IH]; simpl; [done|].
  intros [Hc|Hc]%andb_false_iff.
  - exists c. split; [left|]. apply negb_false_iff in Hc.
    by apply bool_decide_eq_true in Hc.
  - destruct (IH Hc) as (c' & Hin & Hl). exists c'. split; [by right|done].
Qed.

Lemma elem_of_cards_of c fs : c ∈ cards_of fs ↔ ∃ s, s ∈ fs ∧ c ∈ set_cards s.
Proof.
  unfold cards_of. induction fs as [|s fs IH]; simpl.
  - split; [by intros ?%elem_of_nil|]. by intros (s & ?%elem_of_nil & _).
  - rewrite elem_of_app, IH. split.
    + intros [H|(s' & H1 & H2)]; [exists s; split; [left|done]|].
      exists s'. split; [by right|done].
    + intros (s' & [->|H1]%elem_of_cons & H2); [by left|]. right. by exists s'.
Qed.

Lemma elem_of_set_ids i fs :
  i ∈ set_ids fs ↔ ∃ s, s ∈ fs ∧ i ∈ cid <$> set_cards s.
Proof.
  unfold set_ids. rewrite list_elem_of_fmap. split.
  - intros (c & -> & (s & Hs & Hc)%elem_of_cards_of).
    exists s. split; [done|]. by apply list_elem_of_fmap_2.
  - intros (s & Hs & (c & -> & Hc)%list_elem_of_fmap).
    exists c. split; [done|]. apply elem_of_cards_of. by exists s.
Qed.

(** ** The hand evaluator as a whole *)

Lemma sort_cards_suit hand :
  sort_cards hand "suit" = Ok (py_sort rank_le hand, py_sort rank_le hand).
Proof. done. Qed.

Lemma loose_filter (P : Card → bool) cs acc :
  foldl (λ lang_pai c, if P c then lang_pai ++ [c] else lang_pai) acc cs
  = acc ++ List.filter P cs.
Proof.
  revert acc. induction cs as [|c cs IH]; intros acc; simpl.
  - by rewrite app_nil_r.
  - rewrite IH. destruct (P c); [|done]. by rewrite <- app_assoc.
Qed.

Lemma unused_spec w0 fs w c :
  locked w = list_to_set (set_ids fs) ∪ locked w0 →
  negb (is_locked w c) = unused w0 fs c.
Proof.
  intros Hl. unfold unused, is_locked. rewrite Hl.
  generalize (set_ids fs). intros ids.
  destruct (decide (cid c ∈ locked w0)) as [Ha|Ha];
    destruct (decide (cid c ∈ ids)) as [Hb|Hb].
  - rewrite !bool_decide_eq_true_2; [done..|]. apply elem_of_union. by right.
  - rewrite (bool_decide_eq_true_2 (cid c ∈ locked w0)) by done.
    rewrite bool_decide_eq_true_2; [done|]. apply elem_of_union. by right.
  - rewrite (bool_decide_eq_true_2 (cid c ∈ ids)) by done.
    rewrite bool_decide_eq_true_2; [by rewrite andb_false_r|].
    apply elem_of_union. left. by apply elem_of_list_to_set.
  - rewrite (bool_decide_eq_false_2 (cid c ∈ ids)) by done.
    rewrite (bool_decide_eq_false_2 (cid c ∈ locked w0)) by done.
    rewrite bool_decide_eq_false_2; [done|].
    rewrite elem_of_union, elem_of_list_to_set. tauto.
Qed.

(** Unlocking the cards of a list one by one. *)
Lemma unlock_loop_ok cs w :
  ∃ w', for_in cs (λ c _, unlock c) tt w = Ok (tt, w')
        ∧ same_but_locked w w'
        ∧ locked w' = locked w ∖ list_to_set (cid <$> cs).
Proof.
  revert w. induction cs as [|c cs IH]; intros w.
  - exists w. split; [done|]. split; [done|]. set_solver.
  - simpl. erewrite bind_ok; [|reflexivity].
    edestruct IH as (w' & -> & (Hn & Ha & Hr) & Hl).
    exists w'. split; [done|]. split; [done|].
    rewrite Hl. simpl. set_solver.
Qed.

Lemma committed_sublist w0 cards fs :
  committed w0 cards fs → ∀ c, c ∈ cards_of fs → c ∈ cards.
Proof.
  induction 1 as [|fs s _ IH Hsub _ _ _]; intros c Hc.
  - by apply elem_of_nil in Hc.
  - rewrite cards_of_app, cards_of_singleton in Hc.
    apply elem_of_app in Hc as [Hc|Hc]; [by apply IH|].
    by eapply elem_of_sublist.
Qed.

Lemma committed_unlocked w0 cards fs :
  committed w0 cards fs → ∀ c, c ∈ cards_of fs → cid c ∉ locked w0.
Proof.
  induction 1 as [|fs s _ IH _ _ _ Hfree]; intros c Hc.
  - by apply elem_of_nil in Hc.
  - rewrite cards_of_app, cards_of_singleton in Hc.
    apply elem_of_app in Hc as [Hc|Hc]; [by apply IH|]. by apply Hfree.
Qed.

Lemma committed_valid w0 cards fs :
  committed w0 cards fs →
  Forall (λ s, score s ≠ -1 ∧ Set_init w0 (set_cards s) = Ok s) fs.
Proof.
  induction 1; [done|]. apply Forall_app. split; [done|]. by apply Forall_singleton.
Qed.

(** No card lies in two committed sets, nor twice in one. *)
Lemma committed_NoDup w0 cards fs :
  NoDup (cid <$> cards) → committed w0 cards fs → NoDup (set_ids fs).
Proof.
  intros Hnd. induction 1 as [|fs s _ IH Hsub _ _ Hfree]; [constructor|].
  rewrite set_ids_app, set_ids_singleton. apply NoDup_app. split; [done|]. split.
  - intros i Hi (c & -> & Hc)%list_elem_of_fmap. by destruct (Hfree c Hc).
  - apply (sublist_NoDup _ (cid <$> cards)); [done|]. by apply fmap_sublist.
Qed.

Lemma in_tiers_intro f1 f2 f3 f4 f5 f6 :
  Forall four_identical f1 → Forall four_colour f2 → Forall three_identical f3 →
  Forall three_other f4 → Forall lone_kuin f5 → Forall pair f6 →
  in_tiers (((((([] ++ f1) ++ f2) ++ f3) ++ f4) ++ f5) ++ f6).
Proof. intros. exists f1, f2, f3, f4, f5, f6. by rewrite <- !app_assoc. Qed.

(** Every run of [evaluate_hand] ends without error.  It sorts its
    argument, unlocks its cards, and returns sets committed tier by
    tier, their total score, and the cards left unused. *)
Lemma evaluate_hand_run (hand : list Card) (w : World) :
  ∃ e w', evaluate_hand hand w = Ok (e, w')
    ∧ ev_cards e = py_sort rank_le hand
    ∧ same_but_locked w w'
    ∧ locked w' = locked w ∖ list_to_set (cid <$> hand)
    ∧ committed w (py_sort rank_le hand) (ev_sets e)
    ∧ in_tiers (ev_sets e)
    ∧ ev_score e = foldl (λ t s, t + score s) 0 (ev_sets e)
    ∧ ev_loose e = List.filter (unused w (ev_sets e)) (py_sort rank_le hand)
    ∧ (∀ j s, (j + 4 ≤ length hand)%nat →
         Set_init w (slice (py_sort rank_le hand) j (j + 4)) = Ok s →
         score s ∈ [8; 6] →
         ∃ c, c ∈ slice (py_sort rank_le hand) j (j + 4)
           ∧ (cid c ∈ locked w
              ∨ ∃ s1, s1 ∈ ev_sets e ∧ four_identical s1 ∧ cid c ∈ cid <$> set_cards s1)).
Proof.
  unfold evaluate_hand. rewrite sort_cards_suit. cbn [lift].
  erewrite bind_ok; [|reflexivity].
  set (cards := py_sort rank_le hand).
  assert (eval_inv w cards [] w) as H0.
  { split; [done| |constructor]. unfold set_ids, cards_of. simpl. set_solver. }
  destruct (find_four_identical_inv w cards [] (length cards) 0 [] w)
    as (fs1 & w1 & Hr1 & H1 & f1 & -> & Hf1); [by apply tier_inv_start|lia|].
  cbv zeta. erewrite bind_ok; [|exact Hr1].
  destruct (find_four_identical_covers w cards _ _ _ _ _ _ (conj eq_refl (conj eq_refl eq_refl))
              Hr1) as [_ Hcover]; [lia|].
  pose proof (inv_locked _ _ _ _ H1) as Hl1.
  destruct (find_four_colour_inv w cards ([] ++ f1) ([] ++ f1) w1)
    as (fs2 & w2 & Hr2 & H2 & f2 & -> & Hf2); [by apply tier_inv_start|].
  erewrite bind_ok; [|exact Hr2].
  destruct (find_three_identical_inv w cards _ (length cards) 0 _ w2
              (tier_inv_start _ _ _ _ _ H2))
    as (fs3 & w3 & Hr3 & H3 & f3 & -> & Hf3); [lia|].
  erewrite bind_ok; [|exact Hr3].
  destruct (find_three_other_inv w cards _ _ w3 (tier_inv_start _ _ _ _ _ H3))
    as (fs4 & w4 & Hr4 & H4 & f4 & -> & Hf4).
  erewrite bind_ok; [|exact Hr4].
  destruct (find_kuin_inv w cards _ _ w4 (tier_inv_start _ _ _ _ _ H4))
    as (fs5 & w5 & Hr5 & H5 & f5 & -> & Hf5).
  erewrite bind_ok; [|exact Hr5].
  destruct (find_pairs_inv w cards _ (length cards) 0 _ w5
              (tier_inv_start _ _ _ _ _ H5))
    as (fs6 & w6 & Hr6 & H6 & f6 & -> & Hf6); [lia|].
  erewrite bind_ok; [|exact Hr6].
  erewrite bind_ok; [|reflexivity].
  destruct (unlock_loop_ok cards w6) as (w7 & Hr7 & Hw7 & Hl7).
  erewrite bind_ok; [|exact Hr7].
  destruct H6 as [Hw6 Hl6 Hc6].
  eexists _, _. split; [reflexivity|]. cbn [ev_cards ev_sets ev_score ev_loose].
  split; [done|]. split; [by eapply same_but_locked_trans|].
  split; [|split; [done|split; [by apply in_tiers_intro|split; [done|split]]]].
  - rewrite Hl7, Hl6.
    assert (list_to_set (cid <$> cards) =@{gset nat} list_to_set (cid <$> hand)) as ->.
    { apply set_eq. intros i. rewrite !elem_of_list_to_set.
      unfold cards. by rewrite py_sort_Permutation. }
    pose proof (committed_sublist _ _ _ Hc6) as Hsub.
    apply set_eq. intros i. rewrite !elem_of_difference, elem_of_union.
    rewrite !elem_of_list_to_set. split; [|naive_solver].
    intros [[Hi|Hi] Hn]; [|done]. exfalso. apply Hn.
    unfold set_ids in Hi. apply list_elem_of_fmap in Hi as (c & -> & Hc).
    apply list_elem_of_fmap_2. rewrite <- (py_sort_Permutation rank_le hand).
    by apply Hsub.
  - rewrite loose_filter. simpl. apply List.filter_ext. intros c.
    by apply unused_spec.
  - intros j s Hj Hs Hv.
    assert (length cards = length hand) as Hlen.
    { unfold cards. by rewrite py_sort_Permutation. }
    destruct (cards_not_locked_false_inv w1 (slice cards j (j + 4))) as (c & Hc & Hlc).
    { apply (Hcover j ltac:(lia) s Hs Hv). }
    exists c. split; [done|]. rewrite Hl1 in Hlc.
    apply elem_of_union in Hlc as [Hlc|Hlc]; [|by left]. right.
    apply elem_of_list_to_set, elem_of_set_ids in Hlc as (s1 & Hs1 & Hcs1).
    rewrite app_nil_l in Hs1.
    exists s1. split; [|split; [|done]].
    + rewrite !elem_of_app. tauto.
    + by eapply Forall_forall in Hf1.
Qed.

(** ** The evaluator partitions the hand *)

Lemma filter_split {A} (f : A → bool) l :
  List.filter f l ++ List.filter (λ x, negb (f x)) l ≡ₚ l.
Proof.
  induction l as [|x l IH]; simpl; [done|]. destruct (f x); simpl.
  - by rewrite IH.
  - rewrite <- Permutation_middle. by rewrite IH.
Qed.

Lemma filter_sublist {A} (f : A → bool) l : sublist (List.filter f l) l.
Proof.
  induction l as [|x l IH]; simpl; [done|].
  destruct (f x); [by apply sublist_skip|by apply sublist_cons].
Qed.

Lemma elem_of_filter_bool {A} (f : A → bool) l x :
  x ∈ List.filter f l ↔ x ∈ l ∧ f x = true.
Proof. rewrite !list_elem_of_In. apply filter_In. Qed.

(** Among distinct, unlocked cards, the committed sets and the unused
    cards split the cards. *)
Lemma committed_partition w0 cards fs :
  NoDup (cid <$> cards) → (∀ c, c ∈ cards → cid c ∉ locked w0) →
  committed w0 cards fs →
  cards_of fs ++ List.filter (unused w0 fs) cards ≡ₚ cards.
Proof.
  intros Hnd Hfree Hc.
  rewrite <- (filter_split (λ c, bool_decide (cid c ∈ set_ids fs)) cards) at 2.
  apply Permutation_app.
  - apply NoDup_Permutation.
    + eapply NoDup_fmap_1. by eapply committed_NoDup.
    + eapply sublist_NoDup; [by eapply NoDup_fmap_1|apply filter_sublist].
    + intros c. rewrite elem_of_filter_bool, bool_decide_eq_true. split.
      * intros Hin. split; [by eapply committed_sublist|].
        by apply list_elem_of_fmap_2.
      * intros [Hin (c' & Heq & Hc')%list_elem_of_fmap].
        assert (c = c') as ->; [|done].
        eapply (NoDup_fmap_inj_on cid); [done..| |done].
        by eapply committed_sublist.
  - apply Permutation_refl'. clear Hc.
    induction cards as [|c cards IH]; [done|]. simpl.
    assert (unused w0 fs c = negb (bool_decide (cid c ∈ set_ids fs))) as ->.
    { unfold unused. rewrite (bool_decide_eq_false_2 (cid c ∈ locked w0)); [done|].
      apply Hfree. by left. }
    rewrite IH; [done| |].
    + by apply NoDup_cons in Hnd as [_ ?].
    + intros c' Hc'. apply Hfree. by right.
Qed.

Lemma score_four_identical w quad s :
  NoDup (cid <$> quad) → length quad = 4%nat →
  identical quad = true → non_kuin quad = true →
  Set_init w quad = Ok s → score s ∈ [8; 6].
Proof.
  intros Hnd Hlen Hid Hnk Hs.
  destruct (Set_init_score w quad) as (s' & Hs' & _ & _ & Hsc & _); [|done|].
  { intros ->. done. }
  rewrite Hs in Hs'. simplify_eq. rewrite Hsc, table_score_rows, Hlen, Hid, Hnk.
  simpl. destruct (melded s'); set_solver.
Qed.

(** C5: for every hand of distinct cards, unlocked as cards are outside
    the evaluator, [evaluate_hand] returns sets and loose cards such that
    - the cards of the sets together with the loose cards are exactly the
      cards of the hand;
    - no card occurs twice among them, so the sets are pairwise disjoint
      and disjoint from the loose cards;
    - no returned set has score -1;
    - the sets were committed one after the other, each from cards that no
      set committed before it holds, and they come tier by tier in the
      order of priority: four identical, four-colour, three identical,
      three other, lone kuin, pairs;
    - wherever four cards next to each other in the sorted hand are
      identical and not kuin (four identical chut among them), one of them
      lies in a returned set of four identical cards (score 8 or 6), which
      is not a four-colour set. *)
Theorem evaluate_hand_partition (hand : list Card) (w : World) :
  NoDup (cid <$> hand) → (∀ c, c ∈ hand → cid c ∉ locked w) →
  ∃ e w', evaluate_hand hand w = Ok (e, w')
    ∧ cards_of (ev_sets e) ++ ev_loose e ≡ₚ hand
    ∧ NoDup (cid <$> (cards_of (ev_sets e) ++ ev_loose e))
    ∧ Forall (λ s, score s ≠ -1) (ev_sets e)
    ∧ committed w (py_sort rank_le hand) (ev_sets e)
    ∧ in_tiers (ev_sets e)
    ∧ (∀ j quad, slice (py_sort rank_le hand) j (j + 4) = quad →
         length quad = 4%nat → identical quad = true → non_kuin quad = true →
         ∃ s c, s ∈ ev_sets e ∧ four_identical s ∧ ¬ four_colour s
                ∧ c ∈ quad ∧ c ∈ set_cards s).
Proof.
  intros Hnd Hfree.
  destruct (evaluate_hand_run hand w)
    as (e & w' & Hrun & Hcards & Hw' & Hl' & Hcom & Htiers & Hscore & Hloose & Hcover).
  exists e, w'. split; [done|].
  set (cards := py_sort rank_le hand) in *.
  assert (cards ≡ₚ hand) as Hperm by apply py_sort_Permutation.
  assert (NoDup (cid <$> cards)) as Hnd' by (by rewrite Hperm).
  assert (∀ c, c ∈ cards → cid c ∉ locked w) as Hfree'.
  { intros c Hc. apply Hfree. by rewrite <- Hperm. }
  assert (cards_of (ev_sets e) ++ ev_loose e ≡ₚ hand) as Hpart.
  { rewrite Hloose, <- Hperm. by apply committed_partition. }
  split; [done|]. split; [by rewrite Hpart|].
  split; [|split; [done|split; [done|]]].
  { eapply Forall_impl; [by eapply committed_valid|]. by intros s [? _]. }
  intros j quad Hquad Hlen Hid Hnk.
  assert (j + 4 ≤ length hand)%nat as Hj.
  { rewrite <- Hperm. rewrite <- Hquad in Hlen. unfold slice in Hlen.
    rewrite length_take, length_drop in Hlen. lia. }
  assert (sublist quad cards) as Hsub by (rewrite <- Hquad; apply slice_sublist).
  destruct (Set_init_total w quad) as (sq & Hsq & _); [by destruct quad|].
  destruct (Hcover j sq Hj) as (c & Hc & [Hlocked|(s1 & Hs1 & Hfour & Hin)]).
  - by rewrite Hquad.
  - eapply score_four_identical; [|done..].
    eapply sublist_NoDup; [exact Hnd'|]. by apply fmap_sublist.
  - exfalso. apply (Hfree' c); [|done].
    eapply elem_of_sublist; [|apply (slice_sublist cards j (j + 4))]. done.
  - exists s1, c. split; [done|]. split; [done|]. split.
    { intros [_ H4]. destruct Hfour as [_ H86]. rewrite H4 in H86. set_solver. }
    rewrite Hquad in Hc. split; [done|].
    apply list_elem_of_fmap in Hin as (c' & Heq & Hc').
    assert (c = c') as ->; [|done].
    eapply (NoDup_fmap_inj_on cid); [exact Hnd'| | |done].
    + by eapply elem_of_sublist.
    + eapply committed_sublist; [done|]. apply elem_of_cards_of. by exists s1.
Qed.


Lemma evaluate_hand_partition_witness :
  let hand := [tse 1; kee 5; tse 2; tse 4; tse 3] in
  ∃ e w', evaluate_hand hand rollback_world = Ok (e, w')
    ∧ cards_of (ev_sets e) ++ ev_loose e ≡ₚ hand
    ∧ NoDup (cid <$> (cards_of (ev_sets e) ++ ev_loose e))
    ∧ Forall (λ s, score s ≠ -1) (ev_sets e)
    ∧ committed rollback_world (py_sort rank_le hand) (ev_sets e)
    ∧ in_tiers (ev_sets e)
    ∧ (∀ j quad, slice (py_sort rank_le hand) j (j + 4) = quad →
         length quad = 4%nat → identical quad = true → non_kuin quad = true →
         ∃ s c, s ∈ ev_sets e ∧ four_identical s ∧ ¬ four_colour s
                ∧ c ∈ quad ∧ c ∈ set_cards s).
Proof.
  intros hand. apply (evaluate_hand_partition hand rollback_world).
  - apply (bool_decide_unpack _). vm_compute. exact I.
  - intros c _. simpl. set_solver.
Defined.

(** ** Evaluating a hand twice *)

Lemma insert_sorted_head (x : Card) l :
  HdRel (λ a b, rank a ≤ rank b) x l → insert_sorted rank_le x l = x :: l.
Proof.
  destruct 1 as [|y l Hxy]; [done|]. simpl. unfold rank_le.
  by rewrite bool_decide_eq_true_2.
Qed.

Lemma insert_sorted_Sorted (x : Card) l :
  Sorted (λ a b, rank a ≤ rank b) l →
  Sorted (λ a b, rank a ≤ rank b) (insert_sorted rank_le x l).
Proof.
  induction 1 as [|y l Hl IH Hhd]; simpl.
  - by repeat constructor.
  - unfold rank_le at 1. case_bool_decide as Hxy.
    + constructor; [by constructor|by constructor].
    + constructor; [done|].
      destruct Hhd as [|z l Hyz]; simpl.
      * constructor. lia.
      * unfold rank_le. case_bool_decide; constructor; [lia|done].
Qed.

Lemma py_sort_Sorted (l : list Card) :
  Sorted (λ a b, rank a ≤ rank b) (py_sort rank_le l).
Proof.
  induction l as [|x l IH]; simpl; [constructor|]. by apply insert_sorted_Sorted.
Qed.

(** Sorting a sorted list leaves it as it is. *)
Lemma py_sort_sorted (l : list Card) :
  Sorted (λ a b, rank a ≤ rank b) l → py_sort rank_le l = l.
Proof.
  induction 1 as [|x l Hl IH Hhd]; simpl; [done|].
  rewrite IH. by apply insert_sorted_head.
Qed.

Lemma py_sort_idempotent (l : list Card) :
  py_sort rank_le (py_sort rank_le l) = py_sort rank_le l.
Proof. apply py_sort_sorted, py_sort_Sorted. Qed.

(** Evaluating a sorted copy of a hand is evaluating the hand. *)
Lemma evaluate_hand_sorted (hand : list Card) w :
  evaluate_hand (py_sort rank_le hand) w = evaluate_hand hand w.
Proof.
  unfold evaluate_hand. rewrite !sort_cards_suit. by rewrite py_sort_idempotent.
Qed.

Lemma World_eq w w' :
  same_but_locked w w' → locked w' = locked w → w' = w.
Proof.
  intros (Hn & Ha & Hr) Hl. destruct w, w'; simpl in *. by subst.
Qed.

(** C4, as the specification states it, fails twice over.  The evaluator
    modifies its input: an unsorted list is left sorted.  And a card that
    is locked when the evaluator is called is skipped by the first
    evaluation and used by the second. *)
Lemma evaluate_hand_not_pure :
  (¬ ∀ hand w e w', evaluate_hand hand w = Ok (e, w') → ev_cards e = hand)
  ∧ (¬ ∀ hand w e1 w1 e2 w2,
         evaluate_hand hand w = Ok (e1, w1) →
         evaluate_hand (ev_cards e1) w1 = Ok (e2, w2) →
         ev_sets e2 = ev_sets e1).
Proof.
  split.
  - intros H.
    set (hand := [ {| cid := 1; colour := "red"; suit := "tse"; rank := 4 |};
                   {| cid := 0; colour := "red"; suit := "kuin"; rank := 0 |} ]).
    destruct (evaluate_hand_run hand
                {| next_id := 2; active := ∅; locked := ∅; rand := [] |})
      as (e & w' & Hrun & Hcards & _).
    apply H in Hrun. rewrite Hrun in Hcards. discriminate Hcards.
  - intros H.
    set (hand := [ {| cid := 0; colour := "red"; suit := "kuin"; rank := 0 |} ]).
    set (w := {| next_id := 1; active := ∅; locked := {[ 0%nat ]}; rand := [] |}).
    destruct (evaluate_hand hand w) as [[e1 w1]| |] eqn:H1; [|by vm_compute in H1..].
    destruct (evaluate_hand (ev_cards e1) w1) as [[e2 w2]| |] eqn:H2.
    + specialize (H _ _ _ _ _ _ H1 H2).
      vm_compute in H1. injection H1 as <- <-.
      vm_compute in H2. injection H2 as <- <-.
      discriminate H.
    + vm_compute in H1. injection H1 as <- <-. by vm_compute in H2.
    + vm_compute in H1. injection H1 as <- <-. by vm_compute in H2.
Qed.

(** C4 (amended): [evaluate_hand] ends without error and leaves every
    card of the hand with [locked == False].  Its persistent effects are
    these and no others: the list it was given is sorted in place, stably
    by rank, and the locked flags of the cards of the hand are cleared
    (no card is made active or inactive, no other card is locked or
    unlocked, no random outcome is drawn).  For a hand whose cards are
    all unlocked when it is evaluated, as cards are outside the
    evaluator, the call changes no flag at all, and evaluating the same
    hand once more yields the same found sets, the same hand score and
    the same loose cards. *)
Theorem evaluate_hand_unlocks_and_repeats (hand : list Card) (w : World) :
  ∃ e w', evaluate_hand hand w = Ok (e, w')
    ∧ (∀ c, c ∈ hand → is_locked w' c = false)
    ∧ ev_cards e = py_sort rank_le hand
    ∧ next_id w' = next_id w ∧ active w' = active w ∧ rand w' = rand w
    ∧ locked w' = locked w ∖ list_to_set (cid <$> hand)
    ∧ ((∀ c, c ∈ hand → is_locked w c = false) →
       w' = w ∧ evaluate_hand (ev_cards e) w' = Ok (e, w')).
Proof.
  destruct (evaluate_hand_run hand w)
    as (e & w' & Hrun & Hcards & Hw' & Hl' & _).
  exists e, w'. split; [done|]. split.
  { intros c Hc. unfold is_locked. apply bool_decide_eq_false_2. rewrite Hl'.
    intros [_ Hn]%elem_of_difference. apply Hn.
    apply elem_of_list_to_set. by apply list_elem_of_fmap_2. }
  split; [done|]. destruct Hw' as (Hn & Ha & Hr).
  split; [done|]. split; [done|]. split; [done|]. split; [done|].
  intros Hfree.
  assert (w' = w) as ->.
  { apply World_eq; [done|]. rewrite Hl'. apply set_eq. intros i.
    rewrite elem_of_difference, elem_of_list_to_set. split; [tauto|].
    intros Hi. split; [done|]. intros (c & -> & Hc)%list_elem_of_fmap.
    specialize (Hfree c Hc). unfold is_locked in Hfree.
    by apply bool_decide_eq_false in Hfree. }
  split; [done|]. by rewrite Hcards, evaluate_hand_sorted.
Qed.

(** ** Players *)

Lemma collect_unlock_loop cs acc w :
  ∃ w', for_in cs (λ c collection, _ ← unlock c; mret (collection ++ [c])) acc w
        = Ok (acc ++ cs, w')
        ∧ same_but_locked w w'
        ∧ locked w' = locked w ∖ list_to_set (cid <$> cs).
Proof.
  revert acc w. induction cs as [|c cs IH]; intros acc w.
  - exists w. rewrite app_nil_r. split; [done|]. split; [done|]. set_solver.
  - simpl. erewrite bind_ok; [|reflexivity].
    edestruct (IH (acc ++ [c])) as (w' & -> & (Hn & Ha & Hr) & Hl).
    exists w'. rewrite <- app_assoc. split; [done|]. split; [done|].
    rewrite Hl. simpl. set_solver.
Qed.

(** [update_collection] writes the collection and unlocks the hand. *)
Lemma update_collection_run p w :
  ∃ p' w', update_collection p w = Ok (p', w')
    ∧ same_base p' p
    ∧ hand_sets p' = hand_sets p ∧ hand_score p' = hand_score p
    ∧ lang_pai p' = lang_pai p ∧ total_score p' = total_score p
    ∧ same_but_locked w w'
    ∧ locked w' = locked w ∖ list_to_set (cid <$> hand p).
Proof.
  unfold update_collection.
  destruct (collect_unlock_loop (hand p) [] w) as (w' & Hrun & Hw & Hl).
  erewrite bind_ok; [|exact Hrun]. rewrite sort_cards_suit. cbn [lift].
  erewrite bind_ok; [|reflexivity].
  eexists _, _. split; [reflexivity|]. simpl.
  split; [by repeat split|]. repeat (split; [done|]). done.
Qed.

(** [evaluate_player_hand] always ends; it reads the fields of
    [same_base] only. *)
Lemma evaluate_player_hand_run p w :
  ∃ p' w' e w1, evaluate_player_hand p w = Ok (p', w')
    ∧ evaluate_hand (hand p) w = Ok (e, w1)
    ∧ hand p' = py_sort rank_le (hand p)
    ∧ hand_sets p' = ev_sets e ∧ hand_score p' = ev_score e ∧ lang_pai p' = ev_loose e
    ∧ total_score p' = ev_score e + facedown_score p + melded_score p
    ∧ name p' = name p ∧ field_discards p' = field_discards p
    ∧ field_melded_sets p' = field_melded_sets p
    ∧ facedown_sets p' = facedown_sets p ∧ facedown_score p' = facedown_score p
    ∧ melded_sets p' = melded_sets p ∧ melded_score p' = melded_score p
    ∧ same_but_locked w w'
    ∧ locked w' = locked w ∖ list_to_set (cid <$> hand p).
Proof.
  unfold evaluate_player_hand.
  destruct (evaluate_hand_run (hand p) w)
    as (e & w1 & Hrun & Hcards & Hw1 & Hl1 & _).
  erewrite bind_ok; [|exact Hrun]. cbv zeta.
  edestruct update_collection_run
    as (p' & w' & Hup & (?&?&?&Hh&?&?&?&?) & ? & ? & ? & ? & Hw' & Hl').
  exists p', w', e, w1. split; [exact Hup|]. simpl in *.
  repeat (split; [by (done || congruence)|]).
  split; [by eapply same_but_locked_trans|].
  rewrite Hl', Hl1, Hcards. apply set_eq. intros i.
  rewrite !elem_of_difference, !elem_of_list_to_set, py_sort_Permutation. tauto.
Qed.

Lemma evaluate_player_hand_base p q w :
  same_base p q → evaluate_player_hand p w = evaluate_player_hand q w.
Proof.
  destruct p, q. unfold same_base. simpl.
  intros (-> & -> & -> & -> & -> & -> & -> & ->).
  reflexivity.
Qed.

Lemma evaluate_hand_world hand w e w' :
  (∀ c, c ∈ hand → cid c ∉ locked w) → evaluate_hand hand w = Ok (e, w') → w' = w.
Proof.
  intros Hfree Hrun.
  destruct (evaluate_hand_run hand w) as (e1 & w1 & Hrun1 & _ & Hw & Hl & _).
  rewrite Hrun in Hrun1. simplify_eq. apply World_eq; [done|].
  rewrite Hl. apply set_eq. intros i. rewrite elem_of_difference, elem_of_list_to_set.
  split; [tauto|]. intros Hi. split; [done|].
  intros (c & -> & Hc)%list_elem_of_fmap. by apply (Hfree c).
Qed.

Lemma evaluate_player_hand_world p w p' w' :
  (∀ c, c ∈ hand p → cid c ∉ locked w) →
  evaluate_player_hand p w = Ok (p', w') → w' = w.
Proof.
  intros Hfree Hrun.
  destruct (evaluate_player_hand_run p w)
    as (p1 & w1 & e & w2 & Hrun1 & _ &_&_&_&_&_&_&_&_&_&_&_&_& Hw & Hl).
  rewrite Hrun in Hrun1. simplify_eq.
  apply World_eq; [done|].
  rewrite Hl. apply set_eq. intros i. rewrite elem_of_difference, elem_of_list_to_set.
  split; [tauto|]. intros Hi. split; [done|].
  intros (c & -> & Hc)%list_elem_of_fmap. by apply (Hfree c).
Qed.

(** A player in sync holds unlocked cards. *)
Lemma in_sync_unlocked p w c : in_sync p w → c ∈ hand p → cid c ∉ locked w.
Proof.
  intros Hsync Hc.
  destruct (evaluate_player_hand_run p w)
    as (p1 & w1 & e & w2 & Hrun1 & _ &_&_&_&_&_&_&_&_&_&_&_&_& _ & Hl).
  unfold in_sync in Hsync. rewrite Hsync in Hrun1. simplify_eq.
  rewrite Hl. intros [_ Hn]%elem_of_difference. apply Hn.
  apply elem_of_list_to_set. by apply list_elem_of_fmap_2.
Qed.

Lemma list_remove_sublist {A} (eqb : A → A → bool) x l l' :
  list_remove eqb x l = Ok l' → sublist l' l.
Proof.
  revert l'. induction l as [|y l IH]; intros l'; simpl; [done|].
  destruct (eqb y x).
  - intros [= <-]. by apply sublist_cons.
  - destruct (list_remove eqb x l) as [l''| |]; simpl; [|done..].
    intros [= <-]. by apply sublist_skip, IH.
Qed.

Lemma remove_cards_sublist cs l l' : remove_cards cs l = Ok l' → sublist l' l.
Proof.
  revert l. induction cs as [|c cs IH]; intros l; simpl.
  - by intros [= <-].
  - destruct (list_remove same_object c l) as [l1| |] eqn:H1; simpl; [|done..].
    intros H. etrans; [by apply IH|]. by eapply list_remove_sublist.
Qed.

Lemma list_remove_snoc (s : CardSet) l :
  s ∉ l → list_remove same_set s (l ++ [s]) = Ok l.
Proof.
  induction l as [|y l IH]; simpl; intros Hn.
  - unfold same_set. by rewrite bool_decide_eq_true_2.
  - unfold same_set at 1. rewrite bool_decide_eq_false_2.
    + rewrite IH; [done|]. intros ?. apply Hn. by right.
    + intros ->. apply Hn. by left.
Qed.

Lemma discard_from_Some p cs w r p' w' :
  discard_from p cs w = Ok ((r, p'), w') → ∃ dc, r = Some dc.
Proof.
  unfold discard_from. intros H.
  apply bind_inv in H as (dc & w1 & _ & H).
  apply bind_inv in H as (h & w2 & _ & H).
  apply bind_inv in H as (p1 & w3 & _ & H).
  unfold mret, M_ret in H. simplify_eq. by eexists.
Qed.

(** [discard_card] gives [None] only without touching anything. *)
Lemma discard_card_None p w p' w' :
  discard_card p w = Ok ((None, p'), w') → p' = p ∧ w' = w.
Proof.
  unfold discard_card. intros H.
  repeat case_bool_decide; repeat case_match;
    try (by apply discard_from_Some in H as [? ?]);
    try (by unfold mret, M_ret in H; simplify_eq).
  apply bind_inv in H as (rs & w1 & _ & H).
  apply bind_inv in H as (w2 & w3 & _ & H).
  apply bind_inv in H as (rs' & w4 & _ & H).
  by apply discard_from_Some in H as [? ?].
Qed.

(** *** Melding and rolling back *)

Lemma Set_init_fields w cs s :
  Set_init w cs = Ok s → set_cards s = cs ∧ melded s = contains_active_card w cs.
Proof.
  intros Hs. destruct cs as [|c0 rest]; [done|].
  destruct (Set_init_total w (c0 :: rest)) as (s' & Hs' & ? & ?); [done|].
  rewrite Hs in Hs'. by simplify_eq.
Qed.

Lemma meld_sets_fold fs (p : Player) (h : list Card) (ms : option CardSet) p1 h1 ms1 :
  foldl (λ acc s,
    '(p, h, ms) ← acc;
    if melded s then
      let p := with_melded p (melded_sets p ++ [s]) (melded_score p + score s) in
      h ← remove_cards (set_cards s) h;
      mret (p, h, Some s)
    else mret (p, h, ms)) (Ok (p, h, ms)) fs = Ok (p1, h1, ms1) →
  p1 = with_melded p (melded_sets p ++ List.filter melded fs)
         (melded_score p + foldr (λ s t, score s + t) 0 (List.filter melded fs))
  ∧ ms1 = match last (List.filter melded fs) with Some s => Some s | None => ms end
  ∧ sublist h1 h.
Proof.
  revert p h ms. induction fs as [|s fs IH]; intros p h ms; simpl.
  - intros [= <- <- <-]. split; [|done].
    destruct p; unfold with_melded; simpl. by rewrite app_nil_r, Z.add_0_r.
  - destruct (melded s) eqn:Hm; simpl.
    + destruct (remove_cards (set_cards s) h) as [h'| |] eqn:Hr; simpl.
      * intros H. apply IH in H as (-> & -> & Hsub). simpl.
        split; [|split].
        -- unfold with_melded; simpl. by rewrite <- app_assoc, <- Z.add_assoc.
        -- rewrite last_cons. by destruct (last (List.filter melded fs)).
        -- etrans; [done|]. by eapply remove_cards_sublist.
      * intros H. exfalso. revert H. clear. induction fs as [|s' fs IH]; [done|].
        simpl. exact IH.
      * intros H. exfalso. revert H. clear. induction fs as [|s' fs IH]; [done|].
        simpl. exact IH.
    + apply IH.
Qed.

(** Sets that all hold one card, none sharing a card with another, are
    one set at most. *)
Lemma filter_melded_single (fs : list CardSet) (x : nat) :
  NoDup (set_ids fs) →
  (∀ s, s ∈ fs → melded s = true → x ∈ cid <$> set_cards s) →
  List.filter melded fs = [] ∨ ∃ s, List.filter melded fs = [s].
Proof.
  induction fs as [|s fs IH]; intros Hnd Hx; [by left|].
  change (s :: fs) with ([s] ++ fs) in Hnd.
  rewrite set_ids_app, set_ids_singleton in Hnd.
  apply NoDup_app in Hnd as (_ & Hdisj & Hnd).
  simpl. destruct (melded s) eqn:Hm.
  - right. exists s. f_equal.
    assert (x ∈ cid <$> set_cards s) as Hxs by (apply Hx; [by left|done]).
    clear IH Hnd. induction fs as [|s' fs IH]; [done|]. simpl.
    destruct (melded s') eqn:Hm'.
    + exfalso. apply (Hdisj x Hxs). apply elem_of_set_ids. exists s'.
      split; [by left|]. apply Hx; [right; by left|done].
    + apply IH.
      * intros i Hi Hin. apply (Hdisj i Hi). apply elem_of_set_ids.
        apply elem_of_set_ids in Hin as (s'' & Hin & Hi'). exists s''.
        split; [by right|done].
      * intros s'' [->|Hin]%elem_of_cons; [done|]. intros Hm''.
        apply Hx; [|done]. right. by right.
  - apply IH; [done|]. intros s' Hin. apply Hx. by right.
Qed.

Lemma contains_active_card_elem w cs :
  contains_active_card w cs = true → ∃ c, c ∈ cs ∧ is_active w c = true.
Proof.
  unfold contains_active_card. induction cs as [|c cs IH]; simpl; [done|].
  intros [H|H]%orb_true_iff.
  - exists c. split; [by left|done].
  - destruct (IH H) as (c' & ? & ?). exists c'. split; [by right|done].
Qed.

(** When the player's own cards carry no active flag, only a set that
    holds the active card is melded, and there is one such set at most. *)
Lemma one_melded_set (p : Player) (active_card : Card) w e w1 :
  NoDup (cid <$> (hand p ++ [active_card])) →
  (∀ c, c ∈ hand p → is_active w c = false) →
  evaluate_hand (hand p ++ [active_card]) w = Ok (e, w1) →
  (List.filter melded (ev_sets e) = [] ∨ ∃ s, List.filter melded (ev_sets e) = [s])
  ∧ ∀ s, s ∈ ev_sets e → melded s = true → cid active_card ∈ cid <$> set_cards s.
Proof.
  intros Hnd Hflags Hrun.
  destruct (evaluate_hand_run (hand p ++ [active_card]) w)
    as (e' & w' & Hrun' & _ & _ & _ & Hcom & _).
  rewrite Hrun in Hrun'. simplify_eq.
  assert (∀ s, s ∈ ev_sets e' → melded s = true →
               cid active_card ∈ cid <$> set_cards s) as Hac.
  { intros s Hs Hm.
    pose proof (committed_valid _ _ _ Hcom) as Hvalid.
    rewrite Forall_forall in Hvalid. destruct (Hvalid s Hs) as [_ Hinit].
    apply Set_init_fields in Hinit as [_ Hmelded]. rewrite Hm in Hmelded.
    symmetry in Hmelded. apply contains_active_card_elem in Hmelded as (c & Hc & Hact).
    assert (c ∈ hand p ++ [active_card]) as Hin.
    { rewrite <- (py_sort_Permutation rank_le). eapply committed_sublist; [done|].
      apply elem_of_cards_of. by exists s. }
    apply elem_of_app in Hin as [Hin|Hin].
    - rewrite (Hflags c Hin) in Hact. done.
    - apply list_elem_of_singleton in Hin as ->. by apply list_elem_of_fmap_2. }
  split; [|done]. apply (filter_melded_single _ (cid active_card)); [|done].
  eapply committed_NoDup; [|done]. by rewrite py_sort_Permutation.
Qed.

(** C6: take a player whose derived fields are up to date, whose cards and
    the active card are distinct objects, none of the player's cards being
    marked active, the active card being unlocked and part of no set the
    player has melded.  If [play_turn] commits a meld (the hand with the
    active card evaluates to a better score, or the tok condition holds,
    and a found set is melded), the player then cannot win and
    [discard_card] returns [None], then [play_turn] ends with the player
    exactly as before the call — melded sets, melded score, hand, hand
    sets, loose cards, all scores, collection — and with no flag changed;
    it returns no set, and the active card when [drawn] is true, ['draw']
    when [drawn] is false. *)
Theorem play_turn_rollback (p : Player) (active_card : Card) (drawn : bool) (w : World)
    e w1 p1 h1 s p2 w2 p3 w3 :
  in_sync p w →
  NoDup (cid <$> (hand p ++ [active_card])) →
  (∀ c, c ∈ hand p → is_active w c = false) →
  is_locked w active_card = false →
  cid active_card ∉ set_ids (melded_sets p) →
  evaluate_hand (hand p ++ [active_card]) w = Ok (e, w1) →
  bool_decide (hand_score p < ev_score e) || can_tok p (ev_score e) (ev_loose e) = true →
  meld_sets (ev_sets e) p (ev_cards e) = Ok (p1, h1, Some s) →
  evaluate_player_hand (with_hand p1 h1) w1 = Ok (p2, w2) →
  can_win p2 = false →
  discard_card p2 w2 = Ok ((None, p3), w3) →
  play_turn p (Some active_card) drawn w
  = Ok ((p, None, if drawn then Discard active_card else Draw), w).
Proof.
  intros Hsync Hnd Hflags Hlocked Hfresh Heval Hcrit Hmeld Hplayer Hwin Hdiscard.
  assert (∀ c, c ∈ hand p ++ [active_card] → cid c ∉ locked w) as Hfree.
  { intros c [Hc|Hc]%elem_of_app; [by eapply in_sync_unlocked|].
    apply list_elem_of_singleton in Hc as ->.
    unfold is_locked in Hlocked. by apply bool_decide_eq_false in Hlocked. }
  assert (w1 = w) as -> by (by eapply evaluate_hand_world).
  destruct (one_melded_set p active_card w e w Hnd Hflags Heval) as [Hone Hac].
  pose proof Hmeld as Hfold. unfold meld_sets in Hfold.
  apply meld_sets_fold in Hfold as (Hp1 & Hms & Hsub).
  destruct Hone as [Hnone|[s' Hone]]; [by rewrite Hnone in Hms|].
  rewrite Hone in Hms, Hp1. simpl in Hms, Hp1.
  injection Hms as Heq. subst s' p1.
  assert (ev_cards e = py_sort rank_le (hand p ++ [active_card])) as Hcards.
  { destruct (evaluate_hand_run (hand p ++ [active_card]) w)
      as (e' & w' & Hrun' & Hc & _).
    rewrite Heval in Hrun'. by simplify_eq. }
  assert (w2 = w) as ->.
  { eapply evaluate_player_hand_world; [|exact Hplayer]. simpl.
    intros c Hc. apply Hfree. rewrite <- (py_sort_Permutation rank_le), <- Hcards.
    by eapply elem_of_sublist. }
  pose proof (discard_card_None _ _ _ _ Hdiscard) as [-> ->].
  destruct (evaluate_player_hand_run
              (with_hand (with_melded p (melded_sets p ++ [s])
                            (melded_score p + (score s + 0))) h1) w)
    as (p2' & w2' & e2 & w2'' & Hrun2 & _ & _ & _ & _ & _ & _ & Hn & Hfd & Hfm
        & Hfs & Hfsc & Hmsets & Hmscore & _).
  rewrite Hplayer in Hrun2. injection Hrun2 as <- <-.
  simpl in Hn, Hfd, Hfm, Hfs, Hfsc, Hmsets, Hmscore.
  assert (s ∈ List.filter melded (ev_sets e)) as Hs by (rewrite Hone; by left).
  apply elem_of_filter_bool in Hs as [Hs Hm].
  assert (s ∉ melded_sets p) as Hnew.
  { intros Hin. apply Hfresh. apply elem_of_set_ids. exists s. split; [done|].
    by apply Hac. }
  unfold play_turn. erewrite bind_ok; [|exact Heval]. cbv zeta. cbn [fst snd].
  rewrite Hcrit. cbv beta iota.
  assert (lift (meld_sets (ev_sets e) p (ev_cards e)) w
          = Ok ((with_melded p (melded_sets p ++ [s]) (melded_score p + (score s + 0)),
                 h1, Some s), w)) as Hlift by (by rewrite Hmeld).
  rewrite (bind_ok _ _ _ _ _ Hlift).
  erewrite bind_ok; [|exact Hplayer].
  rewrite Hwin. cbv beta iota.
  erewrite bind_ok; [|exact Hdiscard]. cbv beta iota.
  rewrite Hmsets, list_remove_snoc by done. cbn [lift].
  erewrite bind_ok; [|reflexivity].
  erewrite bind_ok; last first.
  { erewrite evaluate_player_hand_base; [exact Hsync|].
    unfold same_base. simpl. rewrite Hn, Hfd, Hfm, Hfs, Hfsc, Hmscore.
    repeat split; lia. }
  by destruct drawn.
Qed.


(** Solves [l = r] for a closed [l]: evaluates [l], then unifies. *)
Ltac evaluated :=
  match goal with
  | |- ?l = _ => let v := eval vm_compute in l in
                 transitivity v; [vm_compute; reflexivity | reflexivity]
  end.

Lemma play_turn_rollback_witness :
  play_turn rollback_player (Some (tse 3)) false rollback_world
  = Ok ((rollback_player, None, Draw), rollback_world).
Proof.
  eapply (play_turn_rollback rollback_player (tse 3) false rollback_world).
  - vm_compute. reflexivity.
  - apply (bool_decide_unpack _). vm_compute. exact I.
  - intros c Hc. apply bool_decide_eq_false_2.
    simpl in Hc. apply elem_of_cons in Hc as [->|Hc];
      [|apply elem_of_cons in Hc as [->|Hc]; [|by apply elem_of_nil in Hc]];
      simpl; set_solver.
  - apply bool_decide_eq_false_2. simpl. set_solver.
  - simpl. set_solver.
  - evaluated.
  - evaluated.
  - evaluated.
  - evaluated.
  - evaluated.
  - evaluated.
Defined.

(** ** The out-of-turn check *)

Lemma is_identical_set_identical s :
  set_cards s ≠ [] → is_identical_set s = Ok (identical (set_cards s)).
Proof.
  unfold is_identical_set, identical, cards_same_suit, cards_same_colour.
  destruct (set_cards s) as [|c0 rest]; [done|]. intros _.
  cbn [first_card mbind res_bind mret res_ret].
  rewrite same_suit_all_equal, same_colour_all_equal.
  by destruct (all_equal (suit <$> c0 :: rest)).
Qed.

Lemma is_four_colour_set_claims s :
  set_cards s ≠ [] → NoDup (cid <$> set_cards s) →
  is_four_colour_set s = Ok (claims_four_colour (Some s)).
Proof.
  unfold is_four_colour_set, claims_four_colour, cards_same_suit.
  intros Hne Hnd. rewrite cards_unique_colours_NoDup by done.
  destruct (set_cards s) as [|c0 rest] eqn:Hcs; [done|].
  cbn [first_card mbind res_bind mret res_ret].
  rewrite same_suit_all_equal, suit_is_same_suit.
  destruct (all_equal (suit <$> c0 :: rest)), (colours_unique (c0 :: rest)),
    (bool_decide (length (c0 :: rest) = 4%nat)), (bool_decide (suit c0 = "chut"));
    reflexivity.
Qed.

Lemma scan_identical_spec iterations size melds n current cp :
  (cp < n)%nat → length melds = n →
  (∀ s, Some s ∈ melds → set_cards s ≠ []) →
  scan_identical iterations size melds n current cp
  = Ok (match List.find (λ i, claims_identical size (melds !!! i))
                ((λ k, (cp + k) mod n)%nat <$> seq 0 iterations) with
        | Some q => inl (give_priority n current q)
        | None => inr ((cp + iterations) mod n)%nat
        end).
Proof.
  intros Hcp Hlen Hne. revert cp Hcp.
  induction iterations as [|k IH]; intros cp Hcp.
  - simpl. by rewrite Nat.add_0_r, Nat.mod_small.
  - cbn [scan_identical seq fmap list_fmap List.find].
    rewrite Nat.add_0_r, (Nat.mod_small cp n) by done.
    destruct (lookup_lt_is_Some_2 melds cp) as [o Ho]; [lia|].
    unfold item. rewrite Ho. rewrite (list_lookup_total_correct _ _ _ Ho).
    cbn [mbind res_bind].
    assert (match o with
            | Some s => b ← is_identical_set s;
                        mret ((b : bool) && bool_decide (length (set_cards s) = size))
            | None => Ok false
            end = Ok (claims_identical size o)) as ->.
    { destruct o as [s|]; [|done]. rewrite is_identical_set_identical; [done|].
      apply Hne. by eapply list_elem_of_lookup_2. }
    cbn [mbind res_bind]. unfold py_mod.
    rewrite bool_decide_eq_false_2 by lia. cbn [mbind res_bind mret res_ret].
    destruct (claims_identical size o).
    + unfold give_priority. by case_bool_decide.
    + rewrite IH by (apply Nat.mod_upper_bound; lia).
      rewrite <- fmap_S_seq, <- list_fmap_compose.
      assert (∀ l, ((λ k0, ((cp + 1) mod n + k0) mod n)%nat <$> l)
                   = ((λ k0, (cp + k0) mod n)%nat ∘ S <$> l)) as ->.
      { intros l. apply list_fmap_ext. intros _ j _. simpl.
        rewrite Nat.Div0.add_mod_idemp_l. f_equal. lia. }
      rewrite Nat.Div0.add_mod_idemp_l.
      by replace (cp + 1 + k)%nat with (cp + S k)%nat by lia.
Qed.

(** The code's resolution of priorities is the one of the specification. *)
Lemma resolve_oot_priority melds n current :
  (current < n)%nat → length melds = n →
  (∀ s, Some s ∈ melds → set_cards s ≠ [] ∧ NoDup (cid <$> set_cards s)) →
  resolve_oot melds n current = Ok (oot_priority melds n current).
Proof.
  intros Hcur Hlen Hne. unfold resolve_oot, oot_priority, first_claimant, scan_order.
  assert (∀ s, Some s ∈ melds → set_cards s ≠ []) as Hne' by (intros s Hs; by apply Hne).
  rewrite !scan_identical_spec by done. cbn [mbind res_bind].
  destruct (List.find _ _) as [q|]; [done|].
  replace ((current + n) mod n)%nat with current; last first.
  { rewrite <- (Nat.mul_1_l n) at 1. rewrite Nat.Div0.mod_add. by rewrite Nat.mod_small. }
  destruct (lookup_lt_is_Some_2 melds current) as [o Ho]; [lia|].
  unfold item. rewrite Ho. rewrite (list_lookup_total_correct _ _ _ Ho).
  cbn [mbind res_bind].
  assert (match o with
          | Some s => is_four_colour_set s
          | None => Ok false
          end = Ok (claims_four_colour o)) as ->.
  { destruct o as [s|]; [|done].
    destruct (Hne s); [by eapply list_elem_of_lookup_2|].
    by apply is_four_colour_set_claims. }
  cbn [mbind res_bind]. destruct (claims_four_colour o); [done|].
  rewrite scan_identical_spec by done. cbn [mbind res_bind].
  by destruct (List.find _ _).
Qed.

Lemma list_remove_elem (x : CardSet) l :
  x ∈ l → ∃ l', list_remove same_set x l = Ok l'.
Proof.
  induction l as [|y l IH]; intros Hx; [by apply elem_of_nil in Hx|]. simpl.
  unfold same_set at 1. case_bool_decide as Hy; [by eexists|].
  apply elem_of_cons in Hx as [->|Hx]; [done|].
  destruct (IH Hx) as [l' ->]. by eexists.
Qed.

(** [check_meld] always ends; the set it proposes is one of the sets
    found in the hand joined with the active card. *)
Lemma check_meld_run (p : Player) (active_card : Card) w :
  ∃ meld w', check_meld p (Some active_card) w = Ok (meld, w')
    ∧ same_but_locked w w'
    ∧ ∀ s, meld = Some s →
        set_cards s ≠ []
        ∧ sublist (set_cards s) (py_sort rank_le (hand p ++ [active_card])).
Proof.
  unfold check_meld.
  destruct (evaluate_hand_run (hand p ++ [active_card]) w)
    as (e & w' & Hrun & _ & Hw & _ & Hcom & _).
  erewrite bind_ok; [|exact Hrun]. cbv zeta. cbn [fst snd].
  destruct (List.find melded (ev_sets e)) as [ms|] eqn:Hfind.
  2:{ eexists _, _. split; [reflexivity|]. split; [done|]. done. }
  apply find_some in Hfind as [Hin _]. apply list_elem_of_In in Hin.
  destruct (list_remove_elem ms (ev_sets e) Hin) as [fs' Hrem].
  rewrite Hrem. cbn [lift]. erewrite bind_ok; [|reflexivity].
  assert (set_cards ms ≠ []
          ∧ sublist (set_cards ms) (py_sort rank_le (hand p ++ [active_card]))) as Hms.
  { clear Hrem. induction Hcom as [|fs s Hc IH Hsub Hinit _ _].
    - by apply elem_of_nil in Hin.
    - apply elem_of_app in Hin as [Hin|Hin]; [by apply IH|].
      apply list_elem_of_singleton in Hin as ->. split; [|done].
      intros Hnil. rewrite Hnil in Hinit. done. }
  destruct (_ && _); eexists _, _; (split; [reflexivity|]); (split; [done|]);
    intros s [= <-]; done.
Qed.

(** What [check_meld] leaves of the world is what the evaluation of the
    hand joined with the active card leaves of it. *)
Lemma check_meld_evaluate (p : Player) (active_card : Card) w meld w' :
  check_meld p (Some active_card) w = Ok (meld, w') →
  ∃ e, evaluate_hand (hand p ++ [active_card]) w = Ok (e, w').
Proof.
  unfold check_meld. intros H.
  apply bind_inv in H as (e & w1 & He & H). cbv zeta in H. cbn [fst snd] in H.
  exists e. destruct (List.find melded (ev_sets e)) as [ms|].
  - apply bind_inv in H as (fs & w2 & Hfs & H).
    apply lift_inv in Hfs as [_ ->].
    destruct (_ && _); apply mret_inv in H as [_ <-]; done.
  - apply mret_inv in H as [_ <-]. done.
Qed.

Lemma check_meld_world (p : Player) (active_card : Card) w meld w' :
  (∀ c, c ∈ hand p ++ [active_card] → cid c ∉ locked w) →
  check_meld p (Some active_card) w = Ok (meld, w') → w' = w.
Proof.
  intros Hfree [e He]%check_meld_evaluate. by eapply evaluate_hand_world.
Qed.

Lemma check_meld_locked (p : Player) (active_card : Card) w meld w' :
  check_meld p (Some active_card) w = Ok (meld, w') → locked w' ⊆ locked w.
Proof.
  intros [e He]%check_meld_evaluate.
  destruct (evaluate_hand_run (hand p ++ [active_card]) w)
    as (e1 & w1 & Hrun & _ & _ & Hl & _).
  rewrite He in Hrun. simplify_eq. rewrite Hl. set_solver.
Qed.

(** The loop of [check_oot] asks the players one after the other. *)
Lemma check_oot_loop (players : list Player) (ac : Card) oot_sets w :
  for_in players (λ p oot_sets,
      s ← check_meld p (Some ac); mret (oot_sets ++ [s])) oot_sets w
  = match melds_of players ac w with
    | Ok (melds, w') => Ok (oot_sets ++ melds, w')
    | Raise e => Raise e
    | Starved => Starved
    end.
Proof.
  revert oot_sets w. induction players as [|p players IH]; intros oot_sets w.
  - simpl. unfold mret, M_ret. by rewrite app_nil_r.
  - cbn [for_in melds_of]. unfold mbind, M_bind, mret, M_ret.
    destruct (check_meld p (Some ac) w) as [[meld w1]| |]; [|done..].
    rewrite IH.
    destruct (melds_of players ac w1) as [[melds w2]| |]; [|done..].
    by rewrite <- app_assoc.
Qed.

(** Every player gets an answer; an answer is a set of cards of the
    player's hand joined with the active card. *)
Lemma melds_of_run (players : list Player) (ac : Card) w :
  ∃ melds w', melds_of players ac w = Ok (melds, w')
    ∧ same_but_locked w w' ∧ locked w' ⊆ locked w
    ∧ Forall2 (λ p meld, ∀ s, meld = Some s →
                 set_cards s ≠ []
                 ∧ sublist (set_cards s) (py_sort rank_le (hand p ++ [ac])))
              players melds.
Proof.
  revert w. induction players as [|p players IH]; intros w.
  - exists [], w. split; [done|]. split; [done|]. split; [done|]. constructor.
  - destruct (check_meld_run p ac w) as (meld & w1 & Hm & Hw1 & Hmeld).
    destruct (IH w1) as (melds & w2 & Hms & Hw2 & Hl2 & Hall).
    exists (meld :: melds), w2. split.
    { cbn [melds_of]. erewrite bind_ok; [|exact Hm].
      erewrite bind_ok; [|exact Hms]. done. }
    split; [by eapply same_but_locked_trans|]. split.
    { etrans; [exact Hl2|]. by eapply check_meld_locked. }
    by constructor.
Qed.

(** With the cards unlocked, as they are between two evaluations, every
    answer is the one [check_meld] gives in the world of the call, which
    is left as it was. *)
Lemma melds_of_unlocked (players : list Player) (ac : Card) w melds w' :
  (∀ p c, p ∈ players → c ∈ hand p ++ [ac] → cid c ∉ locked w) →
  melds_of players ac w = Ok (melds, w') →
  w' = w ∧ Forall2 (λ p meld, check_meld p (Some ac) w = Ok (meld, w)) players melds.
Proof.
  revert melds. induction players as [|p players IH]; intros melds Hfree.
  - intros [= <- <-]. split; [done|]. constructor.
  - cbn [melds_of]. intros H.
    apply bind_inv in H as (meld & w1 & Hm & H).
    apply bind_inv in H as (melds' & w2 & Hms & H).
    apply mret_inv in H as [<- <-].
    assert (w1 = w) as ->.
    { eapply check_meld_world; [|exact Hm]. intros c. apply Hfree. by left. }
    destruct (IH melds') as [-> Hall]; [|done|].
    { intros q c Hq. apply Hfree. by right. }
    split; [done|]. by constructor.
Qed.

(** On the sample game the third player, who can meld four red tse with
    the active card, is not the natural next player and takes priority. *)
Lemma check_oot_sample :
  ∃ g' w', check_oot oot_game false oot_world = Ok ((OutOfTurn, g'), w')
    ∧ current_player g' = 2%nat.
Proof.
  eexists _, _. split; [evaluated|]. reflexivity.
Qed.

(** C7: for every configuration of players whose cards are distinct, with
    an active card and a current player, [check_oot] ends.  With [melds]
    the sets that [check_meld] proposes for the players, asked one after
    the other from the world of the call (with the cards unlocked, as
    they are between two evaluations: the answers of [check_meld] in that
    very world, which is left as it was), its result and the current
    player afterwards are those of [oot_priority]: the first player,
    scanning in turn order from the current player, who can meld four
    identical cards takes priority, unless that is the natural next
    player, in which case the result is ['meld'] and nobody is
    reassigned; failing that, a four-colour chut counts for the current
    player only and gives ['meld']; failing that, the same scan is made
    for three identical cards; otherwise the result is ['meld'].  Nothing
    but the current player changes; ['meld'] never reassigns, and ['oot']
    is returned only for a first claimant who is not the natural next
    player. *)
Theorem check_oot_priority (g : Game) (drawn : bool) (ac : Card) (w : World) :
  active_card g = Some ac →
  (current_player g < length (players g))%nat →
  (∀ p, p ∈ players g → NoDup (cid <$> (hand p ++ [ac]))) →
  let n := length (players g) in
  let current := current_player g in
  ∃ melds r g' w',
    check_oot g drawn w = Ok ((r, g'), w')
    ∧ melds_of (players g) ac w = Ok (melds, w')
    ∧ ((∀ p c, p ∈ players g → c ∈ hand p ++ [ac] → cid c ∉ locked w) →
       w' = w
       ∧ Forall2 (λ p meld, check_meld p (Some ac) w = Ok (meld, w))
                 (players g) melds)
    ∧ (r, current_player g') = oot_priority melds n current
    ∧ g' = with_current_player g (current_player g')
    ∧ (r = Meld → current_player g' = current)
    ∧ (r = OutOfTurn →
         current_player g' ≠ ((current + 1) mod n)%nat
         ∧ (first_claimant 4 melds n current = Some (current_player g')
            ∨ (first_claimant 4 melds n current = None
               ∧ claims_four_colour (melds !!! current) = false
               ∧ first_claimant 3 melds n current = Some (current_player g')))).
Proof.
  intros Hac Hcur Hnd n current. unfold check_oot. rewrite Hac.
  destruct (melds_of_run (players g) ac w) as (melds & w' & Hms & _ & _ & Hall).
  assert (∀ s, Some s ∈ melds → set_cards s ≠ [] ∧ NoDup (cid <$> set_cards s))
    as Hsets.
  { intros s (k & Hk)%list_elem_of_lookup_1.
    destruct (Forall2_lookup_r _ _ _ _ _ Hall Hk) as (p & Hp & Hmeld).
    destruct (Hmeld s) as [Hne Hsub]; [done|]. split; [done|].
    eapply sublist_NoDup; [|by apply fmap_sublist].
    rewrite py_sort_Permutation. apply Hnd. by eapply list_elem_of_lookup_2. }
  pose proof (Forall2_length _ _ _ Hall) as Hlen.
  erewrite bind_ok; [|by rewrite check_oot_loop, Hms].
  rewrite app_nil_l.
  rewrite resolve_oot_priority; [|done|done|done]. cbn [lift].
  erewrite bind_ok; [|reflexivity]. fold n current.
  destruct (oot_priority melds n current) as [r cp] eqn:Hprio.
  exists melds, r, (with_current_player g cp), w'.
  split; [done|]. split; [done|].
  split; [intros Hfree; by apply melds_of_unlocked|].
  split; [done|]. split; [done|]. simpl.
  revert Hprio. unfold oot_priority, give_priority.
  destruct (first_claimant 4 melds n current) as [q|] eqn:H4.
  { case_bool_decide; intros [= <- <-]; (split; [done|]); intros; try done.
    split; [done|]. by left. }
  destruct (claims_four_colour (melds !!! current)) eqn:Hchut.
  { intros [= <- <-]. done. }
  destruct (first_claimant 3 melds n current) as [q|] eqn:H3.
  { case_bool_decide; intros [= <- <-]; (split; [done|]); intros; try done.
    split; [done|]. by right. }
  intros [= <- <-]. done.
Qed.

Lemma check_oot_priority_witness :
  let g := oot_game in
  let ac := tse 4 in
  let w := oot_world in
  let n := length (players g) in
  let current := current_player g in
  ∃ melds r g' w',
    check_oot g false w = Ok ((r, g'), w')
    ∧ melds_of (players g) ac w = Ok (melds, w')
    ∧ ((∀ p c, p ∈ players g → c ∈ hand p ++ [ac] → cid c ∉ locked w) →
       w' = w
       ∧ Forall2 (λ p meld, check_meld p (Some ac) w = Ok (meld, w))
                 (players g) melds)
    ∧ (r, current_player g') = oot_priority melds n current
    ∧ g' = with_current_player g (current_player g')
    ∧ (r = Meld → current_player g' = current)
    ∧ (r = OutOfTurn →
         current_player g' ≠ ((current + 1) mod n)%nat
         ∧ (first_claimant 4 melds n current = Some (current_player g')
            ∨ (first_claimant 4 melds n current = None
               ∧ claims_four_colour (melds !!! current) = false
               ∧ first_claimant 3 melds n current = Some (current_player g')))).
Proof.
  intros g ac w. apply (check_oot_priority g false ac w).
  - reflexivity.
  - simpl. lia.
  - intros p Hp. apply (bool_decide_unpack _).
    simpl in Hp. repeat (apply elem_of_cons in Hp as [->|Hp]);
      [..|by apply elem_of_nil in Hp]; vm_compute; exact I.
Defined.

(** ** Replenishing the deck *)

Lemma foldl_snoc_app {A} (l k : list A) : foldl (λ cs c, cs ++ [c]) l k = l ++ k.
Proof.
  revert l. induction k as [|x k IH]; intros l; simpl; [by rewrite app_nil_r|].
  by rewrite IH, <- app_assoc.
Qed.

Lemma shuffle_from_Permutation {A} (i : nat) (x x' : list A) w w' :
  shuffle_from i x w = Ok (x', w') → x' ≡ₚ x.
Proof.
  revert x w. induction i as [|i IH]; intros x w; simpl.
  - by intros [<- _]%mret_inv.
  - intros (j & w1 & _ & Hs)%bind_inv. apply IH in Hs.
    by rewrite Hs, swap_Permutation.
Qed.

(** When the deck is empty and the discard pile is not, every discarded
    card is put into the deck, the deck is shuffled, and the discard pile
    is left as it was. *)
Lemma replenish_deck_keeps_discards g w g' w' :
  replenish_deck g w = Ok (Some g', w') →
  discards g' = discards g
  ∧ players g' = players g ∧ active_card g' = active_card g
  ∧ (cards (deck g) = [] → cards (deck g') ≡ₚ discards g)
  ∧ (cards (deck g) ≠ [] → deck g' = deck g).
Proof.
  unfold replenish_deck. case_bool_decide as Hd.
  - case_bool_decide as Hp; [by intros [??]%mret_inv|].
    intros (d & w1 & Hs & [[= <-] _]%mret_inv)%bind_inv.
    unfold shuffle_deck in Hs.
    apply bind_inv in Hs as (cs & w2 & Hs & [<- _]%mret_inv). simpl in *.
    repeat split; try done.
    + intros Hnil. rewrite Hnil, foldl_snoc_app in Hs. simpl in Hs.
      by eapply shuffle_from_Permutation.
    + intros Hne. by destruct (cards (deck g)).
  - intros [[= <-] _]%mret_inv. repeat split; try done.
    intros Hnil. by rewrite Hnil in Hd.
Qed.

(** The deck is given up only when deck and discard pile are both empty. *)
Lemma replenish_deck_exit g w w' :
  replenish_deck g w = Ok (None, w') → cards (deck g) = [] ∧ discards g = [].
Proof.
  unfold replenish_deck. case_bool_decide as Hd.
  - case_bool_decide as Hp.
    + intros _. split; by apply length_zero_iff_nil.
    + intros (d & w1 & _ & [[=] _]%mret_inv)%bind_inv.
  - by intros [[=] _]%mret_inv.
Qed.

Ltac inv_run H :=
  repeat first
    [ discriminate H
    | apply mret_inv in H as [? ?]
    | apply bind_inv in H as (? & ? & ? & H)
    | match type of H with
      | (if ?b then _ else _) _ = Ok _ => destruct b eqn:?
      | (match ?x with _ => _ end) _ = Ok _ => destruct x eqn:?
      | (let '(_, _) := ?x in _) _ = Ok _ => destruct x eqn:?
      end ].

Lemma finish_turn_not_exit g oot_turn ms x w r g' w' :
  finish_turn g oot_turn ms x w = Ok ((r, g'), w') → r ≠ Exit.
Proof.
  unfold finish_turn. intros H. inv_run H; by simplify_eq.
Qed.

(** A step ends with ['exit'] only when the deck and the discard pile
    are both empty. *)
Lemma conduct_turn_exit g oot_turn w g' w' :
  conduct_turn g oot_turn w = Ok ((Exit, g'), w') →
  cards (deck g) = [] ∧ discards g = [].
Proof.
  unfold conduct_turn. intros H.
  apply bind_inv in H as (p & w1 & _ & H).
  destruct (_ && _).
  { inv_run H; by simplify_eq. }
  apply bind_inv in H as (r & w2 & Hr & H).
  destruct r as [g1|].
  - exfalso. inv_run H; simplify_eq;
      try (by eapply finish_turn_not_exit).
  - by apply replenish_deck_exit in Hr.
Qed.

(** ** A game that exhausts its deck *)

(** A player who was offered a drawn card never asks for another one, so
    a step always has a card to make active when it finishes a turn. *)
Lemma play_turn_drawn_no_draw p active_card w p' ms x w' :
  play_turn p active_card true w = Ok ((p', ms, x), w') → x ≠ Draw.
Proof.
  unfold play_turn. intros H. destruct active_card as [c|]; [|done].
  apply bind_inv in H as (e & w1 & _ & H). cbv zeta in H. cbn [fst snd] in H.
  inv_run H; by simplify_eq.
Qed.

Lemma card_report_inv r n d s b :
  card_report r = Some (n, d, s, b) →
  ∃ g w, r = Ok (g, w) ∧ length (all_cards g) = n ∧ length (cards (deck g)) = d
    ∧ length (discards g) = s ∧ bool_decide (NoDup (cid <$> all_cards g)) = b.
Proof.
  destruct r as [[g w]| |]; intros H; [|discriminate H..].
  injection H as <- <- <- <-. by exists g, w.
Qed.

Lemma turns_report_inv r0 turns x :
  turns_report r0 turns = Some x →
  ∃ g0 w0, r0 = Ok (g0, w0) ∧ card_report (game_turns turns g0 false w0) = Some x.
Proof.
  destruct r0 as [[g0 w0]| |]; intros H; [|discriminate H..]. by exists g0, w0.
Qed.

Lemma replenishment_report_inv r0 turns d s r d' s' b :
  replenishment_report r0 turns = Some (d, s, r, d', s', b) →
  ∃ g0 w0 g w g' w',
    r0 = Ok (g0, w0) ∧ game_turns turns g0 false w0 = Ok (g, w)
    ∧ conduct_turn g false w = Ok ((r, g'), w')
    ∧ length (cards (deck g)) = d ∧ length (discards g) = s
    ∧ length (cards (deck g')) = d' ∧ length (discards g') = s'
    ∧ bool_decide (take (length (discards g)) (discards g') = discards g) = b.
Proof.
  unfold replenishment_report.
  destruct r0 as [[g0 w0]| |]; [|discriminate..].
  destruct (game_turns turns g0 false w0) as [[g w]| |] eqn:Hrun; [|discriminate..].
  destruct (conduct_turn g false w) as [[[r1 g'] w']| |] eqn:Hstep; [|discriminate..].
  intros [= <- <- <- <- <- <-].
  exists g0, w0, g, w, g', w'. repeat split; assumption || reflexivity.
Qed.

Lemma exhausting_deal_reported :
  card_report (setup_game false false [Player_init "Player 0"] exhausting_world)
  = Some (112, 91, 0, true)%nat.
Proof. vm_compute. reflexivity. Qed.

Lemma exhausting_turns_reported :
  turns_report (setup_game false false [Player_init "Player 0"] exhausting_world) 93
  = Some (203, 90, 92, false)%nat.
Proof. vm_compute. reflexivity. Qed.

Lemma exhausting_replenishment_reported :
  replenishment_report
    (setup_game false false [Player_init "Player 0"] exhausting_world) 92
  = Some (0, 91, Next, 90, 92, true)%nat.
Proof. vm_compute. reflexivity. Qed.

(** C1 fails on the code.  In the one-player game dealt in
    [exhausting_world] all 112 cards are accounted for, each once, after
    the deal.  After 92 steps of [conduct_turn] the deck is empty and the
    discard pile holds 91 cards; the next step replenishes the deck and
    leaves the discard pile as it is: the state then holds 203 cards, the
    91 discarded cards twice. *)
Theorem conservation_lost_on_replenishment :
  ∃ g0 w0 g w,
    setup_game false false [Player_init "Player 0"] exhausting_world = Ok (g0, w0)
    ∧ length (all_cards g0) = 112%nat ∧ NoDup (cid <$> all_cards g0)
    ∧ game_turns 93 g0 false w0 = Ok (g, w)
    ∧ length (all_cards g) = 203%nat ∧ ¬ NoDup (cid <$> all_cards g).
Proof.
  destruct (card_report_inv _ _ _ _ _ exhausting_deal_reported)
    as (g0 & w0 & Hdeal & Hlen0 & _ & _ & Hnd0).
  destruct (turns_report_inv _ _ _ exhausting_turns_reported)
    as (g0' & w0' & Hdeal' & Hrun).
  rewrite Hdeal in Hdeal'. injection Hdeal' as <- <-.
  destruct (card_report_inv _ _ _ _ _ Hrun) as (g & w & Hturns & Hlen & _ & _ & Hnd).
  apply bool_decide_eq_true in Hnd0. apply bool_decide_eq_false in Hnd.
  exists g0, w0, g, w. repeat split; assumption.
Qed.

(** C2 fails on the code.  After 92 steps of the same game the deck is
    empty and the discard pile holds 91 cards.  The next step of
    [conduct_turn] puts them into the deck and draws one, but the discard
    pile is not emptied: it still holds its 91 cards, followed by the
    card given up in this step, and deck and discard pile together hold
    182 cards where they held 91. *)
Theorem replenishment_keeps_discards :
  ∃ g0 w0 g w g' w',
    setup_game false false [Player_init "Player 0"] exhausting_world = Ok (g0, w0)
    ∧ game_turns 92 g0 false w0 = Ok (g, w)
    ∧ cards (deck g) = [] ∧ length (discards g) = 91%nat
    ∧ conduct_turn g false w = Ok ((Next, g'), w')
    ∧ take 91 (discards g') = discards g
    ∧ length (discards g') = 92%nat
    ∧ (length (cards (deck g')) + length (discards g') = 182)%nat.
Proof.
  destruct (replenishment_report_inv _ _ _ _ _ _ _ _ exhausting_replenishment_reported)
    as (g0 & w0 & g & w & g' & w' & Hdeal & Hrun & Hstep
        & Hdeck & Hdiscards & Hdeck' & Hdiscards' & Hprefix).
  apply bool_decide_eq_true in Hprefix. rewrite Hdiscards in Hprefix.
  apply length_zero_iff_nil in Hdeck.
  exists g0, w0, g, w, g', w'. repeat split; try assumption. lia.
Qed.

(** * Further properties of the code *)

(** ** Cards *)

Lemma valid_kinds c s :
  c ∈ validColours → s ∈ validSuits → (s, c) ∈ kinds.
Proof.
  intros Hc Hs. unfold kinds. apply list_elem_of_bind. exists s. split; [|done].
  apply list_elem_of_bind. exists c. split; [|done]. apply list_elem_of_singleton. done.
Qed.

Lemma kinds_ranked :
  Forall (λ k, calculate_rank k.2 k.1 = Ok (kind_rank k) ∧ 0 ≤ kind_rank k ≤ 27) kinds
  ∧ NoDup (kind_rank <$> kinds).
Proof.
  split.
  - unfold kinds. cbn [mbind list_bind validSuits validColours app].
    repeat (apply Forall_cons; split;
            [split; [vm_compute; reflexivity | vm_compute; split; discriminate]|]).
    apply Forall_nil. done.
  - apply (bool_decide_unpack _). vm_compute. exact I.
Qed.

(** X1 (Card.calculate_rank): on the valid colours and suits the rank is
    defined, lies between 0 and 27, and tells the kinds apart: two cards
    have the same rank only if they agree in colour and in suit. *)
Theorem calculate_rank_range_injective (c s c' s' : string) :
  c ∈ validColours → s ∈ validSuits → c' ∈ validColours → s' ∈ validSuits →
  ∃ r r', calculate_rank c s = Ok r ∧ calculate_rank c' s' = Ok r'
    ∧ 0 ≤ r ≤ 27 ∧ (r = r' → c = c' ∧ s = s').
Proof.
  intros Hc Hs Hc' Hs'.
  destruct kinds_ranked as [Hr Hnd]. rewrite Forall_forall in Hr.
  pose proof (valid_kinds c s Hc Hs) as Hk.
  pose proof (valid_kinds c' s' Hc' Hs') as Hk'.
  destruct (Hr _ Hk) as [He Hrange]. destruct (Hr _ Hk') as [He' _].
  exists (kind_rank (s, c)), (kind_rank (s', c')).
  split; [done|]. split; [done|]. split; [done|].
  intros Heq. pose proof (NoDup_fmap_inj_on kind_rank kinds _ _ Hnd Hk Hk' Heq).
  by simplify_eq.
Qed.

Lemma calculate_rank_range_injective_witness :
  ∃ r r', calculate_rank "green" "chut" = Ok r ∧ calculate_rank "red" "kuin" = Ok r'
    ∧ 0 ≤ r ≤ 27 ∧ (r = r' → "green"%string = "red"%string ∧ "chut"%string = "kuin"%string).
Proof.
  apply (calculate_rank_range_injective "green" "chut" "red" "kuin");
    apply (bool_decide_unpack _); vm_compute; exact I.
Defined.

Lemma set_flag_spec (b : bool) (i j : nat) (X : gset nat) :
  j ∈ set_flag b i X ↔ (j = i ∧ b = true) ∨ (j ≠ i ∧ j ∈ X).
Proof.
  unfold set_flag. destruct b.
  - rewrite elem_of_union, elem_of_singleton.
    destruct (decide (j = i)); naive_solver.
  - rewrite elem_of_difference, elem_of_singleton. naive_solver.
Qed.

Lemma Card_init_kind c s act w :
  (s, c) ∈ kinds →
  Card_init (Some c) (Some s) act w =
    Ok ({| cid := next_id w; colour := c; suit := s; rank := kind_rank (s, c) |},
        {| next_id := S (next_id w); active := set_flag act (next_id w) (active w);
           locked := set_flag false (next_id w) (locked w); rand := rand w |}).
Proof.
  intros Hk. destruct kinds_ranked as [Hr _]. rewrite Forall_forall in Hr.
  destruct (Hr _ Hk) as [He _]. simpl in He.
  unfold kinds in Hk. apply list_elem_of_bind in Hk as (s1 & Hk & Hs).
  apply list_elem_of_bind in Hk as (c1 & Hk & Hc).
  apply list_elem_of_singleton in Hk. simplify_eq.
  unfold Card_init. cbn [py_in]. rewrite !bool_decide_eq_true_2 by done.
  cbn [andb]. by rewrite He.
Qed.

(** X2 (Card.__init__, valid arguments): a card asked for in a valid
    colour and suit is a new object of that colour and suit whose rank
    lies between 0 and 27 (it is never the stand-in of rank 100); it is
    unlocked, active exactly if asked so, and building it uses no
    randomness and changes the flags of no other card. *)
Theorem Card_init_valid_card (c s : string) (act : bool) (w : World) :
  c ∈ validColours → s ∈ validSuits →
  ∃ card w', Card_init (Some c) (Some s) act w = Ok (card, w')
    ∧ colour card = c ∧ suit card = s ∧ 0 ≤ rank card ≤ 27
    ∧ cid card = next_id w ∧ next_id w' = S (next_id w)
    ∧ is_active w' card = act ∧ is_locked w' card = false
    ∧ rand w' = rand w
    ∧ (∀ i, i ≠ cid card → (i ∈ active w' ↔ i ∈ active w) ∧ (i ∈ locked w' ↔ i ∈ locked w)).
Proof.
  intros Hc Hs. pose proof (valid_kinds c s Hc Hs) as Hk.
  rewrite (Card_init_kind c s act w Hk).
  destruct kinds_ranked as [Hr _]. rewrite Forall_forall in Hr.
  destruct (Hr _ Hk) as [_ Hrange].
  eexists _, _. split; [reflexivity|]. cbn [colour suit rank cid next_id rand].
  do 5 (split; [done|]). split; [|split; [|split; [done|]]].
  - unfold is_active. cbn [cid active]. destruct act.
    + apply bool_decide_eq_true_2, set_flag_spec. by left.
    + apply bool_decide_eq_false_2. rewrite set_flag_spec. naive_solver.
  - unfold is_locked. cbn [cid locked]. apply bool_decide_eq_false_2.
    rewrite set_flag_spec. naive_solver.
  - intros i Hi. cbn [cid active locked]. rewrite !set_flag_spec. naive_solver.
Qed.

Lemma Card_init_valid_card_witness :
  let w := {| next_id := 7; active := {[ 2%nat ]}; locked := {[ 3%nat ]}; rand := [5%nat] |} in
  ∃ card w', Card_init (Some "white"%string) (Some "mah"%string) true w = Ok (card, w')
    ∧ colour card = "white"%string ∧ suit card = "mah"%string ∧ 0 ≤ rank card ≤ 27
    ∧ cid card = next_id w ∧ next_id w' = S (next_id w)
    ∧ is_active w' card = true ∧ is_locked w' card = false
    ∧ rand w' = rand w
    ∧ (∀ i, i ≠ cid card → (i ∈ active w' ↔ i ∈ active w) ∧ (i ∈ locked w' ↔ i ∈ locked w)).
Proof.
  intros w. apply (Card_init_valid_card "white" "mah" true w);
    apply (bool_decide_unpack _); vm_compute; exact I.
Defined.

(** ** Fresh decks *)

Lemma kinds_lookup (k k' : nat) (i j : string) :
  validSuits !! k = Some i → validColours !! k' = Some j →
  kinds !! (4 * k + k')%nat = Some (i, j).
Proof.
  intros Hi Hj.
  do 7 (destruct k as [|k];
        [do 4 (destruct k' as [|k']; [by simplify_eq/=|]); done|]).
  done.
Qed.

Lemma freshly_built_start w :
  freshly_built w [] []
    {| next_id := S (next_id w); active := set_flag false (next_id w) (active w);
       locked := set_flag false (next_id w) (locked w); rand := rand w |}.
Proof.
  unfold freshly_built. cbn [next_id active locked rand length].
  split; [done|]. split; [done|]. split; [done|]. split; [lia|]. split; [done|].
  split; intros i; rewrite set_flag_spec; split.
  - intros [[_ ?]|[? ?]]; [done|]. split; [done|]. lia.
  - intros [? ?]. right. split; [lia|done].
  - intros [[_ ?]|[? ?]]; [done|]. split; [done|]. lia.
  - intros [? ?]. right. split; [lia|done].
Qed.

Lemma freshly_built_step w ks cs w1 s c :
  freshly_built w ks cs w1 → (s, c) ∈ kinds →
  ∃ c' w2, Card_init (Some c) (Some s) false w1 = Ok (c', w2)
    ∧ freshly_built w (ks ++ [(s, c)]) (cs ++ [c']) w2.
Proof.
  intros (Hk & Hr & Hid & Hn & Hrand & Ha & Hl) Hin.
  rewrite (Card_init_kind c s false w1 Hin). eexists _, _. split; [reflexivity|].
  unfold freshly_built. cbn [next_id active locked rand].
  rewrite !fmap_app, length_app, seq_app. cbn [fmap list_fmap length seq].
  split; [by rewrite Hk|]. split.
  { apply Forall_app. split; [done|]. by repeat constructor. }
  split.
  { rewrite Hid. cbn [cid]. do 2 f_equal. lia. }
  split; [lia|]. split; [done|].
  split; intros i; rewrite set_flag_spec; [rewrite Ha|rewrite Hl]; split.
  - intros [[_ ?]|[? [? ?]]]; [done|]. split; [done|]. lia.
  - intros [? ?]. right. split; [lia|]. split; [done|]. lia.
  - intros [[_ ?]|[? [? ?]]]; [done|]. split; [done|]. lia.
  - intros [? ?]. right. split; [lia|]. split; [done|]. lia.
Qed.

(** The cards of a new deck: [n] cards of each kind, kind after kind. *)
Lemma populate_deck_run (ndecks : Z) w :
  ∃ cs w', populate_deck ndecks w = Ok (cs, w')
    ∧ freshly_built w (kinds ≫= replicate (Z.to_nat (4 * ndecks))) cs w'.
Proof.
  unfold populate_deck. erewrite bind_ok; [|reflexivity].
  set (N := Z.to_nat (4 * ndecks)).
  pose proof (freshly_built_start w) as H0.
  set (w0 := {| next_id := S (next_id w) |}) in *. clearbody w0.
  edestruct (for_in_inv
    (λ k (cs : list Card) w', freshly_built w (take (4 * k) kinds ≫= replicate N) cs w')
    validSuits) as (cs & w' & -> & Hinv); [exact H0| |].
  - intros k i cs1 w1 Hi H1.
    edestruct (for_in_inv
      (λ k' (cs : list Card) w',
         freshly_built w (take (4 * k + k') kinds ≫= replicate N) cs w')
      validColours) as (cs2 & w2 & -> & H2).
    { by rewrite Nat.add_0_r. }
    + intros k' j cs2 w2 Hj H2.
      pose proof (kinds_lookup k k' i j Hi Hj) as Hkind.
      edestruct (for_in_inv
        (λ k'' (cs : list Card) w',
           freshly_built w ((take (4 * k + k') kinds ≫= replicate N) ++ replicate k'' (i, j))
             cs w')
        (range (4 * ndecks))) as (cs3 & w3 & -> & H3).
      { by rewrite app_nil_r. }
      * intros k'' x cs3 w3 _ H3.
        destruct (freshly_built_step w _ cs3 w3 i j H3) as (c' & w4 & Hc & H4).
        { by eapply list_elem_of_lookup_2. }
        eexists _, _. split.
        { erewrite bind_ok; [|exact Hc]. reflexivity. }
        by rewrite replicate_S_end, app_assoc.
      * eexists _, _. split; [done|].
        unfold range in H3. rewrite length_seq in H3. fold N in H3.
        replace (4 * k + S k')%nat with (S (4 * k + k')) by lia.
        rewrite (take_S_r _ _ _ Hkind), bind_app. cbn [mbind list_bind]. by rewrite app_nil_r.
    + eexists _, _. split; [done|].
      replace (4 * S k)%nat with (4 * k + length validColours)%nat by (simpl; lia). done.
  - eexists _, _. split; [done|]. by rewrite take_ge in Hinv by (simpl; lia).
Qed.

Lemma length_bind_replicate {A} (l : list A) n :
  length (l ≫= replicate n) = (length l * n)%nat.
Proof.
  induction l as [|x l IH]; [done|].
  rewrite bind_cons, length_app, length_replicate, IH. simpl. lia.
Qed.

Lemma Sorted_bind_replicate (l : list Z) n :
  StronglySorted Z.le l → StronglySorted Z.le (l ≫= replicate n).
Proof.
  induction 1 as [|x l Hl IH Hx]; [constructor|].
  rewrite bind_cons. apply StronglySorted_app_2.
  - intros y z Hy Hz. apply elem_of_replicate in Hy as [-> _].
    apply list_elem_of_bind in Hz as (z' & Hz & Hz').
    apply elem_of_replicate in Hz as [-> _].
    rewrite Forall_forall in Hx. by apply Hx.
  - clear. induction n as [|n IH]; simpl; constructor; [done|].
    apply Forall_forall. intros y Hy. apply elem_of_replicate in Hy as [-> _]. lia.
  - done.
Qed.

Lemma Sorted_rank (cs : list Card) :
  StronglySorted Z.le (rank <$> cs) → Sorted (λ a b, rank a ≤ rank b) cs.
Proof.
  induction cs as [|c cs IH]; [constructor|].
  rewrite fmap_cons. intros H. apply StronglySorted_inv in H as [H1 H2].
  constructor; [by apply IH|].
  destruct cs as [|c' cs]; constructor.
  rewrite fmap_cons in H2. by apply Forall_cons in H2 as [? _].
Qed.

Lemma freshly_built_ranks w ks cs w' :
  freshly_built w ks cs w' → rank <$> cs = kind_rank <$> ks.
Proof.
  intros (Hk & Hr & _). rewrite <- Hk, <- list_fmap_compose.
  apply list_fmap_ext. intros i c Hc. rewrite Forall_forall in Hr.
  apply Hr. by eapply list_elem_of_lookup_2.
Qed.

Lemma fmap_bind_replicate {A B} (f : A → B) (l : list A) n :
  f <$> (l ≫= replicate n) = (f <$> l) ≫= replicate n.
Proof.
  induction l as [|x l IH]; [done|].
  rewrite fmap_cons, !bind_cons, fmap_app, IH, fmap_replicate. done.
Qed.

Lemma filter_replicate {A} (P : A → bool) m y :
  List.filter P (replicate m y) = if P y then replicate m y else [].
Proof.
  induction m as [|m IH]; simpl; [by destruct (P y)|].
  rewrite IH. by destruct (P y).
Qed.

Lemma filter_bind_replicate_absent {A} `{EqDecision A} (k : A) (l : list A) n :
  k ∉ l → List.filter (λ k', bool_decide (k' = k)) (l ≫= replicate n) = [].
Proof.
  induction l as [|y l IH]; intros Hk; [done|].
  apply not_elem_of_cons in Hk as [Hne Hk].
  rewrite bind_cons, List.filter_app, IH, app_nil_r by done.
  rewrite filter_replicate. by rewrite bool_decide_eq_false_2.
Qed.

Lemma count_bind_replicate {A} `{EqDecision A} (k : A) (l : list A) n :
  NoDup l → k ∈ l →
  length (List.filter (λ k', bool_decide (k' = k)) (l ≫= replicate n)) = n.
Proof.
  induction l as [|x l IH]; intros Hnd Hin; [by apply elem_of_nil in Hin|].
  apply NoDup_cons in Hnd as [Hx Hnd].
  rewrite bind_cons, List.filter_app, length_app, filter_replicate.
  apply elem_of_cons in Hin as [->|Hin].
  - rewrite bool_decide_eq_true_2 by done.
    rewrite filter_bind_replicate_absent by done.
    rewrite length_replicate. simpl. lia.
  - rewrite bool_decide_eq_false_2 by (intros ->; done). simpl. by apply IH.
Qed.

(** X3 (Deck.populate_deck): a new deck lists the 28 kinds of card suit
    by suit and, within a suit, colour by colour, with [4 * ndecks] cards
    of each kind in a row.  The cards are new objects, all different,
    none of them active or locked; no randomness is used, and the flags
    of the cards that existed before are left alone. *)
Theorem populate_deck_composition (ndecks : Z) (w : World) :
  ∃ cs w', populate_deck ndecks w = Ok (cs, w')
    ∧ kind <$> cs = (kinds ≫= replicate (Z.to_nat (4 * ndecks)))
    ∧ (∀ k, k ∈ kinds →
         length (List.filter (λ c, bool_decide (kind c = k)) cs) = Z.to_nat (4 * ndecks))
    ∧ NoDup (cid <$> cs)
    ∧ (∀ c, c ∈ cs → (next_id w < cid c < next_id w')%nat
                     ∧ is_active w' c = false ∧ is_locked w' c = false)
    ∧ rand w' = rand w
    ∧ (∀ i, (i < next_id w)%nat →
         (i ∈ active w' ↔ i ∈ active w) ∧ (i ∈ locked w' ↔ i ∈ locked w)).
Proof.
  destruct (populate_deck_run ndecks w) as (cs & w' & Hrun & Hb).
  exists cs, w'. split; [done|].
  destruct Hb as (Hk & Hr & Hid & Hn & Hrand & Ha & Hl).
  split; [done|]. split; [|split; [|split; [|split; [done|]]]].
  - intros k Hin.
    pose proof (count_bind_replicate k kinds (Z.to_nat (4 * ndecks))) as Hcount.
    rewrite <- Hcount; [|by apply (bool_decide_unpack _); vm_compute|done].
    rewrite <- Hk. clear. induction cs as [|c cs IH]; [done|].
    rewrite fmap_cons. simpl. destruct (bool_decide (kind c = k)); simpl; by rewrite IH.
  - rewrite Hid. apply NoDup_seq.
  - intros c Hc.
    assert (cid c ∈ cid <$> cs) as Hin by (by apply list_elem_of_fmap_2).
    rewrite Hid, elem_of_seq in Hin.
    split; [lia|]. unfold is_active, is_locked.
    split; apply bool_decide_eq_false_2; [rewrite Ha|rewrite Hl]; lia.
  - intros i Hi. rewrite Ha, Hl. split; split; try tauto; intros; split; try done; lia.
Qed.

Lemma kinds_ranks_sorted : StronglySorted Z.le (kind_rank <$> kinds).
Proof. apply (bool_decide_unpack _). vm_compute. exact I. Qed.

(** X4 (Deck.populate_deck, Deck.sort_deck): a new deck comes out in the
    order of the ranks, so that sorting it changes nothing. *)
Theorem populate_deck_sorted (n : Z) (w : World) :
  ∃ cs w', populate_deck n w = Ok (cs, w')
    ∧ Sorted (λ a b, rank a ≤ rank b) cs
    ∧ sort_deck {| ndecks := n; cards := cs |} = {| ndecks := n; cards := cs |}.
Proof.
  destruct (populate_deck_run n w) as (cs & w' & Hrun & Hb).
  exists cs, w'. split; [done|].
  assert (Sorted (λ a b, rank a ≤ rank b) cs) as Hs.
  { apply Sorted_rank. rewrite (freshly_built_ranks _ _ _ _ Hb), fmap_bind_replicate.
    apply Sorted_bind_replicate, kinds_ranks_sorted. }
  split; [done|]. unfold sort_deck. cbn [cards ndecks]. by rewrite py_sort_sorted.
Qed.

Lemma insert_sorted_filter_rank (r : Z) (x : Card) (l : list Card) :
  List.filter (λ c, bool_decide (rank c = r)) (insert_sorted rank_le x l)
  = List.filter (λ c, bool_decide (rank c = r)) (x :: l).
Proof.
  induction l as [|y l IH]; [done|].
  cbn [insert_sorted]. unfold rank_le at 1. case_bool_decide as Hxy; [done|].
  cbn [List.filter] in *. rewrite IH.
  repeat case_bool_decide; try done; lia.
Qed.

Lemma py_sort_stable (r : Z) (l : list Card) :
  List.filter (λ c, bool_decide (rank c = r)) (py_sort rank_le l)
  = List.filter (λ c, bool_decide (rank c = r)) l.
Proof.
  induction l as [|x l IH]; [done|].
  cbn [py_sort foldr]. fold (py_sort rank_le l).
  rewrite insert_sorted_filter_rank. cbn [List.filter]. by rewrite IH.
Qed.

(** X5 (Deck.sort_deck): sorting a deck puts its cards in the order of
    their ranks, keeps every card and the number of decks, leaves cards of
    equal rank in the order they had, and has no further effect when
    repeated. *)
Theorem sort_deck_sorted (d : Deck) :
  Sorted (λ a b, rank a ≤ rank b) (cards (sort_deck d))
  ∧ cards (sort_deck d) ≡ₚ cards d
  ∧ ndecks (sort_deck d) = ndecks d
  ∧ (∀ r, List.filter (λ c, bool_decide (rank c = r)) (cards (sort_deck d))
          = List.filter (λ c, bool_decide (rank c = r)) (cards d))
  ∧ sort_deck (sort_deck d) = sort_deck d.
Proof.
  unfold sort_deck. cbn [cards ndecks].
  split; [apply py_sort_Sorted|]. split; [apply py_sort_Permutation|].
  split; [done|]. split; [intros r; apply py_sort_stable|].
  by rewrite py_sort_idempotent.
Qed.

(** ** Shuffling and drawing *)

(** X6 (Deck.shuffle_deck): with enough random outcomes at hand, a shuffle
    returns the same cards in some order; it takes one outcome less than
    there are cards, and changes neither the number of decks nor any
    card. *)
Theorem shuffle_deck_permutation (d : Deck) (w : World) :
  (length (cards d) - 1 ≤ length (rand w))%nat →
  ∃ d' w', shuffle_deck d w = Ok (d', w')
    ∧ cards d' ≡ₚ cards d ∧ ndecks d' = ndecks d
    ∧ rand w' = drop (length (cards d) - 1) (rand w)
    ∧ next_id w' = next_id w ∧ active w' = active w ∧ locked w' = locked w.
Proof.
  intros Hlen. unfold shuffle_deck.
  destruct (random_shuffle_ok (cards d) w Hlen) as (cs & Hs & Hp).
  erewrite bind_ok; [|exact Hs]. by eexists _, _.
Qed.

Lemma shuffle_deck_permutation_witness :
  let d := {| ndecks := 1; cards := [tse 1; kee 2; tse 3] |} in
  let w := {| next_id := 4; active := ∅; locked := ∅; rand := [5; 1; 7]%nat |} in
  ∃ d' w', shuffle_deck d w = Ok (d', w')
    ∧ cards d' ≡ₚ cards d ∧ ndecks d' = ndecks d
    ∧ rand w' = drop (length (cards d) - 1) (rand w)
    ∧ next_id w' = next_id w ∧ active w' = active w ∧ locked w' = locked w.
Proof. intros d w. apply (shuffle_deck_permutation d w). simpl. lia. Defined.

(** X7 (Deck.draw_active_card): from an empty deck nothing is drawn and
    nothing changes; otherwise the last card of the deck is taken off,
    made active and returned, be it the only card left, and nothing else
    changes. *)
Theorem draw_active_card_spec (d : Deck) (w : World) :
  (cards d = [] → draw_active_card d false w = Ok ((None, d), w))
  ∧ (∀ cs c, cards d = cs ++ [c] →
       ∃ w', draw_active_card d false w
             = Ok ((Some c, {| ndecks := ndecks d; cards := cs |}), w')
         ∧ is_active w' c = true
         ∧ active w' = {[cid c]} ∪ active w
         ∧ next_id w' = next_id w ∧ locked w' = locked w ∧ rand w' = rand w).
Proof.
  unfold draw_active_card. split.
  - intros Hd. erewrite bind_ok; [|reflexivity]. rewrite Hd. cbn [length].
    rewrite bool_decide_eq_true_2 by lia. by destruct d; simplify_eq/=.
  - intros cs c Hd. erewrite bind_ok; [|reflexivity]. rewrite Hd.
    rewrite bool_decide_eq_false_2 by (rewrite length_app; simpl; lia).
    rewrite pop_snoc. eexists. split; [reflexivity|]. cbn [active next_id locked rand].
    split; [|done]. unfold is_active. cbn [active].
    apply bool_decide_eq_true_2. set_solver.
Qed.

(** X8 (Deck.reshuffle_deck): whatever cards the deck holds, reshuffling
    throws them away and builds the full deck anew: [4 * ndecks] new cards
    of each of the 28 kinds, all different objects created by this call,
    in some order. *)
Theorem reshuffle_deck_rebuilds (d : Deck) (w : World) :
  (28 * Z.to_nat (4 * ndecks d) - 1 ≤ length (rand w))%nat →
  ∃ d' w', reshuffle_deck d w = Ok (d', w')
    ∧ ndecks d' = ndecks d
    ∧ length (cards d') = (28 * Z.to_nat (4 * ndecks d))%nat
    ∧ kind <$> cards d' ≡ₚ kinds ≫= replicate (Z.to_nat (4 * ndecks d))
    ∧ NoDup (cid <$> cards d')
    ∧ (∀ c, c ∈ cards d' → (next_id w < cid c < next_id w')%nat).
Proof.
  intros Hlen. unfold reshuffle_deck.
  destruct (populate_deck_run (ndecks d) w) as (cs & w1 & Hrun & Hb).
  erewrite bind_ok; [|exact Hrun].
  destruct Hb as (Hk & Hr & Hid & Hn & Hrand & Ha & Hl).
  assert (length cs = (28 * Z.to_nat (4 * ndecks d))%nat) as Hcs.
  { rewrite <- (length_fmap kind), Hk, length_bind_replicate. done. }
  unfold shuffle_deck. cbn [cards ndecks].
  destruct (random_shuffle_ok cs w1) as (cs' & Hs & Hp).
  { rewrite Hrand, Hcs. done. }
  erewrite bind_ok; [|exact Hs].
  eexists _, _. split; [reflexivity|]. cbn [cards ndecks next_id].
  split; [done|]. split; [by rewrite Hp|]. split; [by rewrite Hp, Hk|].
  split.
  { rewrite Hp, Hid. apply NoDup_seq. }
  intros c Hc. rewrite Hp in Hc.
  assert (cid c ∈ cid <$> cs) as Hin by (by apply list_elem_of_fmap_2).
  rewrite Hid, elem_of_seq in Hin. lia.
Qed.

Lemma reshuffle_deck_rebuilds_witness :
  let d := {| ndecks := 1; cards := [tse 1] |} in
  let w := {| next_id := 2; active := ∅; locked := ∅; rand := repeat 0%nat 111 |} in
  ∃ d' w', reshuffle_deck d w = Ok (d', w')
    ∧ ndecks d' = ndecks d
    ∧ length (cards d') = (28 * Z.to_nat (4 * ndecks d))%nat
    ∧ kind <$> cards d' ≡ₚ kinds ≫= replicate (Z.to_nat (4 * ndecks d))
    ∧ NoDup (cid <$> cards d')
    ∧ (∀ c, c ∈ cards d' → (next_id w < cid c < next_id w')%nat).
Proof. intros d w. apply (reshuffle_deck_rebuilds d w). vm_compute. lia. Defined.

(** ** Sorting cards *)

(** X9 (sort_cards, by suit): unless asked to sort by colour, [sort_cards]
    never fails; it leaves its argument sorted by rank and returns that
    same list, which holds the cards it held before, cards of equal rank
    in the order they had. *)
Theorem sort_cards_by_suit (cs : list Card) (by_ : string) :
  by_ ≠ "colour"%string →
  ∃ l, sort_cards cs by_ = Ok (l, l)
    ∧ Sorted (λ a b, rank a ≤ rank b) l
    ∧ l ≡ₚ cs
    ∧ (∀ r, List.filter (λ c, bool_decide (rank c = r)) l
            = List.filter (λ c, bool_decide (rank c = r)) cs).
Proof.
  intros Hby. unfold sort_cards. rewrite bool_decide_eq_false_2 by done.
  exists (py_sort rank_le cs). split; [done|].
  split; [apply py_sort_Sorted|]. split; [apply py_sort_Permutation|].
  intros r. apply py_sort_stable.
Qed.

Lemma sort_cards_by_suit_witness :
  ∃ l, sort_cards [kee 1; tse 2; tse 3] "suit" = Ok (l, l)
    ∧ Sorted (λ a b, rank a ≤ rank b) l
    ∧ l ≡ₚ [kee 1; tse 2; tse 3]
    ∧ (∀ r, List.filter (λ c, bool_decide (rank c = r)) l
            = List.filter (λ c, bool_decide (rank c = r)) [kee 1; tse 2; tse 3]).
Proof. apply (sort_cards_by_suit [kee 1; tse 2; tse 3] "suit"). discriminate. Defined.

Lemma foldl_filter_app {A} (P : A → bool) (acc l : list A) :
  foldl (λ acc j, if P j then acc ++ [j] else acc) acc l = acc ++ List.filter P l.
Proof.
  revert acc. induction l as [|x l IH]; intros acc; simpl; [by rewrite app_nil_r|].
  rewrite IH. destruct (P x); [|done]. by rewrite <- app_assoc.
Qed.

Lemma by_colour_Permutation (l : list Card) :
  validColours ≫= (λ col, List.filter (λ j, bool_decide (colour j = col)) l)
  ≡ₚ List.filter (λ j, bool_decide (colour j ∈ validColours)) l.
Proof.
  induction l as [|x l IH]; [done|].
  unfold validColours in *. cbn [mbind list_bind List.filter] in *.
  rewrite !app_nil_r in *.
  destruct (decide (colour x ∈ ["red"; "yellow"; "white"; "green"]%string)) as [Hin|Hout].
  - rewrite (bool_decide_eq_true_2 _ Hin).
    repeat (apply elem_of_cons in Hin as [Hin|Hin]); [..|by apply elem_of_nil in Hin];
      rewrite Hin; repeat case_bool_decide; try done;
      rewrite <- IH; cbn [app]; by rewrite <- ?Permutation_middle.
  - rewrite (bool_decide_eq_false_2 _ Hout).
    repeat (apply not_elem_of_cons in Hout as [? Hout]).
    by rewrite !bool_decide_eq_false_2 by done.
Qed.

(** X10 (sort_cards, by colour): sorting an empty list by colour raises
    IndexError.  On any other list the argument is left sorted by rank,
    and the list returned holds, colour after colour in the order red,
    yellow, white, green, the cards of that colour in rank order: the
    cards of a valid colour are all there, and a card of any other colour
    (the stand-in for an invalid card) is left out. *)
Theorem sort_cards_by_colour (cs : list Card) :
  (cs = [] → sort_cards cs "colour" = Raise IndexError)
  ∧ (cs ≠ [] →
     ∃ l, sort_cards cs "colour" = Ok (py_sort rank_le cs, l)
       ∧ l = validColours ≫=
               (λ col, List.filter (λ j, bool_decide (colour j = col)) (py_sort rank_le cs))
       ∧ l ≡ₚ List.filter (λ j, bool_decide (colour j ∈ validColours)) cs
       ∧ (length l ≤ length cs)%nat).
Proof.
  split; [by intros ->|]. intros Hne.
  assert (Hlen : length (py_sort rank_le cs) = length cs).
  { by rewrite py_sort_Permutation. }
  unfold sort_cards. rewrite bool_decide_eq_true_2 by done.
  destruct (py_sort rank_le cs) as [|c0 rest] eqn:Hs.
  { destruct cs; [done|discriminate Hlen]. }
  cbn [first_card mbind res_bind mret res_ret].
  eexists. split; [reflexivity|].
  set (sorted := c0 :: rest) in *.
  assert (foldl (λ sorted_cards i,
            foldl (λ sorted_cards j,
                     if bool_decide (colour j = i) then sorted_cards ++ [j]
                     else sorted_cards) sorted_cards sorted) [] validColours
          = validColours ≫=
              (λ col, List.filter (λ j, bool_decide (colour j = col)) sorted)) as ->.
  { unfold validColours. cbn [foldl mbind list_bind].
    rewrite !(foldl_filter_app (λ j, bool_decide (colour j = _))).
    by rewrite app_nil_l, app_nil_r, <- !app_assoc. }
  split; [done|].
  assert (validColours ≫=
            (λ col, List.filter (λ j, bool_decide (colour j = col)) sorted)
          ≡ₚ List.filter (λ j, bool_decide (colour j ∈ validColours)) cs) as Hp.
  { rewrite by_colour_Permutation. subst sorted. rewrite <- Hs.
    assert (∀ (P : Card → bool) l1 l2, l1 ≡ₚ l2 → List.filter P l1 ≡ₚ List.filter P l2) as Hf.
    { intros P l1 l2 H. induction H; simpl; try destruct (P x); try destruct (P y);
        try done; try (by constructor); try (by f_equiv). by etrans. }
    apply Hf, py_sort_Permutation. }
  split; [done|]. rewrite Hp.
  clear. induction cs as [|x cs IH]; simpl; [done|].
  destruct (bool_decide _); simpl; lia.
Qed.

(** ** Tests on lists of cards *)

Lemma forallb_all_eq {A} `{EqDecision A} (f : Card → A) (c0 : Card) (rest : list Card) :
  forallb (λ i, bool_decide (f i = f c0)) (c0 :: rest) = true
  ↔ ∀ a b, a ∈ c0 :: rest → b ∈ c0 :: rest → f a = f b.
Proof.
  split.
  - intros H a b Ha Hb. apply Is_true_true_2, forallb_True in H.
    rewrite Forall_forall in H.
    pose proof (bool_decide_unpack _ (H a Ha)). pose proof (bool_decide_unpack _ (H b Hb)).
    congruence.
  - intros H. apply Is_true_true_1, forallb_True, Forall_forall. intros a Ha.
    apply bool_decide_pack, H; [done|]. by left.
Qed.

(** X11 (cards_same_colour, cards_same_suit): on an empty list both tests
    raise IndexError; on any other list they succeed and tell whether all
    the cards have one colour, respectively one suit. *)
Theorem cards_same_colour_suit_spec (cs : list Card) :
  (cs = [] → cards_same_colour cs = Raise IndexError
             ∧ cards_same_suit cs = Raise IndexError)
  ∧ (cs ≠ [] →
     ∃ sc ss, cards_same_colour cs = Ok sc ∧ cards_same_suit cs = Ok ss
       ∧ (sc = true ↔ ∀ a b, a ∈ cs → b ∈ cs → colour a = colour b)
       ∧ (ss = true ↔ ∀ a b, a ∈ cs → b ∈ cs → suit a = suit b)).
Proof.
  split; [by intros ->|]. intros Hne. destruct cs as [|c0 rest]; [done|].
  unfold cards_same_colour, cards_same_suit.
  cbn [first_card mbind res_bind mret res_ret].
  eexists _, _. split; [reflexivity|]. split; [reflexivity|].
  split; apply forallb_all_eq.
Qed.

(** X12 (cards_unique_colours): among distinct card objects the test
    holds exactly if no two cards have the same colour, and then there
    are at most as many cards as colours they are taken from.  Cards are
    compared by identity: a list that names one card several times
    passes the test. *)
Theorem cards_unique_colours_spec (cs : list Card) :
  (NoDup (cid <$> cs) →
     (cards_unique_colours cs = true ↔ NoDup (colour <$> cs))
     ∧ (cards_unique_colours cs = true →
        ∀ colours, (∀ c, c ∈ cs → colour c ∈ colours) →
                   (length cs ≤ length colours)%nat))
  ∧ (∀ c n, cards_unique_colours (replicate n c) = true).
Proof.
  split.
  - intros Hnd. rewrite cards_unique_colours_NoDup by done. unfold colours_unique.
    split; [apply bool_decide_eq_true|].
    intros Hu%bool_decide_eq_true colours Hin.
    rewrite <- (length_fmap colour). apply submseteq_length, NoDup_submseteq; [done|].
    intros x Hx. apply list_elem_of_fmap in Hx as (c & -> & Hc). by apply Hin.
  - intros c n. unfold cards_unique_colours.
    apply Is_true_true_1, forallb_True, Forall_forall. intros i Hi.
    apply forallb_True, Forall_forall. intros j Hj.
    apply elem_of_replicate in Hi as [-> _]. apply elem_of_replicate in Hj as [-> _].
    unfold same_object. by rewrite bool_decide_eq_true_2.
Qed.

(** X14 (is_identical_set): the test looks at the cards of the set only;
    it raises IndexError for a set without cards and otherwise tells
    whether all the cards agree in suit and in colour. *)
Theorem is_identical_set_spec (s : CardSet) :
  (set_cards s = [] → is_identical_set s = Raise IndexError)
  ∧ (set_cards s ≠ [] →
     ∃ b, is_identical_set s = Ok b
       ∧ (b = true ↔ ∀ x y, x ∈ set_cards s → y ∈ set_cards s →
                            suit x = suit y ∧ colour x = colour y)).
Proof.
  unfold is_identical_set, cards_same_suit, cards_same_colour.
  destruct (set_cards s) as [|c0 rest]; split; try done. intros _.
  cbn [first_card mbind res_bind mret res_ret].
  pose proof (forallb_all_eq suit c0 rest) as Hs.
  pose proof (forallb_all_eq colour c0 rest) as Hc.
  destruct (forallb (λ i, bool_decide (suit i = suit c0)) (c0 :: rest)).
  - eexists. split; [reflexivity|]. rewrite Hc. naive_solver.
  - eexists. split; [reflexivity|]. split; [done|]. intros H.
    apply Hs. intros x y Hx Hy. by apply H.
Qed.

(** X15 (is_four_colour_set): for a set of distinct cards the test holds
    exactly if the set has four cards, all of them chut, no two of the
    same colour. *)
Theorem is_four_colour_set_spec (s : CardSet) :
  set_cards s ≠ [] → NoDup (cid <$> set_cards s) →
  ∃ b, is_four_colour_set s = Ok b
    ∧ (b = true ↔ length (set_cards s) = 4%nat
                  ∧ (∀ c, c ∈ set_cards s → suit c = "chut"%string)
                  ∧ NoDup (colour <$> set_cards s)).
Proof.
  intros Hne Hnd. rewrite is_four_colour_set_claims by done.
  eexists. split; [reflexivity|]. unfold claims_four_colour, suit_is, colours_unique.
  rewrite !andb_true_iff, !bool_decide_eq_true.
  rewrite <- Is_true_true, forallb_True, Forall_forall.
  split.
  - intros [[? Hs] ?]. split; [done|]. split; [|done].
    intros c Hc. apply (bool_decide_unpack _), Hs, Hc.
  - intros (? & Hs & ?). split; [split; [done|]|done].
    intros c Hc. apply bool_decide_pack, Hs, Hc.
Qed.

Lemma is_four_colour_set_spec_witness :
  let chut i col := {| cid := i; colour := col; suit := "chut"; rank := 24 + Z.of_nat i |} in
  let s := {| set_cards := [chut 0 "red"; chut 1 "yellow"; chut 2 "white"; chut 3 "green"]%nat;
              melded := false; invalid := false; same_colour := false; same_suit := true;
              unique_colours := true; score := 4 |} in
  ∃ b, is_four_colour_set s = Ok b
    ∧ (b = true ↔ length (set_cards s) = 4%nat
                  ∧ (∀ c, c ∈ set_cards s → suit c = "chut"%string)
                  ∧ NoDup (colour <$> set_cards s)).
Proof.
  intros chut s. apply (is_four_colour_set_spec s).
  - discriminate.
  - apply (bool_decide_unpack _). vm_compute. exact I.
Defined.

(** ** Sets *)

Lemma sorted_suits_length (l k : list string) :
  sorted_suits l = sorted_suits k → length l = length k.
Proof.
  unfold sorted_suits. intros H.
  rewrite <- (Permutation_length (py_sort_Permutation String.leb l)), H.
  by rewrite py_sort_Permutation.
Qed.

(** The scores [evaluate_score] can give, with the number of cards each
    one tells. *)
Lemma evaluate_score_values (cs : list Card) (m sc ss uc : bool) v inv :
  evaluate_score cs m sc ss uc = Ok (v, inv) →
  (v = -1 ∧ inv = true)
  ∨ (inv = false
     ∧ ((v = 8 ∧ m = false ∧ length cs = 4%nat) ∨ (v = 6 ∧ m = true ∧ length cs = 4%nat)
        ∨ (v = 4 ∧ length cs = 4%nat)
        ∨ (v = 3 ∧ m = false ∧ length cs = 3%nat) ∨ (v = 2 ∧ length cs = 3%nat)
        ∨ (v = 1 ∧ length cs = 3%nat) ∨ (v = 0 ∧ length cs = 2%nat)
        ∨ (v = 1 ∧ length cs = 1%nat))).
Proof.
  unfold evaluate_score. destruct cs as [|c0 rest]; [done|].
  cbn [first_card mbind res_bind mret res_ret]. cbv zeta.
  set (cs := c0 :: rest).
  lazymatch goal with
  | |- match or_else ?a (or_else ?b ?c) with _ => _ end = _ → _ =>
      set (A := a); set (B := b); set (C := c)
  end.
  assert (∀ x, A = Some x →
            (x = 8 ∧ m = false ∧ length cs = 4%nat) ∨ (x = 6 ∧ m = true ∧ length cs = 4%nat)
            ∨ (x = 4 ∧ length cs = 4%nat) ∨ (x = 3 ∧ m = false ∧ length cs = 3%nat)
            ∨ (x = 1 ∧ length cs = 3%nat) ∨ (x = 0 ∧ length cs = 2%nat)) as HA.
  { subst A. intros x.
    destruct (ss && negb (bool_decide (suit c0 = "kuin"))); [|done].
    destruct sc, (uc && bool_decide (suit c0 = "chut")); repeat case_bool_decide;
      destruct m; cbn [or_else]; intros; simplify_eq; tauto. }
  assert (∀ x, B = Some x → (x = 2 ∨ x = 1) ∧ length cs = 3%nat) as HB.
  { subst B. intros x. destruct sc; [|done].
    case_bool_decide as H1.
    { apply sorted_suits_length in H1. rewrite length_fmap in H1.
      intros; simplify_eq. split; [by left|]. subst cs. simpl. lia. }
    case_bool_decide as H2; [|done].
    apply sorted_suits_length in H2. rewrite length_fmap in H2.
    intros; simplify_eq. split; [by right|]. subst cs. simpl. lia. }
  assert (∀ x, C = Some x → x = 1 ∧ length cs = 1%nat) as HC.
  { subst C. intros x.
    destruct (bool_decide (suit c0 = "kuin") && bool_decide (length cs = 1%nat)) eqn:Hk;
      [|done].
    apply andb_true_iff in Hk as [_ Hk%bool_decide_eq_true]. intros; by simplify_eq. }
  clearbody A B C. unfold mret, res_ret.
  destruct A as [a|]; cbn [or_else].
  { intros [= <- <-]. right. split; [done|].
    destruct (HA _ eq_refl) as [?|[?|[?|[?|[?|?]]]]]; tauto. }
  destruct B as [b|]; cbn [or_else].
  { intros [= <- <-]. right. split; [done|].
    destruct (HB _ eq_refl) as [[->| ->] ?]; tauto. }
  destruct C as [c|]; cbn [or_else].
  { intros [= <- <-]. right. split; [done|].
    destruct (HC _ eq_refl) as [-> ?]. tauto. }
  intros [= <- <-]. by left.
Qed.

(** X13 (Set.__init__, Set.evaluate_score): building a set from an empty
    list raises IndexError; from any other list it succeeds.  The score is
    one of -1, 0, 1, 2, 3, 4, 6, 8, and it bounds the size of the set: 8,
    6 and 4 are given to four cards only, 3 and 2 to three cards, 0 to two
    cards, 1 to three cards or to one, so that a set of more than four
    cards is always invalid.  A set that holds the active card never
    scores 8 or 3. *)
Theorem Set_init_scores (w : World) (cs : list Card) :
  (cs = [] → Set_init w cs = Raise IndexError)
  ∧ (cs ≠ [] →
     ∃ s, Set_init w cs = Ok s ∧ set_cards s = cs
       ∧ score s ∈ [-1; 0; 1; 2; 3; 4; 6; 8]
       ∧ (score s ∈ [8; 6; 4] → length cs = 4%nat)
       ∧ (score s ∈ [3; 2] → length cs = 3%nat)
       ∧ (score s = 0 → length cs = 2%nat)
       ∧ (score s = 1 → length cs = 3%nat ∨ length cs = 1%nat)
       ∧ ((4 < length cs)%nat → score s = -1 ∧ invalid s = true)
       ∧ (melded s = true → score s ≠ 8 ∧ score s ≠ 3)).
Proof.
  split; [by intros ->|]. intros Hne.
  destruct (Set_init_total w cs Hne) as (s & Hs & Hcs & Hm).
  exists s. split; [done|]. split; [done|].
  unfold Set_init in Hs.
  apply res_bind_inv in Hs as (sc & _ & Hs). apply res_bind_inv in Hs as (ss & _ & Hs).
  apply res_bind_inv in Hs as ([v inv] & Hv & Hs).
  cbn [mret res_ret] in Hs. injection Hs as <-. cbn [score invalid melded] in *.
  apply evaluate_score_values in Hv.
  rewrite !elem_of_cons, !elem_of_nil.
  destruct Hv as [[-> ->]|[-> Hv]]; [naive_solver lia|].
  destruct_or!; destruct_and!; subst v; repeat split; intros; try lia;
    try (destruct_or!; (lia || done || (by left) || (by right) || tauto));
    try congruence; try tauto.
Qed.

Lemma identical_not_unique (cs : list Card) :
  identical cs = true → colours_unique cs = true → (length cs ≤ 1)%nat.
Proof.
  unfold identical, colours_unique. intros [_ Ha]%andb_true_iff Hu%bool_decide_eq_true.
  destruct cs as [|x [|y cs]]; simpl; [lia..|]. exfalso.
  rewrite !fmap_cons in Ha, Hu. cbn [all_equal forallb] in Ha.
  apply andb_true_iff in Ha as [Hy%bool_decide_eq_true _].
  apply NoDup_cons in Hu as [Hx _]. apply Hx. rewrite Hy. by left.
Qed.

Lemma all_equal_elem (l : list string) x y :
  all_equal l = true → x ∈ l → y ∈ l → x = y.
Proof.
  destruct l as [|z l]; [by intros _ ?%elem_of_nil|].
  cbn [all_equal]. intros H%Is_true_true_2%forallb_True. rewrite Forall_forall in H.
  assert (∀ u, u ∈ z :: l → u = z) as Hz.
  { intros u [->|Hu]%elem_of_cons; [done|]. by apply (bool_decide_unpack _), H. }
  intros Hx Hy. by rewrite (Hz x Hx), (Hz y Hy).
Qed.

Lemma identical_not_consecutive (cs : list Card) (a b : string) (rest : list string) :
  a ≠ b → identical cs = true → suits_are (a :: b :: rest) cs = true → False.
Proof.
  unfold identical, suits_are. intros Hab [Hs _]%andb_true_iff Hp%bool_decide_eq_true.
  apply Hab. apply (all_equal_elem (suit <$> cs)); [done|..]; rewrite Hp.
  - by left.
  - right. by left.
Qed.

(** X16 (evaluate_hand, the tests of its tiers): for distinct cards, the
    score of a set tells what the evaluator takes it for.  The score is 8
    or 6 exactly for four identical cards that are not kuin, 4 exactly
    for four chut of four colours, 0 exactly for two identical cards that
    are not kuin; and three cards of one suit and colour score 3 or 1
    exactly if they are not kuin. *)
Theorem score_identifies_set (w : World) (cs : list Card) (s : CardSet) :
  NoDup (cid <$> cs) → Set_init w cs = Ok s →
  (score s ∈ [8; 6] ↔ length cs = 4%nat ∧ identical cs = true ∧ non_kuin cs = true)
  ∧ (score s = 4 ↔ length cs = 4%nat ∧ suit_is "chut" cs = true ∧ colours_unique cs = true)
  ∧ (score s = 0 ↔ length cs = 2%nat ∧ identical cs = true ∧ non_kuin cs = true)
  ∧ (length cs = 3%nat → identical cs = true →
     (score s ∈ [3; 1] ↔ non_kuin cs = true)).
Proof.
  intros Hnd Hs.
  assert (cs ≠ []) as Hne by (by intros ->).
  destruct (Set_init_score w cs Hne Hnd) as (s' & Hs' & _ & _ & Hsc & _).
  rewrite Hs in Hs'. injection Hs' as <-. rewrite Hsc, table_score_rows.
  pose proof (identical_not_unique cs) as Hex.
  pose proof (identical_not_consecutive cs "kuin" "tse" ["xiong"%string]) as Hx1.
  pose proof (identical_not_consecutive cs "kee" "mah" ["pau"%string]) as Hx2.
  pose proof (suits_are_length ["kuin"; "tse"; "xiong"]%string cs) as Hl1.
  pose proof (suits_are_length ["kee"; "mah"; "pau"]%string cs) as Hl2.
  cbn [length] in Hl1, Hl2.
  rewrite !elem_of_cons, !elem_of_nil.
  destruct (bool_decide_reflect (length cs = 4%nat)) as [H4|H4];
  destruct (bool_decide_reflect (length cs = 3%nat)) as [H3|H3];
  destruct (bool_decide_reflect (length cs = 2%nat)) as [H2|H2];
  destruct (bool_decide_reflect (length cs = 1%nat)) as [H1|H1];
  try lia; cbn [andb];
  repeat (match goal with
          | |- context [if ?b && _ then _ else _] => destruct b eqn:?; cbn [andb]
          | |- context [if ?b then _ else _] => destruct b eqn:?
          end);
  first [ solve [intuition (lia || congruence)]
        | exfalso; by apply Hx1
        | exfalso; by apply Hx2
        | exfalso; specialize (Hex eq_refl eq_refl); lia ].
Qed.

Lemma score_identifies_set_witness :
  let cs := [tse 1; tse 2; tse 3] in
  let s := {| set_cards := cs; melded := true; invalid := false; same_colour := true;
              same_suit := true; unique_colours := false; score := 1 |} in
  (score s ∈ [8; 6] ↔ length cs = 4%nat ∧ identical cs = true ∧ non_kuin cs = true)
  ∧ (score s = 4 ↔ length cs = 4%nat ∧ suit_is "chut" cs = true ∧ colours_unique cs = true)
  ∧ (score s = 0 ↔ length cs = 2%nat ∧ identical cs = true ∧ non_kuin cs = true)
  ∧ (length cs = 3%nat → identical cs = true →
     (score s ∈ [3; 1] ↔ non_kuin cs = true)).
Proof.
  intros cs s. apply (score_identifies_set rollback_world cs s).
  - apply (bool_decide_unpack _). vm_compute. exact I.
  - vm_compute. reflexivity.
Defined.

Lemma set_found_spec (su col test_colour : string) (cards : list Card) (b0 : bool) :
  foldl (λ (set_found : bool) c,
           if bool_decide (col = "all") then
             if negb (bool_decide (suit c = su))
                || negb (bool_decide (colour c = test_colour))
             then false else set_found
           else if negb (bool_decide (suit c = su))
                   || negb (bool_decide (colour c = col))
           then false else set_found) b0 cards = true
  ↔ b0 = true
    ∧ ∀ c, c ∈ cards →
        suit c = su ∧ colour c = (if bool_decide (col = "all") then test_colour else col).
Proof.
  revert b0. induction cards as [|c cards IH]; intros b0; cbn [foldl].
  - split; [intros ->; split; [done|]; by intros c ?%elem_of_nil|by intros [-> _]].
  - rewrite IH. setoid_rewrite elem_of_cons.
    destruct (bool_decide (col = "all"));
      destruct (bool_decide_reflect (suit c = su)); cbn [negb orb];
      try destruct (bool_decide_reflect (colour c = test_colour));
      try destruct (bool_decide_reflect (colour c = col)); cbn [negb orb]; naive_solver.
Qed.

(** X17 (exists_identical_set): asked for sets of a size other than 0, the
    search never fails; it tells whether some set of the list has the
    given number of cards, all of the given suit and all of the given
    colour - or, when the colour asked for is 'all', all of the colour of
    the first card of that set. *)
Theorem exists_identical_set_spec (sets : list CardSet) (size : Z) (su col : string) :
  size ≠ 0 →
  ∃ b, exists_identical_set sets size su col = Ok b
    ∧ (b = true ↔
       ∃ s c0, s ∈ sets ∧ Z.of_nat (length (set_cards s)) = size
         ∧ head (set_cards s) = Some c0
         ∧ ∀ c, c ∈ set_cards s →
             suit c = su
             ∧ colour c = (if bool_decide (col = "all") then colour c0 else col)).
Proof.
  intros Hsize. induction sets as [|s sets (b & IH & Hb)]; cbn [exists_identical_set].
  - exists false. split; [done|]. split; [done|].
    by intros (s & c0 & ?%elem_of_nil & _).
  - destruct (bool_decide_reflect (Z.of_nat (length (set_cards s)) = size)) as [Hlen|Hlen];
      cbn [negb].
    + destruct (set_cards s) as [|c0 rest] eqn:Hcs; [simpl in Hlen; lia|].
      cbn [first_card mbind res_bind].
      pose proof (set_found_spec su col (colour c0) (c0 :: rest) true) as Hf.
      destruct (foldl _ true (c0 :: rest)).
      * exists true. split; [done|]. split; [|done]. intros _.
        exists s, c0. rewrite Hcs. split; [by left|]. split; [done|]. split; [done|].
        by apply Hf.
      * exists b. split; [done|]. rewrite Hb. split.
        -- intros (s' & c' & Hin & ?). exists s', c'. split; [by right|done].
        -- intros (s' & c' & [->|Hin]%elem_of_cons & Hl & Hhd & Hall).
           ++ rewrite Hcs in Hhd, Hall. injection Hhd as <-.
              assert (false = true) by (apply Hf; done). done.
           ++ by exists s', c'.
    + exists b. split; [done|]. rewrite Hb. split.
      * intros (s' & c' & Hin & ?). exists s', c'. split; [by right|done].
      * intros (s' & c' & [->|Hin]%elem_of_cons & Hl & Hhd & Hall); [done|].
        by exists s', c'.
Qed.

Lemma exists_identical_set_spec_witness :
  ∃ b, exists_identical_set [rollback_pair] 2 "tse" "all" = Ok b
    ∧ (b = true ↔
       ∃ s c0, s ∈ [rollback_pair] ∧ Z.of_nat (length (set_cards s)) = 2
         ∧ head (set_cards s) = Some c0
         ∧ ∀ c, c ∈ set_cards s →
             suit c = "tse"%string
             ∧ colour c = (if bool_decide ("all"%string = "all"%string)
                           then colour c0 else "all"%string)).
Proof. apply (exists_identical_set_spec [rollback_pair] 2 "tse" "all"). lia. Defined.

(** ** The hand evaluator *)

Lemma score_sum_bounds (fs : list CardSet) (t : Z) :
  Forall (λ s, 0 ≤ score s ≤ 2 * Z.of_nat (length (set_cards s))) fs →
  t ≤ foldl (λ t s, t + score s) t fs ≤ t + 2 * Z.of_nat (length (cards_of fs)).
Proof.
  revert t. induction fs as [|s fs IH]; intros t Hall; simpl; [unfold cards_of; simpl; lia|].
  apply Forall_cons in Hall as [Hs Hall]. specialize (IH (t + score s) Hall).
  unfold cards_of in *. rewrite fmap_cons. simpl. rewrite length_app. lia.
Qed.

Lemma score_foldl_foldr (fs : list CardSet) (t : Z) :
  foldl (λ t s, t + score s) t fs = t + foldr (λ s t, score s + t) 0 fs.
Proof.
  revert t. induction fs as [|s fs IH]; intros t; simpl; [lia|]. rewrite IH. lia.
Qed.

Lemma in_tiers_scores (fs : list CardSet) :
  in_tiers fs → Forall (λ s, 0 ≤ score s ≤ 2 * Z.of_nat (length (set_cards s))) fs.
Proof.
  intros (f1 & f2 & f3 & f4 & f5 & f6 & -> & H1 & H2 & H3 & H4 & H5 & H6).
  repeat (apply Forall_app; split);
    (eapply Forall_impl; [eassumption|]); intros s; cbv beta.
  - intros [-> Hs]. rewrite !elem_of_cons, elem_of_nil in Hs. lia.
  - intros [-> ->]. lia.
  - intros (-> & Hs & _). rewrite !elem_of_cons, elem_of_nil in Hs. lia.
  - intros [-> Hs]. rewrite !elem_of_cons, elem_of_nil in Hs. lia.
  - intros (c & -> & _ & ->). simpl. lia.
  - intros [-> ->]. lia.
Qed.

(** X18 (evaluate_hand, the score): for a hand of distinct cards, none of
    them locked, the hand score is the sum of the scores of the sets
    found; it is never negative and never more than twice the number of
    cards of the hand, and the cards of the sets and the loose cards are
    as many as the cards of the hand. *)
Theorem evaluate_hand_score_bounds (hand : list Card) (w : World) :
  NoDup (cid <$> hand) → (∀ c, c ∈ hand → cid c ∉ locked w) →
  ∃ e w', evaluate_hand hand w = Ok (e, w')
    ∧ ev_score e = foldr (λ s t, score s + t) 0 (ev_sets e)
    ∧ 0 ≤ ev_score e ≤ 2 * Z.of_nat (length hand)
    ∧ (length (cards_of (ev_sets e)) + length (ev_loose e) = length hand)%nat.
Proof.
  intros Hnd Hfree.
  destruct (evaluate_hand_run hand w)
    as (e & w' & Hrun & _ & _ & _ & Hc & Ht & Hsc & Hl & _).
  exists e, w'. split; [done|].
  assert (NoDup (cid <$> py_sort rank_le hand)) as Hnd'.
  { by rewrite py_sort_Permutation. }
  assert (∀ c, c ∈ py_sort rank_le hand → cid c ∉ locked w) as Hfree'.
  { intros c Hc'. apply Hfree. by rewrite <- (py_sort_Permutation rank_le hand). }
  pose proof (committed_partition _ _ _ Hnd' Hfree' Hc) as Hp. rewrite <- Hl in Hp.
  apply Permutation_length in Hp. rewrite length_app, py_sort_Permutation in Hp.
  pose proof (score_sum_bounds _ 0 (in_tiers_scores _ Ht)) as Hb. rewrite <- Hsc in Hb.
  split; [|split; [lia|done]].
  rewrite Hsc, score_foldl_foldr. lia.
Qed.

Lemma evaluate_hand_score_bounds_witness :
  let hand := [tse 1; kee 5; tse 2; tse 4; tse 3] in
  ∃ e w', evaluate_hand hand rollback_world = Ok (e, w')
    ∧ ev_score e = foldr (λ s t, score s + t) 0 (ev_sets e)
    ∧ 0 ≤ ev_score e ≤ 2 * Z.of_nat (length hand)
    ∧ (length (cards_of (ev_sets e)) + length (ev_loose e) = length hand)%nat.
Proof.
  intros hand. apply (evaluate_hand_score_bounds hand rollback_world).
  - apply (bool_decide_unpack _). vm_compute. exact I.
  - intros c _. simpl. set_solver.
Defined.

Lemma find_kuin_covers cards found w found' w' :
  find_kuin cards found w = Ok (found', w') →
  ∀ c, c ∈ cards → suit c = "kuin"%string → cid c ∈ locked w'.
Proof.
  intros Hrun. unfold find_kuin in Hrun.
  pose proof (for_in_inv_ok
    (λ k (_ : list CardSet) w1,
       locked w ⊆ locked w1
       ∧ ∀ c, c ∈ take k cards → suit c = "kuin"%string → cid c ∈ locked w1)
    cards _ found w found' w' Hrun) as H.
  destruct H as [_ H].
  - split; [done|]. intros c Hc. by apply elem_of_nil in Hc.
  - clear. intros k i found1 w1 found2 w2 Hk [Hsub Hcov] Hbody.
    apply bind_inv in Hbody as (free & w1' & Hfree & Hbody).
    rewrite unlocked_ok in Hfree. injection Hfree as <- <-.
    assert (locked w1 ⊆ locked w2
            ∧ (suit i = "kuin"%string → cid i ∈ locked w2)) as [Hmono Hi].
    { destruct (bool_decide_reflect (suit i = "kuin")) as [Hs|Hs];
        destruct (is_locked w1 i) eqn:Hl;
        cbv beta iota delta [andb negb] in Hbody.
      - injection Hbody as <- <-. split; [done|]. intros _.
        by apply bool_decide_eq_true in Hl.
      - apply bind_inv in Hbody as (s & w3 & Hs1 & Hbody).
        unfold new_Set in Hs1. apply lift_inv in Hs1 as [_ ->].
        apply bind_inv in Hbody as ([] & w4 & Hlock & Hbody).
        unfold lock in Hlock. injection Hlock as <-.
        injection Hbody as <- <-. cbn [locked]. split; set_solver.
      - injection Hbody as <- <-. split; [done|]. done.
      - injection Hbody as <- <-. split; [done|]. done. }
    split; [set_solver|].
    intros c Hc Hs. rewrite (take_S_r _ _ _ Hk) in Hc.
    apply elem_of_app in Hc as [Hc|Hc].
    + apply Hmono. by apply Hcov.
    + apply list_elem_of_singleton in Hc as ->. by apply Hi.
  - intros c Hc. apply H. by rewrite firstn_all.
Qed.

(** Every kuin of the hand that was not locked beforehand ends up in a
    set. *)
Lemma evaluate_hand_kuin (hand : list Card) (w : World) :
  ∃ e w', evaluate_hand hand w = Ok (e, w')
    ∧ ev_loose e = List.filter (unused w (ev_sets e)) (py_sort rank_le hand)
    ∧ ∀ c, c ∈ hand → suit c = "kuin"%string → cid c ∉ locked w →
           cid c ∈ set_ids (ev_sets e).
Proof.
  unfold evaluate_hand. rewrite sort_cards_suit. cbn [lift].
  erewrite bind_ok; [|reflexivity].
  set (cards := py_sort rank_le hand).
  assert (eval_inv w cards [] w) as H0.
  { split; [done| |constructor]. unfold set_ids, cards_of. simpl. set_solver. }
  destruct (find_four_identical_inv w cards [] (length cards) 0 [] w)
    as (fs1 & w1 & Hr1 & H1 & f1 & -> & Hf1); [by apply tier_inv_start|lia|].
  cbv zeta. erewrite bind_ok; [|exact Hr1].
  destruct (find_four_colour_inv w cards ([] ++ f1) ([] ++ f1) w1)
    as (fs2 & w2 & Hr2 & H2 & f2 & -> & Hf2); [by apply tier_inv_start|].
  erewrite bind_ok; [|exact Hr2].
  destruct (find_three_identical_inv w cards _ (length cards) 0 _ w2
              (tier_inv_start _ _ _ _ _ H2))
    as (fs3 & w3 & Hr3 & H3 & f3 & -> & Hf3); [lia|].
  erewrite bind_ok; [|exact Hr3].
  destruct (find_three_other_inv w cards _ _ w3 (tier_inv_start _ _ _ _ _ H3))
    as (fs4 & w4 & Hr4 & H4 & f4 & -> & Hf4).
  erewrite bind_ok; [|exact Hr4].
  destruct (find_kuin_inv w cards _ _ w4 (tier_inv_start _ _ _ _ _ H4))
    as (fs5 & w5 & Hr5 & H5 & f5 & -> & Hf5).
  erewrite bind_ok; [|exact Hr5].
  pose proof (find_kuin_covers _ _ _ _ _ Hr5) as Hcover.
  pose proof (inv_locked _ _ _ _ H5) as Hl5.
  destruct (find_pairs_inv w cards _ (length cards) 0 _ w5
              (tier_inv_start _ _ _ _ _ H5))
    as (fs6 & w6 & Hr6 & H6 & f6 & -> & Hf6); [lia|].
  erewrite bind_ok; [|exact Hr6].
  erewrite bind_ok; [|reflexivity].
  destruct (unlock_loop_ok cards w6) as (w7 & Hr7 & Hw7 & Hl7).
  erewrite bind_ok; [|exact Hr7].
  destruct H6 as [Hw6 Hl6 Hc6].
  eexists _, _. split; [reflexivity|]. cbn [ev_sets ev_loose]. split.
  - rewrite loose_filter. simpl. apply List.filter_ext. intros c. by apply unused_spec.
  - intros c Hc Hs Hfree.
    assert (cid c ∈ locked w5) as Hin.
    { apply Hcover; [|done]. unfold cards. by rewrite py_sort_Permutation. }
    rewrite Hl5 in Hin. apply elem_of_union in Hin as [Hin|Hin]; [|done].
    apply elem_of_list_to_set in Hin. rewrite set_ids_app. apply elem_of_app. by left.
Qed.

(** X19 (evaluate_hand, the loose cards): the loose cards are cards of
    the hand that lie in no set, and none of them is a kuin: every kuin
    that is free is put into a set, if need be as a set of its own. *)
Theorem evaluate_hand_no_loose_kuin (hand : list Card) (w : World) :
  ∃ e w', evaluate_hand hand w = Ok (e, w')
    ∧ ∀ c, c ∈ ev_loose e →
        c ∈ hand ∧ cid c ∉ set_ids (ev_sets e) ∧ suit c ≠ "kuin"%string.
Proof.
  destruct (evaluate_hand_kuin hand w) as (e & w' & Hrun & Hl & Hk).
  exists e, w'. split; [done|]. intros c Hc. rewrite Hl in Hc.
  apply elem_of_filter_bool in Hc as [Hc Hu].
  rewrite py_sort_Permutation in Hc.
  unfold unused in Hu. apply andb_true_iff in Hu as [Hu1 Hu2].
  apply negb_true_iff, bool_decide_eq_false in Hu1.
  apply negb_true_iff, bool_decide_eq_false in Hu2.
  split; [done|]. split; [done|]. intros Hs. apply Hu2. by apply Hk.
Qed.

(** ** Players *)

(** Reduces the fields of a player that is given as a record. *)
Ltac fields :=
  cbn [name field_discards field_melded_sets total_score hand hand_sets hand_score
       facedown_sets facedown_score melded_sets melded_score lang_pai collection] in *.

Lemma collect_sets (fs : list CardSet) (acc : list Card) :
  foldl (λ collection s, foldl (λ collection c, collection ++ [c]) collection (set_cards s))
    acc fs = acc ++ cards_of fs.
Proof.
  revert acc. induction fs as [|s fs IH]; intros acc; simpl.
  - unfold cards_of. simpl. by rewrite app_nil_r.
  - rewrite foldl_snoc_app, IH. unfold cards_of. rewrite fmap_cons. simpl.
    by rewrite app_assoc.
Qed.

Lemma update_collection_exact p w :
  ∃ w', update_collection p w
        = Ok ({| name := name p; field_discards := field_discards p;
                 field_melded_sets := field_melded_sets p; total_score := total_score p;
                 hand := hand p; hand_sets := hand_sets p; hand_score := hand_score p;
                 facedown_sets := facedown_sets p; facedown_score := facedown_score p;
                 melded_sets := melded_sets p; melded_score := melded_score p;
                 lang_pai := lang_pai p;
                 collection := py_sort rank_le (player_cards p) |}, w')
    ∧ same_but_locked w w'
    ∧ locked w' = locked w ∖ list_to_set (cid <$> hand p).
Proof.
  unfold update_collection.
  destruct (collect_unlock_loop (hand p) [] w) as (w' & Hrun & Hw & Hl).
  erewrite bind_ok; [|exact Hrun]. rewrite sort_cards_suit. cbn [lift].
  erewrite bind_ok; [|reflexivity].
  exists w'. split; [|done]. unfold mret, M_ret. do 3 f_equal.
  rewrite !collect_sets. unfold player_cards. by rewrite app_nil_l, app_assoc.
Qed.

(** X20 (Player.update_collection): the collection is rebuilt as the
    cards of the hand, of the face-down sets and of the melded sets, in
    rank order; the cards of the hand are unlocked, and nothing else of
    the player or of the cards changes. *)
Theorem update_collection_sorted (p : Player) (w : World) :
  ∃ p' w', update_collection p w = Ok (p', w')
    ∧ collection p' = py_sort rank_le (player_cards p)
    ∧ Sorted (λ a b, rank a ≤ rank b) (collection p')
    ∧ collection p' ≡ₚ player_cards p
    ∧ (∀ c, c ∈ hand p → is_locked w' c = false)
    ∧ locked w' = locked w ∖ list_to_set (cid <$> hand p)
    ∧ same_but_locked w w'
    ∧ same_base p' p
    ∧ hand_sets p' = hand_sets p ∧ hand_score p' = hand_score p
    ∧ lang_pai p' = lang_pai p ∧ total_score p' = total_score p.
Proof.
  destruct (update_collection_exact p w) as (w' & Hrun & Hw & Hl).
  eexists _, w'. split; [exact Hrun|]. fields.
  split; [done|]. split; [apply py_sort_Sorted|]. split; [apply py_sort_Permutation|].
  split.
  { intros c Hc. unfold is_locked. apply bool_decide_eq_false_2. rewrite Hl.
    rewrite elem_of_difference, elem_of_list_to_set. intros [_ Hn]. apply Hn.
    by apply list_elem_of_fmap_2. }
  split; [done|]. split; [done|]. split; [by repeat split|]. done.
Qed.

Lemma evaluate_player_hand_exact p w :
  ∃ e w1 w', evaluate_hand (hand p) w = Ok (e, w1)
    ∧ evaluate_player_hand p w
      = Ok ({| name := name p; field_discards := field_discards p;
               field_melded_sets := field_melded_sets p;
               total_score := ev_score e + facedown_score p + melded_score p;
               hand := py_sort rank_le (hand p); hand_sets := ev_sets e;
               hand_score := ev_score e;
               facedown_sets := facedown_sets p; facedown_score := facedown_score p;
               melded_sets := melded_sets p; melded_score := melded_score p;
               lang_pai := ev_loose e;
               collection := py_sort rank_le
                 (py_sort rank_le (hand p) ++ cards_of (facedown_sets p)
                  ++ cards_of (melded_sets p)) |}, w')
    ∧ same_but_locked w w'
    ∧ locked w' = locked w ∖ list_to_set (cid <$> hand p).
Proof.
  unfold evaluate_player_hand.
  destruct (evaluate_hand_run (hand p) w)
    as (e & w1 & Hrun & Hcards & Hw1 & Hl1 & _).
  erewrite bind_ok; [|exact Hrun]. cbv zeta.
  edestruct update_collection_exact as (w' & Hup & Hw' & Hl').
  exists e, w1, w'. split; [done|]. split.
  { rewrite Hup. unfold player_cards. fields. by rewrite Hcards. }
  split; [by eapply same_but_locked_trans|].
  rewrite Hl', Hl1. fields. rewrite Hcards. apply set_eq. intros i.
  rewrite !elem_of_difference, !elem_of_list_to_set, py_sort_Permutation. tauto.
Qed.

(** X21 (Player.evaluate_player_hand): on a hand whose cards are not
    locked, evaluating the player's hand leaves every card as it was and
    brings the player into a state that a second evaluation does not
    change; in that state the total score is the sum of the scores of
    hand, face-down sets and melded sets, and the hand is sorted. *)
Theorem evaluate_player_hand_sync (p : Player) (w : World) :
  (∀ c, c ∈ hand p → cid c ∉ locked w) →
  ∃ p', evaluate_player_hand p w = Ok (p', w)
    ∧ evaluate_player_hand p' w = Ok (p', w)
    ∧ total_score p' = hand_score p' + facedown_score p' + melded_score p'
    ∧ hand p' = py_sort rank_le (hand p)
    ∧ facedown_sets p' = facedown_sets p ∧ melded_sets p' = melded_sets p.
Proof.
  intros Hfree.
  destruct (evaluate_player_hand_exact p w) as (e & w1 & w' & He & Hrun & Hw & Hl).
  assert (w' = w) as ->.
  { apply World_eq; [done|]. rewrite Hl. apply set_eq. intros i.
    rewrite elem_of_difference, elem_of_list_to_set. split; [tauto|].
    intros Hi. split; [done|]. intros (c & -> & Hc)%list_elem_of_fmap. by eapply Hfree. }
  eexists. split; [exact Hrun|]. fields. split; [|split; [lia|done]].
  edestruct evaluate_player_hand_exact as (e2 & w2 & w3 & He2 & Hrun2 & Hw2 & Hl2).
  rewrite Hrun2. fields.
  rewrite evaluate_hand_sorted, He in He2. injection He2 as <- <-.
  rewrite py_sort_idempotent. do 2 f_equal.
  apply World_eq; [done|]. rewrite Hl2. apply set_eq. intros i.
  rewrite elem_of_difference, elem_of_list_to_set. split; [tauto|].
  intros Hi. split; [done|]. intros (c & -> & Hc)%list_elem_of_fmap.
  rewrite py_sort_Permutation in Hc. by eapply Hfree.
Qed.

Lemma evaluate_player_hand_sync_witness :
  ∃ p', evaluate_player_hand rollback_player rollback_world = Ok (p', rollback_world)
    ∧ evaluate_player_hand p' rollback_world = Ok (p', rollback_world)
    ∧ total_score p' = hand_score p' + facedown_score p' + melded_score p'
    ∧ hand p' = py_sort rank_le (hand rollback_player)
    ∧ facedown_sets p' = facedown_sets rollback_player
    ∧ melded_sets p' = melded_sets rollback_player.
Proof.
  apply (evaluate_player_hand_sync rollback_player rollback_world).
  intros c _. simpl. set_solver.
Defined.

(** X22 (Player.update_scores): the scores are recomputed from scratch:
    the hand score is the one [evaluate_player_hand] would give, the
    scores of the face-down and of the melded sets are the sums of the
    scores of these sets, and the total is the sum of the three.  The
    hand is left sorted; the sets of the hand, the loose cards and the
    collection are not brought up to date. *)
Theorem update_scores_spec (p : Player) (w : World) :
  ∃ p' w' q w'', update_scores p w = Ok (p', w')
    ∧ evaluate_player_hand p w = Ok (q, w'')
    ∧ hand_score p' = hand_score q ∧ hand p' = hand q ∧ w' = w''
    ∧ facedown_score p' = foldr (λ s t, score s + t) 0 (facedown_sets p)
    ∧ melded_score p' = foldr (λ s t, score s + t) 0 (melded_sets p)
    ∧ total_score p' = hand_score p' + facedown_score p' + melded_score p'
    ∧ hand_sets p' = hand_sets p ∧ lang_pai p' = lang_pai p
    ∧ collection p' = collection p
    ∧ facedown_sets p' = facedown_sets p ∧ melded_sets p' = melded_sets p.
Proof.
  unfold update_scores.
  destruct (evaluate_player_hand_exact p w) as (e & w1 & w' & He & Hrun & Hw & Hl).
  destruct (evaluate_hand_run (hand p) w)
    as (e' & w1' & He' & Hcards & Hw1 & Hl1 & _).
  rewrite He in He'. injection He' as <- <-.
  erewrite bind_ok; [|exact He]. eexists _, w1, _, w'.
  split; [reflexivity|]. split; [exact Hrun|]. fields.
  rewrite !score_foldl_foldr.
  split; [done|]. split; [done|]. split.
  { destruct Hw as (? & ? & ?), Hw1 as (? & ? & ?).
    destruct w1, w'; simpl in *. f_equal; congruence. }
  split; [lia|]. split; [lia|]. done.
Qed.

(** X23 (Player.can_win, Player.can_tok): a player who can tok cannot
    win at that moment: tok asks for a loose card to give up, and winning
    for none to be left.  Both ask for a total score of at least 9. *)
Theorem can_tok_not_can_win (p : Player) (hs : Z) (lp : list Card) :
  can_tok p hs lp = true →
  can_win p = false ∧ 9 ≤ total_score p ∧ lang_pai p ≠ []
  ∧ hs = hand_score p ∧ (length lp < length (lang_pai p))%nat.
Proof.
  unfold can_tok, can_win. rewrite !andb_true_iff, !bool_decide_eq_true.
  intros [[[? ?] ?] ?]. split.
  - rewrite bool_decide_eq_false_2 by lia. done.
  - repeat split; try done. intros Hnil. rewrite Hnil in *. simpl in *. lia.
Qed.

Lemma can_tok_not_can_win_witness :
  let p := {| name := "Player 0"; field_discards := []; field_melded_sets := [];
              total_score := 9; hand := [kee 5]; hand_sets := []; hand_score := 0;
              facedown_sets := []; facedown_score := 8; melded_sets := [];
              melded_score := 1; lang_pai := [kee 5]; collection := [kee 5] |} in
  can_win p = false ∧ 9 ≤ total_score p ∧ lang_pai p ≠ []
  ∧ 0 = hand_score p ∧ (length (@nil Card) < length (lang_pai p))%nat.
Proof. intros p. apply (can_tok_not_can_win p 0 []). reflexivity. Defined.

(** X24 (Player.discard_card, nothing to give up): the player gives up no
    card exactly when there is no loose card and either the player can
    win or the hand holds no set of more than one card to break up; the
    call then changes nothing and draws no random number. *)
Theorem discard_card_None_iff (p p' : Player) (w w' : World) :
  discard_card p w = Ok ((None, p'), w')
  ↔ p' = p ∧ w' = w ∧ lang_pai p = []
    ∧ (can_win p = true ∨ exists_nks (hand_sets p) = false).
Proof.
  split.
  - intros H. destruct (discard_card_None _ _ _ _ H) as [-> ->].
    split; [done|]. split; [done|]. unfold discard_card in H.
    case_bool_decide as Hl.
    { by apply discard_from_Some in H as [? ?]. }
    split; [destruct (lang_pai p); [done|simpl in Hl; lia]|].
    destruct (can_win p); [by left|]. right. cbn [negb] in H.
    destruct (exists_nks (hand_sets p)); [|done]. exfalso. cbn [negb] in H.
    repeat case_match; try (by apply discard_from_Some in H as [? ?]).
    apply bind_inv in H as (rs & w1 & _ & H).
    apply bind_inv in H as (w2 & w3 & _ & H).
    apply bind_inv in H as (rs' & w4 & _ & H).
    by apply discard_from_Some in H as [? ?].
  - intros (-> & -> & Hl & Hc). unfold discard_card. rewrite Hl. cbn [length].
    rewrite bool_decide_eq_false_2 by lia.
    destruct (can_win p); [done|]. destruct Hc as [Hc|Hc]; [done|]. by rewrite Hc.
Qed.








(** The first item that passes a test splits the list. *)
Lemma find_first {A} (f : A → bool) (l : list A) (x : A) :
  List.find f l = Some x ↔
  ∃ before after, l = before ++ x :: after
    ∧ Forall (λ y, f y = false) before ∧ f x = true.
Proof.
  split.
  - induction l as [|y l IH]; [done|]. simpl. destruct (f y) eqn:Hy.
    + intros [= ->]. exists [], l. split; [done|]. split; [constructor|done].
    + intros (before & after & -> & Hb & Hx)%IH.
      exists (y :: before), after. split; [done|]. split; [by constructor|done].
  - intros (before & after & -> & Hb & Hx).
    induction Hb as [|y before Hy _ IH]; simpl; [by rewrite Hx|by rewrite Hy].
Qed.

(** [l.remove(x)] takes the first item equal to [x] away. *)
Lemma list_remove_first (s : CardSet) before after :
  s ∉ before → list_remove same_set s (before ++ s :: after) = Ok (before ++ after).
Proof.
  induction before as [|y before IH]; simpl; intros Hn.
  - unfold same_set. by rewrite bool_decide_eq_true_2.
  - apply not_elem_of_cons in Hn as [Hy Hn]. unfold same_set at 1.
    rewrite bool_decide_eq_false_2 by done. by rewrite IH.
Qed.

Lemma check_meld_first_melded (p : Player) (active_card : Card) (w : World) :
  ∃ meld w' e,
    check_meld p (Some active_card) w = Ok (meld, w')
    ∧ evaluate_hand (hand p ++ [active_card]) w = Ok (e, w')
    ∧ same_but_locked w w'
    ∧ locked w' = locked w ∖ list_to_set (cid <$> (hand p ++ [active_card]))
    ∧ (∀ s, meld = Some s ↔
         ∃ before after,
           ev_sets e = before ++ s :: after
           ∧ Forall (λ s', melded s' = false) before ∧ melded s = true
           ∧ hand_score p < ev_score e
           ∧ (ev_loose e ≠ []
              ∨ ∃ s', s' ∈ before ++ after ∧ (1 < length (set_cards s'))%nat))
    ∧ (∀ s, meld = Some s →
         contains_active_card w (set_cards s) = true
         ∧ ∀ c, c ∈ set_cards s → c ∈ hand p ∨ c = active_card).
Proof.
  unfold check_meld.
  destruct (evaluate_hand_run (hand p ++ [active_card]) w)
    as (e & w' & Hrun & _ & Hw & Hl & Hcom & _).
  erewrite bind_ok; [|exact Hrun]. cbv zeta. cbn [fst snd].
  assert (∀ s, s ∈ ev_sets e → melded s = true →
            contains_active_card w (set_cards s) = true
            ∧ ∀ c, c ∈ set_cards s → c ∈ hand p ∨ c = active_card) as Hcards.
  { intros s Hin Hm. split.
    - pose proof (committed_valid _ _ _ Hcom) as Hv.
      rewrite Forall_forall in Hv. destruct (Hv s Hin) as [_ Hs].
      apply Set_init_fields in Hs as [_ <-]. done.
    - intros c Hc. pose proof (committed_sublist _ _ _ Hcom c) as Hsub.
      assert (c ∈ py_sort rank_le (hand p ++ [active_card])) as Hc'.
      { apply Hsub, elem_of_cards_of. by exists s. }
      rewrite py_sort_Permutation, elem_of_app, list_elem_of_singleton in Hc'.
      done. }
  destruct (List.find melded (ev_sets e)) as [ms|] eqn:Hfind.
  2:{ exists None, w', e. do 4 (split; [done|]). split; [|done].
      intros s. split; [done|]. intros (before & after & He & Hb & Hm & _).
      assert (List.find melded (ev_sets e) = Some s) as Hf.
      { apply find_first. by exists before, after. }
      rewrite Hfind in Hf. done. }
  pose proof Hfind as (before & after & He & Hb & Hm)%find_first.
  assert (ms ∉ before) as Hnotin.
  { intros Hin. rewrite Forall_forall in Hb. apply Hb in Hin. congruence. }
  assert (list_remove same_set ms (ev_sets e) = Ok (before ++ after)) as Hrem.
  { rewrite He. by apply list_remove_first. }
  rewrite Hrem. cbn [lift].
  erewrite bind_ok; [|reflexivity].
  assert (∀ s before' after',
            ev_sets e = before' ++ s :: after' →
            Forall (λ s', melded s' = false) before' → melded s = true →
            s = ms ∧ before' = before ∧ after' = after) as Hunique.
  { intros s before' after' He' Hb' Hm'.
    assert (List.find melded (ev_sets e) = Some s) as Hf.
    { apply find_first. by exists before', after'. }
    rewrite Hfind in Hf. injection Hf as <-. split; [done|].
    rewrite He in He'. clear -He' Hb Hb' Hm.
    revert before' He' Hb'.
    induction Hb as [|y before Hy _ IH]; intros before' He' Hb'.
    - destruct Hb' as [|y' before' Hy' _]; [by simplify_eq|].
      simpl in He'. simplify_eq. congruence.
    - destruct Hb' as [|y' before' Hy' Hb']; simpl in He'.
      + simplify_eq. congruence.
      + injection He' as <- He'. destruct (IH _ He' Hb') as [-> ->]. done. }
  assert (exists_nks (before ++ after) = true ↔
          ∃ s', s' ∈ before ++ after ∧ (1 < length (set_cards s'))%nat) as Hnks.
  { unfold exists_nks. rewrite existsb_exists. split.
    - intros (s' & Hs' & Hlen%bool_decide_eq_true).
      exists s'. by rewrite list_elem_of_In.
    - intros (s' & Hs' & Hlen). exists s'. rewrite <- list_elem_of_In.
      split; [done|]. by apply bool_decide_eq_true. }
  assert (bool_decide (0 < length (ev_loose e))%nat = true ↔ ev_loose e ≠ [])
    as Hloose.
  { rewrite bool_decide_eq_true. destruct (ev_loose e); simpl; split; (done || lia). }
  assert (ms ∈ ev_sets e) as Hin.
  { rewrite He. apply elem_of_app. right. by left. }
  destruct (_ && _) eqn:Hc.
  - exists (Some ms), w', e. do 4 (split; [done|]). split.
    + intros s. split.
      * intros [= <-]. exists before, after. do 3 (split; [done|]).
        apply andb_true_iff in Hc as [Hd Hs%bool_decide_eq_true]. split; [done|].
        apply orb_true_iff in Hd as [Hd|Hd]; [left; by apply Hloose|right; by apply Hnks].
      * intros (before' & after' & He' & Hb' & Hm' & _).
        destruct (Hunique _ _ _ He' Hb' Hm') as (-> & _). done.
    + intros s [= <-]. by apply Hcards.
  - exists None, w', e. do 4 (split; [done|]). split; [|done].
    intros s. split; [done|].
    intros (before' & after' & He' & Hb' & Hm' & Hs & Hd).
    destruct (Hunique _ _ _ He' Hb' Hm') as (-> & -> & ->).
    apply andb_false_iff in Hc as [Hc|Hc].
    + apply orb_false_iff in Hc as [Hc1 Hc2].
      destruct Hd as [Hd|Hd]; [apply Hloose in Hd|apply Hnks in Hd]; congruence.
    + apply bool_decide_eq_false in Hc. done.
Qed.

(** X26 (Player.check_meld): the check always answers, and changes
    neither the player nor any card, apart from unlocking the cards it
    looked at, as the evaluation of the hand joined with the active card
    does.  It answers with a set exactly when that evaluation has found a
    set with an active card, scores more than the hand does now, and
    leaves the player a card to discard: a loose card, or a set of more
    than one card among the sets other than the one proposed.  The set it
    answers with is then the first set found that has an active card; its
    cards are cards of the hand or the active card. *)
Theorem check_meld_spec (p : Player) (active_card : Card) (w : World) :
  ∃ meld w' e,
    check_meld p (Some active_card) w = Ok (meld, w')
    ∧ evaluate_hand (hand p ++ [active_card]) w = Ok (e, w')
    ∧ same_but_locked w w'
    ∧ locked w' = locked w ∖ list_to_set (cid <$> (hand p ++ [active_card]))
    ∧ (∀ s, meld = Some s ↔
         ∃ before after,
           ev_sets e = before ++ s :: after
           ∧ Forall (λ s', melded s' = false) before ∧ melded s = true
           ∧ hand_score p < ev_score e
           ∧ (ev_loose e ≠ []
              ∨ ∃ s', s' ∈ before ++ after ∧ (1 < length (set_cards s'))%nat))
    ∧ (∀ s, meld = Some s →
         contains_active_card w (set_cards s) = true
         ∧ ∀ c, c ∈ set_cards s → c ∈ hand p ∨ c = active_card).
Proof. apply check_meld_first_melded. Qed.

Lemma play_turn_kaeu p active_card drawn w p' ms w' :
  play_turn p active_card drawn w = Ok ((p', ms, Kaeu), w') → can_win p' = true.
Proof.
  unfold play_turn. intros H. destruct active_card as [c|]; [|done].
  apply bind_inv in H as (e & w1 & _ & H). cbv zeta in H. cbn [fst snd] in H.
  destruct (_ || _); [|destruct drawn; by apply mret_inv in H as [? ?]].
  apply bind_inv in H as ([[p1 h1] ms1] & w2 & _ & H).
  apply bind_inv in H as (p2 & w3 & _ & H).
  destruct (can_win p2) eqn:Hwin.
  - apply mret_inv in H as [[= <- _] _]. done.
  - inv_run H; by simplify_eq.
Qed.

Lemma play_turn_draw p active_card drawn w p' ms w' :
  play_turn p active_card drawn w = Ok ((p', ms, Draw), w') → ms = None ∧ drawn = false.
Proof.
  unfold play_turn. intros H. destruct active_card as [c|]; [|done].
  apply bind_inv in H as (e & w1 & _ & H). cbv zeta in H. cbn [fst snd] in H.
  inv_run H; by simplify_eq.
Qed.

(** X27 (Player.play_turn, what it answers): a player who was offered a
    drawn card never asks to draw again; the answer 'draw' never comes
    with a melded set; and the answer 'kaeu' is given only by a player
    who can win. *)
Theorem play_turn_moves (p p' : Player) (active_card : option Card) (drawn : bool)
    (ms : option CardSet) (x : move) (w w' : World) :
  play_turn p active_card drawn w = Ok ((p', ms, x), w') →
  (drawn = true → x ≠ Draw)
  ∧ (x = Draw → ms = None)
  ∧ (x = Kaeu → can_win p' = true)
  ∧ active_card ≠ None.
Proof.
  intros H. split; [|split; [|split]].
  - intros -> ->. by apply play_turn_draw in H as [_ ?].
  - intros ->. by apply play_turn_draw in H as [? _].
  - intros ->. by apply play_turn_kaeu in H.
  - intros ->. done.
Qed.

Lemma play_turn_moves_witness :
  ∃ p' ms x w',
    play_turn rollback_player (Some (tse 3)) true rollback_world = Ok ((p', ms, x), w')
    ∧ (true = true → x ≠ Draw)
    ∧ (x = Draw → ms = None)
    ∧ (x = Kaeu → can_win p' = true)
    ∧ Some (tse 3) ≠ None.
Proof.
  assert (∃ p' ms x w',
    play_turn rollback_player (Some (tse 3)) true rollback_world = Ok ((p', ms, x), w'))
    as (p' & ms & x & w' & Hrun).
  { eexists _, _, _, _. evaluated. }
  exists p', ms, x, w'. split; [exact Hrun|].
  exact (play_turn_moves _ _ _ _ _ _ _ _ Hrun).
Defined.

(** ** Steps of the game *)

Lemma same_table_refl g : same_table g g.
Proof. by repeat split. Qed.

Lemma same_table_trans g1 g2 g3 : same_table g1 g2 → same_table g2 g3 → same_table g1 g3.
Proof. unfold same_table. intros (?&?&?&?&?) (?&?&?&?&?). repeat split; congruence. Qed.

Lemma current_plays_table g drawn w g' ms x w' :
  current_plays g drawn w = Ok ((g', ms, x), w') → same_table g g'.
Proof.
  unfold current_plays. intros H.
  apply bind_inv in H as (p & w1 & _ & H).
  apply bind_inv in H as ([[p1 ms1] x1] & w2 & _ & [[= <- _ _] _]%mret_inv).
  unfold same_table. cbn. by rewrite length_insert.
Qed.

Lemma draw_active_table g w g' w' : draw_active g w = Ok (g', w') → same_table g g'.
Proof.
  unfold draw_active. intros H.
  apply bind_inv in H as ([c d] & w1 & _ & [<- _]%mret_inv). by repeat split.
Qed.

Lemma replenish_deck_table g w g' w' :
  replenish_deck g w = Ok (Some g', w') → same_table g g'.
Proof.
  unfold replenish_deck. intros H. repeat case_bool_decide.
  - by apply mret_inv in H as [? ?].
  - apply bind_inv in H as (d & w1 & _ & [[= <-] _]%mret_inv). by repeat split.
  - apply mret_inv in H as [[= <-] _]. apply same_table_refl.
Qed.

Lemma check_oot_table g drawn w r g' w' :
  check_oot g drawn w = Ok ((r, g'), w') →
  ∃ cp, g' = with_current_player g cp.
Proof.
  unfold check_oot. intros H.
  apply bind_inv in H as (sets & w1 & _ & H).
  apply bind_inv in H as ([r1 cp] & w2 & _ & [[= _ <-] _]%mret_inv). by exists cp.
Qed.

Lemma oot_check_table g oot_turn drawn w r g' w' :
  oot_check g oot_turn drawn w = Ok ((r, g'), w') →
  (∃ cp, g' = with_current_player g cp)
  ∧ (negb oot_turn && enable_oot g = false → r = Meld ∧ g' = g).
Proof.
  unfold oot_check. intros H. destruct (negb oot_turn && enable_oot g).
  - split; [by eapply check_oot_table|done].
  - apply mret_inv in H as [[= <- <-] _]. split; [|done].
    exists (current_player g). by destruct g.
Qed.

Lemma finish_turn_table g oot_turn ms x w r g' w' :
  finish_turn g oot_turn ms x w = Ok ((r, g'), w') →
  length (players g') = length (players g)
  ∧ enable_oot g' = enable_oot g ∧ verbose g' = verbose g
  ∧ turn_count g' = turn_count g + 1
  ∧ (r = Oot ∨ r = Next)
  ∧ (negb oot_turn && enable_oot g = false →
     r = Next
     ∧ current_player g' = ((current_player g + 1) mod length (players g))%nat).
Proof.
  unfold finish_turn. intros H. destruct x as [| |c]; [done..|].
  apply bind_inv in H as ([oot g1] & w1 & Hoot & H).
  apply oot_check_table in Hoot as [[cp ->] Hoff].
  destruct oot.
  - apply bind_inv in H as (next & w2 & [Hnext ->]%lift_inv & [[= <- <-] _]%mret_inv).
    unfold py_mod in Hnext. case_bool_decide; [done|]. injection Hnext as <-.
    destruct ms; cbn; (do 4 (split; [done|])); (split; [by right|]); intros Hd;
      destruct (Hoff Hd) as [_ Hg]; split; try done;
      apply (f_equal current_player) in Hg; cbn in Hg; by rewrite Hg.
  - apply mret_inv in H as [[= <- <-] _].
    destruct ms; cbn; (do 4 (split; [done|])); (split; [by left|]); intros Hd;
      by destruct (Hoff Hd) as [? _].
Qed.

(** What a step of the game keeps. *)
Lemma conduct_turn_table g oot_turn w r g' w' :
  conduct_turn g oot_turn w = Ok ((r, g'), w') →
  length (players g') = length (players g)
  ∧ enable_oot g' = enable_oot g ∧ verbose g' = verbose g
  ∧ (turn_count g' = turn_count g ∨ (turn_count g' = turn_count g + 1 ∧ (r = Oot ∨ r = Next)))
  ∧ (negb oot_turn && enable_oot g = false →
     r ≠ Oot
     ∧ (r = Next →
        current_player g' = ((current_player g + 1) mod length (players g))%nat)).
Proof.
  unfold conduct_turn. intros H.
  set (g0 := with_players g _) in H.
  assert (same_table g g0) as H0.
  { unfold same_table, g0. cbn. by rewrite length_fmap. }
  clearbody g0.
  assert (∀ g1 g2 ms x r w1 w2,
    same_table g g1 → finish_turn g1 oot_turn ms x w1 = Ok ((r, g2), w2) →
    length (players g2) = length (players g)
    ∧ enable_oot g2 = enable_oot g ∧ verbose g2 = verbose g
    ∧ (turn_count g2 = turn_count g
       ∨ (turn_count g2 = turn_count g + 1 ∧ (r = Oot ∨ r = Next)))
    ∧ (negb oot_turn && enable_oot g = false →
       r ≠ Oot
       ∧ (r = Next →
          current_player g2 = ((current_player g + 1) mod length (players g))%nat)))
    as Hfinish.
  { intros g1 g2 ms x r1 w1 w2 (Hn & He & Hv & Ht & Hc) Hf.
    apply finish_turn_table in Hf as (Hn' & He' & Hv' & Ht' & Hr & Hoff).
    rewrite Hn', He', Hv', Ht', Hn, He, Hv, Ht in *.
    do 3 (split; [done|]). split; [by right|].
    intros Hd. destruct (Hoff Hd) as [-> Hcp]. split; [done|]. intros _.
    by rewrite Hcp, Hc. }
  assert (∀ g1 r, r = Win ∨ r = Exit → same_table g g1 →
    length (players g1) = length (players g)
    ∧ enable_oot g1 = enable_oot g ∧ verbose g1 = verbose g
    ∧ (turn_count g1 = turn_count g
       ∨ (turn_count g1 = turn_count g + 1 ∧ (r = Oot ∨ r = Next)))
    ∧ (negb oot_turn && enable_oot g = false →
       r ≠ Oot
       ∧ (r = Next →
          current_player g1 = ((current_player g + 1) mod length (players g))%nat)))
    as Hstop.
  { intros g1 r1 Hr1 (Hn & He & Hv & Ht & Hc).
    do 3 (split; [done|]). split; [by left|].
    intros Hd. by destruct Hr1 as [-> | ->]. }
  apply bind_inv in H as (p & w1 & _ & H).
  destruct (_ && _).
  { apply bind_inv in H as ([dc p1] & w2 & _ & H). destruct dc as [c|]; [|done].
    apply bind_inv in H as ([] & w3 & _ & H).
    apply bind_inv in H as (next & w4 & [Hnext ->]%lift_inv & [[= <- <-] _]%mret_inv).
    unfold py_mod in Hnext. case_bool_decide; [done|]. injection Hnext as <-.
    destruct H0 as (Hn & He & Hv & Ht & Hc). cbn. rewrite !length_insert.
    rewrite Hn, He, Hv, Ht, Hc. do 3 (split; [done|]). split; [by left|]. done. }
  apply bind_inv in H as (rg & w2 & Hrep & H).
  destruct rg as [g1|].
  2:{ apply mret_inv in H as [[= <- <-] _]. apply Hstop; [by right|done]. }
  apply replenish_deck_table in Hrep.
  pose proof (same_table_trans _ _ _ H0 Hrep) as H1.
  apply bind_inv in H as (g2 & w3 & Hdraw & H).
  assert (same_table g g2) as H2.
  { destruct (bool_decide (active_card g1 = None)).
    - apply draw_active_table in Hdraw. by eapply same_table_trans.
    - by apply mret_inv in Hdraw as [<- _]. }
  apply bind_inv in H as ([[g3 ms] x] & w4 & Hplay & H).
  pose proof (same_table_trans _ _ _ H2 (current_plays_table _ _ _ _ _ _ _ Hplay)) as H3.
  destruct x as [| |c].
  - apply mret_inv in H as [[= <- <-] _]. apply Hstop; [by left|done].
  - apply bind_inv in H as (g4 & w5 & Hdraw2 & H).
    assert (same_table g g4) as H4.
    { apply draw_active_table in Hdraw2. eapply same_table_trans; [|exact Hdraw2].
      destruct (active_card g3); [|done]. destruct H3 as (?&?&?&?&?). by repeat split. }
    apply bind_inv in H as ([oot g5] & w6 & Hoot & H).
    apply oot_check_table in Hoot as [[cp ->] Hoff].
    assert (negb oot_turn && enable_oot g = false → with_current_player g4 cp = g4) as H5.
    { intros Hd. destruct H4 as (?&He4&?&?&?). rewrite <- He4 in Hd.
      by destruct (Hoff Hd) as [_ ->]. }
    destruct oot.
    + apply bind_inv in H as ([[g6 ms2] x2] & w7 & Hplay2 & H).
      apply current_plays_table in Hplay2.
      destruct x2 as [| |c2].
      * apply mret_inv in H as [[= <- <-] _].
        destruct H4 as (Hn & He & Hv & Ht & Hc), Hplay2 as (Hn' & He' & Hv' & Ht' & Hc').
        cbn in *. rewrite Hn', He', Hv', Ht', Hn, He, Hv, Ht.
        do 3 (split; [done|]). split; [by left|]. done.
      * done.
      * destruct (decide (negb oot_turn && enable_oot g = false)) as [Hd|Hd].
        -- rewrite (H5 Hd) in *. eapply Hfinish; [|exact H].
           by eapply same_table_trans.
        -- apply finish_turn_table in H as (Hn' & He' & Hv' & Ht' & Hr & _).
           destruct H4 as (Hn & He & Hv & Ht & Hc), Hplay2 as (Hn2 & He2 & Hv2 & Ht2 & Hc2).
           cbn in *. rewrite Hn', He', Hv', Ht', Hn2, He2, Hv2, Ht2, Hn, He, Hv, Ht.
           do 3 (split; [done|]). split; [by right|]. done.
    + apply mret_inv in H as [[= <- <-] _].
      destruct H4 as (Hn & He & Hv & Ht & Hc). cbn.
      do 3 (split; [done|]). split; [by left|].
      intros Hd. rewrite <- He in Hd. by destruct (Hoff Hd) as [? _].
  - by eapply Hfinish.
Qed.

(** X28 (conduct_turn, what a step leaves alone): a step of the game
    never changes the number of players or the two switches, and it adds
    at most one to the count of turns - nothing at all when it ends with
    'win' or 'exit'.  A step taken out of turn, or with out-of-turn melds
    switched off, never answers 'oot', and when it answers 'next' the
    turn passes to the next player in sequence. *)
Theorem conduct_turn_frame (g g' : Game) (oot_turn : bool) (r : outcome) (w w' : World) :
  conduct_turn g oot_turn w = Ok ((r, g'), w') →
  length (players g') = length (players g)
  ∧ enable_oot g' = enable_oot g ∧ verbose g' = verbose g
  ∧ turn_count g ≤ turn_count g' ≤ turn_count g + 1
  ∧ (r = Win ∨ r = Exit → turn_count g' = turn_count g)
  ∧ (negb oot_turn && enable_oot g = false →
     r ≠ Oot
     ∧ (r = Next →
        current_player g' = ((current_player g + 1) mod length (players g))%nat)).
Proof.
  intros H. apply conduct_turn_table in H as (Hn & He & Hv & Ht & Hoff).
  do 3 (split; [done|]). split; [lia|]. split; [|done].
  intros Hr. destruct Ht as [?|[_ [?|?]]]; [done|..]; destruct Hr; congruence.
Qed.

Lemma conduct_turn_frame_witness :
  ∃ r g' w',
    conduct_turn oot_game false oot_world = Ok ((r, g'), w')
    ∧ length (players g') = length (players oot_game)
    ∧ enable_oot g' = enable_oot oot_game ∧ verbose g' = verbose oot_game
    ∧ turn_count oot_game ≤ turn_count g' ≤ turn_count oot_game + 1
    ∧ (r = Win ∨ r = Exit → turn_count g' = turn_count oot_game)
    ∧ (negb false && enable_oot oot_game = false →
       r ≠ Oot
       ∧ (r = Next →
          current_player g'
          = ((current_player oot_game + 1) mod length (players oot_game))%nat)).
Proof.
  assert (∃ r g' w', conduct_turn oot_game false oot_world = Ok ((r, g'), w'))
    as (r & g' & w' & Hrun).
  { eexists _, _, _. evaluated. }
  exists r, g', w'. split; [exact Hrun|].
  exact (conduct_turn_frame _ _ _ _ _ _ Hrun).
Defined.

(** X29 (conduct_turn, the answer 'exit'): a step answers 'exit' only
    when the deck and the discard pile are both empty, and then it has
    done nothing but hand the players the state of the field.  Conversely,
    when both are empty and an active card lies on the table, the step
    answers 'exit', whoever's turn it is. *)
Theorem conduct_turn_exit_iff (g : Game) (oot_turn : bool) (w : World) :
  (∀ g' w', conduct_turn g oot_turn w = Ok ((Exit, g'), w') →
     cards (deck g) = [] ∧ discards g = [] ∧ w' = w
     ∧ g' = with_players g
              ((λ p, update_field_info p (discards g) (faceup_sets g)) <$> players g))
  ∧ ((current_player g < length (players g))%nat → active_card g ≠ None →
     cards (deck g) = [] → discards g = [] →
     conduct_turn g oot_turn w
     = Ok ((Exit, with_players g
                    ((λ p, update_field_info p (discards g) (faceup_sets g)) <$> players g)),
           w)).
Proof.
  split.
  - intros g' w' H. unfold conduct_turn in H.
    apply bind_inv in H as (p & w1 & [_ ->]%lift_inv & H).
    destruct (_ && _).
    { inv_run H; by simplify_eq. }
    apply bind_inv in H as (r & w2 & Hr & H).
    destruct r as [g1|].
    + exfalso. inv_run H; simplify_eq; try (by eapply finish_turn_not_exit).
    + apply mret_inv in H as [[= <-] <-].
      pose proof (replenish_deck_exit _ _ _ Hr) as [Hd Hs]. cbn in Hd, Hs.
      unfold replenish_deck in Hr. cbn in Hr. rewrite Hd, Hs in Hr. cbn in Hr.
      by apply mret_inv in Hr as [_ ->].
  - intros Hcp Hac Hd Hs. unfold conduct_turn.
    destruct (lookup_lt_is_Some_2 (players g) (current_player g) Hcp) as [p Hp].
    cbv zeta. unfold item. cbn [players current_player active_card with_players].
    rewrite list_lookup_fmap, Hp. cbn [lift fmap option_fmap option_map].
    erewrite bind_ok; [|reflexivity].
    rewrite (bool_decide_eq_false_2 (active_card g = None)) by done.
    rewrite andb_false_r. unfold replenish_deck. cbn [deck discards with_players].
    rewrite Hd, Hs. cbn [length]. rewrite !bool_decide_eq_true_2 by done.
    erewrite bind_ok; [|reflexivity]. done.
Qed.

(** ** Dealing cards to a player *)

Lemma list_remove_ok (x : Card) (l : list Card) :
  x ∈ l → NoDup (cid <$> l) →
  ∃ l', list_remove same_object x l = Ok l' ∧ l ≡ₚ x :: l'.
Proof.
  induction l as [|y l IH]; intros Hx Hnd; [by apply elem_of_nil in Hx|].
  cbn [list_remove]. unfold same_object at 1. case_bool_decide as Hy.
  - exists l. split; [done|].
    assert (y = x) as ->; [|done].
    eapply (NoDup_fmap_inj_on cid); [exact Hnd|by left|done|done].
  - apply elem_of_cons in Hx as [->|Hx]; [done|].
    rewrite fmap_cons in Hnd. apply NoDup_cons in Hnd as [_ Hnd].
    destruct (IH Hx Hnd) as (l' & -> & Hp). exists (y :: l'). split; [done|].
    rewrite Hp. apply Permutation_swap.
Qed.

Lemma remove_cards_ok (cs l : list Card) :
  NoDup (cid <$> l) → NoDup (cid <$> cs) → (∀ c, c ∈ cs → c ∈ l) →
  ∃ l', remove_cards cs l = Ok l' ∧ l ≡ₚ cs ++ l'.
Proof.
  revert l. induction cs as [|c cs IH]; intros l Hl Hcs Hin; [by exists l|].
  cbn [remove_cards].
  destruct (list_remove_ok c l) as (l1 & -> & Hp); [apply Hin; by left|done|].
  cbn [mbind res_bind]. rewrite fmap_cons in Hcs. apply NoDup_cons in Hcs as [Hc Hcs].
  destruct (IH l1) as (l' & -> & Hp'); [| done | |].
  - rewrite Hp, fmap_cons in Hl. by apply NoDup_cons in Hl as [_ ?].
  - intros c' Hc'. assert (c' ∈ l) as Hc'l by (apply Hin; by right).
    rewrite Hp in Hc'l. apply elem_of_cons in Hc'l as [->|?]; [|done].
    exfalso. apply Hc. by apply list_elem_of_fmap_2.
  - exists l'. split; [done|]. by rewrite Hp, Hp'.
Qed.

Lemma separate_facedown_sets_step p :
  separate_facedown_sets p
  = (e ← evaluate_hand (hand p);
     for_in (ev_sets e) facedown_step (with_hand p (ev_cards e))).
Proof. reflexivity. Qed.

(** What one set does to the player: nothing, or it goes face down. *)
Lemma facedown_step_run (s : CardSet) (p : Player) (w : World) h1 :
  remove_cards (set_cards s) (hand p) = Ok h1 →
  facedown_step s p w = Ok (p, w)
  ∨ (length (set_cards s) = 4%nat
     ∧ facedown_step s p w
       = Ok (with_facedown
               (with_hand (with_facedown p (facedown_sets p ++ [s]) (facedown_score p)) h1)
               (facedown_sets p ++ [s]) (facedown_score p + score s), w)).
Proof.
  intros Hrem. unfold facedown_step.
  assert (place_facedown p s
          = Ok (with_facedown
                  (with_hand (with_facedown p (facedown_sets p ++ [s]) (facedown_score p)) h1)
                  (facedown_sets p ++ [s]) (facedown_score p + score s))) as Hplace.
  { unfold place_facedown. cbn [hand with_facedown]. by rewrite Hrem. }
  destruct (bool_decide_reflect (length (set_cards s) = 4%nat)) as [Hlen|Hlen].
  2:{ left. by erewrite bind_ok; [|reflexivity]. }
  unfold cards_same_suit, cards_same_colour.
  destruct (set_cards s) as [|c0 rest] eqn:Hcs; [done|].
  cbn [first_card mbind res_bind mret res_ret lift].
  rewrite <- Hcs in *.
  destruct (forallb (λ i, bool_decide (suit i = suit c0)) (set_cards s)).
  2:{ left. by erewrite bind_ok; [|reflexivity]. }
  erewrite bind_ok; [|reflexivity]. cbv beta iota zeta.
  destruct (cards_unique_colours (set_cards s)).
  - rewrite Hrem. cbn [lift]. erewrite bind_ok; [|reflexivity].
    destruct (negb _); [|by left]. right. split; [done|]. by rewrite Hplace.
  - erewrite bind_ok; [|reflexivity].
    destruct (forallb _ _); [|by left]. right. split; [done|]. by rewrite Hplace.
Qed.

(** The loop of [separate_facedown_sets] over sets that lie in the hand
    and share no card: some of the sets of four cards go face down, with
    their cards and their scores, and nothing else changes. *)
Lemma separate_loop (sets : list CardSet) (p : Player) (w : World) :
  NoDup (cid <$> hand p) → NoDup (set_ids sets) →
  (∀ c, c ∈ cards_of sets → c ∈ hand p) →
  ∃ p' F,
    for_in sets facedown_step p w = Ok (p', w)
    ∧ hand p' ++ cards_of F ≡ₚ hand p
    ∧ facedown_sets p' = facedown_sets p ++ F
    ∧ facedown_score p' = facedown_score p + foldr (λ s t, score s + t) 0 F
    ∧ Forall (λ s, length (set_cards s) = 4%nat) F
    ∧ sublist F sets
    ∧ name p' = name p ∧ field_discards p' = field_discards p
    ∧ field_melded_sets p' = field_melded_sets p
    ∧ melded_sets p' = melded_sets p ∧ melded_score p' = melded_score p.
Proof.
  revert p. induction sets as [|s sets IH]; intros p Hnd Hids Hin.
  { exists p, []. split; [done|]. unfold cards_of. cbn. rewrite !app_nil_r.
    split; [done|]. split; [done|]. split; [lia|]. by repeat split. }
  change (s :: sets) with ([s] ++ sets) in Hids, Hin.
  rewrite set_ids_app, set_ids_singleton in Hids.
  apply NoDup_app in Hids as (Hs & Hdisj & Hrest).
  assert (∀ c, c ∈ set_cards s → c ∈ hand p) as Hsin.
  { intros c Hc. apply Hin. rewrite cards_of_app, cards_of_singleton.
    apply elem_of_app. by left. }
  destruct (remove_cards_ok (set_cards s) (hand p) Hnd Hs Hsin) as (h1 & Hrem & Hp).
  cbn [for_in app].
  destruct (facedown_step_run s p w h1 Hrem) as [Hstep|[Hlen Hstep]];
    (erewrite bind_ok; [|exact Hstep]).
  - destruct (IH p) as (p' & F & Hrun & Hh & Hf & Hsc & H4 & Hsub & Hother); [done|done| |].
    { intros c Hc. apply Hin. rewrite cards_of_app. apply elem_of_app. by right. }
    exists p', F. split; [exact Hrun|]. do 4 (split; [done|]).
    split; [by apply sublist_cons|]. done.
  - set (p1 := with_facedown _ _ _) in *.
    destruct (IH p1) as (p' & F & Hrun & Hh & Hf & Hsc & H4 & Hsub & Hother).
    + cbn. rewrite Hp, fmap_app in Hnd. by apply NoDup_app in Hnd as (_ & _ & ?).
    + done.
    + intros c Hc. cbn. assert (c ∈ hand p) as Hcp.
      { apply Hin. rewrite cards_of_app. apply elem_of_app. by right. }
      rewrite Hp in Hcp. apply elem_of_app in Hcp as [Hcs|?]; [|done].
      exfalso. apply (Hdisj (cid c)); [by apply list_elem_of_fmap_2|].
      unfold set_ids. by apply list_elem_of_fmap_2.
    + exists p', (s :: F). split; [exact Hrun|]. cbn in Hh, Hf, Hsc, Hother.
      split.
      { change (s :: F) with ([s] ++ F). rewrite cards_of_app, cards_of_singleton.
        etrans; [|symmetry; exact Hp]. rewrite <- Hh.
        apply Permutation_app_swap_app. }
      split; [by rewrite Hf, <- app_assoc|]. split; [cbn; lia|].
      split; [by constructor|]. split; [by constructor|]. done.
Qed.

(** X30 (Player.give_cards, Player.separate_facedown_sets): dealing
    distinct, unlocked cards to a player never fails and loses no card.
    The new cards join the hand; some sets of four cards found in the
    hand go face down, their scores being added to the face-down score;
    what stays in the hand together with these sets is exactly the old
    hand and the cards dealt.  The melded sets are left alone, the
    collection lists all the cards of the player, and the player is left
    in a state that a further evaluation of the hand does not change. *)
Theorem give_cards_conserves (p : Player) (cs : list Card) (w : World) :
  NoDup (cid <$> (hand p ++ cs)) → (∀ c, c ∈ hand p ++ cs → cid c ∉ locked w) →
  ∃ p' F,
    give_cards p (Some cs) w = Ok (p', w)
    ∧ hand p' ++ cards_of F ≡ₚ hand p ++ cs
    ∧ facedown_sets p' = facedown_sets p ++ F
    ∧ facedown_score p' = facedown_score p + foldr (λ s t, score s + t) 0 F
    ∧ Forall (λ s, length (set_cards s) = 4%nat) F
    ∧ melded_sets p' = melded_sets p ∧ melded_score p' = melded_score p
    ∧ player_cards p' ≡ₚ player_cards p ++ cs
    ∧ collection p' ≡ₚ player_cards p ++ cs
    ∧ total_score p' = hand_score p' + facedown_score p' + melded_score p'
    ∧ evaluate_player_hand p' w = Ok (p', w).
Proof.
  intros Hnd Hfree. unfold give_cards.
  rewrite foldl_snoc_app, sort_cards_suit. cbn [lift].
  erewrite bind_ok; [|reflexivity]. cbv beta iota.
  set (h := py_sort rank_le (hand p ++ cs)).
  assert (h ≡ₚ hand p ++ cs) as Hh by apply py_sort_Permutation.
  assert (NoDup (cid <$> h)) as Hndh by (by rewrite Hh).
  assert (∀ c, c ∈ h → cid c ∉ locked w) as Hfreeh.
  { intros c Hc. apply Hfree. by rewrite <- Hh. }
  rewrite separate_facedown_sets_step. cbn [hand with_hand].
  destruct (evaluate_hand_run h w) as (e & w1 & He & Hcards & _ & _ & Hcom & _).
  assert (w1 = w) as -> by (by eapply evaluate_hand_world).
  unfold mbind, M_bind. rewrite He.
  assert (py_sort rank_le h = h) as Hsorted by apply py_sort_idempotent.
  rewrite Hsorted in Hcards, Hcom. rewrite Hcards.
  destruct (separate_loop (ev_sets e) (with_hand (with_hand p h) h) w)
    as (p1 & F & Hloop & Hh1 & Hf & Hsc & H4 & _ & Hname & Hfd & Hfm & Hms & Hmsc).
  { done. }
  { by eapply committed_NoDup. }
  { by eapply committed_sublist. }
  cbn [hand with_hand facedown_sets facedown_score melded_sets melded_score name
       field_discards field_melded_sets] in Hh1, Hf, Hsc, Hname, Hfd, Hfm, Hms, Hmsc.
  assert (∀ c, c ∈ hand p1 → cid c ∉ locked w) as Hfree1.
  { intros c Hc. apply Hfreeh. rewrite <- Hh1. apply elem_of_app. by left. }
  destruct (evaluate_player_hand_exact p1 w) as (e2 & w2 & w' & He2 & Hrun & Hw & Hl).
  assert (w' = w) as ->.
  { apply World_eq; [done|]. rewrite Hl. apply set_eq. intros i.
    rewrite elem_of_difference, elem_of_list_to_set. split; [tauto|].
    intros Hi. split; [done|]. intros (c & -> & Hc)%list_elem_of_fmap. by eapply Hfree1. }
  rewrite Hloop, Hrun.
  eexists _, F. split; [reflexivity|]. fields.
  assert (py_sort rank_le (hand p1) ++ cards_of (facedown_sets p1) ++ cards_of (melded_sets p1)
          ≡ₚ player_cards p ++ cs) as Hall.
  { rewrite py_sort_Permutation, Hf, Hms, cards_of_app. unfold player_cards.
    trans ((hand p1 ++ cards_of F) ++ cards_of (facedown_sets p)
           ++ cards_of (melded_sets p)).
    { rewrite <- !app_assoc. f_equiv. apply Permutation_app_swap_app. }
    rewrite Hh1, Hh, <- !app_assoc. f_equiv.
    rewrite (Permutation_app_comm cs). by rewrite <- !app_assoc. }
  split; [by rewrite py_sort_Permutation, Hh1, Hh|].
  split; [done|]. split; [done|]. split; [done|]. split; [done|]. split; [done|].
  split; [exact Hall|]. split; [by rewrite py_sort_Permutation|]. split; [lia|].
  edestruct evaluate_player_hand_exact as (e3 & w3 & w4 & He3 & Hrun3 & Hw3 & Hl3).
  rewrite Hrun3. fields.
  rewrite evaluate_hand_sorted, He2 in He3. injection He3 as <- <-.
  rewrite py_sort_idempotent. do 2 f_equal.
  apply World_eq; [done|]. rewrite Hl3. apply set_eq. intros i.
  rewrite elem_of_difference, elem_of_list_to_set. split; [tauto|].
  intros Hi. split; [done|]. intros (c & -> & Hc)%list_elem_of_fmap.
  rewrite py_sort_Permutation in Hc. by eapply Hfree1.
Qed.

Lemma give_cards_conserves_witness :
  let cs := [tse 3; tse 4; kee 5] in
  ∃ p' F,
    give_cards rollback_player (Some cs) rollback_world = Ok (p', rollback_world)
    ∧ hand p' ++ cards_of F ≡ₚ hand rollback_player ++ cs
    ∧ facedown_sets p' = facedown_sets rollback_player ++ F
    ∧ facedown_score p'
      = facedown_score rollback_player + foldr (λ s t, score s + t) 0 F
    ∧ Forall (λ s, length (set_cards s) = 4%nat) F
    ∧ melded_sets p' = melded_sets rollback_player
    ∧ melded_score p' = melded_score rollback_player
    ∧ player_cards p' ≡ₚ player_cards rollback_player ++ cs
    ∧ collection p' ≡ₚ player_cards rollback_player ++ cs
    ∧ total_score p' = hand_score p' + facedown_score p' + melded_score p'
    ∧ evaluate_player_hand p' rollback_world = Ok (p', rollback_world).
Proof.
  intros cs. apply (give_cards_conserves rollback_player cs rollback_world).
  - apply (bool_decide_unpack _). vm_compute. exact I.
  - intros c _. simpl. set_solver.
Defined.
